(** * vernixdb: the JSON document store of [src/index.js]

    A shallow embedding of the [JSONDatabase] class: the document model,
    the query matcher, the sort comparator, the read-modify-write
    operations over the single backing file, and the interleavings that
    the promise-based mutex admits between concurrent calls.

    Modelling conventions.
    - A JavaScript object used as a mapping (a document, a filter, a
      patch, the database itself) is a [gmap] keyed by strings, holding
      its own members.  Reading a member it does not hold goes to
      [Object.prototype]: [o[key]] is then the built-in object found there
      under [key] ([constructor], [toString], [__proto__], ...), and
      [undefined] for every other name.
    - Documents, filters and patches hold data: [undefined], [null],
      booleans, numbers, strings, arrays and nested mappings.
    - Numbers are the integers [Z]; non-integral doubles, [NaN] and the
      infinities are outside the model.  Strings are strings of ASCII
      characters, on which the order by code units is the order by bytes.
    - The backing file is represented by what [JSON.parse] makes of its
      text: a database, which maps collection names to arrays of
      documents, unless the file is missing or its text does not parse.
      Writing a value stores what [JSON.stringify] followed by
      [JSON.parse] makes of it ([json_roundtrip]).
    - [new Date().toISOString()] and [_generateId()] read the clock and
      the random source: they are arguments of the operations.
    - [Array.prototype.sort], the conversions of the relational comparison
      and [Buffer.byteLength] belong to the host: they are members of
      [Runtime], and what the language guarantees of the sort is
      [Conforming]. *)

From Stdlib Require Import ZArith Lia Permutation Sorted.
From stdpp Require Import gmap strings list fin_maps.

Set Default Proof Using "Type".
#[local] Set Warnings "-register-all".
#[local] Open Scope string_scope.
#[local] Open Scope Z_scope.
#[local] Open Scope list_scope.

(** ** Values *)

Inductive value : Type :=
| VUndefined
| VNull
| VBool (b : bool)
| VNum (n : Z)
| VStr (s : string)
| VArr (items : list value)
| VObj (fields : gmap string value).

Abbreviation doc := (gmap string value) (only parsing).
Abbreviation database :=
  (gmap string (list (gmap string value))) (only parsing).

(** The names of the members of [Object.prototype], which every object
    built by a literal or by [JSON.parse] inherits. *)
Definition Object_prototype : list string :=
  [ "constructor"; "hasOwnProperty"; "isPrototypeOf"; "propertyIsEnumerable";
    "toLocaleString"; "toString"; "valueOf"; "__proto__";
    "__defineGetter__"; "__defineSetter__"; "__lookupGetter__";
    "__lookupSetter__" ].

Definition inherited (key : string) : bool :=
  bool_decide (key ∈ Object_prototype).

(** What an expression of the engine evaluates to: a value of the data
    model, or the built-in object that [Object.prototype] holds under
    [name] (a function; under [__proto__], the prototype itself). *)
Inductive operand : Type :=
| Data (v : value)
| Builtin (name : string).

Coercion Data : value >-> operand.

(** [doc[key]]: the document's own member, else the inherited one, else
    [undefined]. *)
Definition get (d : doc) (key : string) : operand :=
  match d !! key with
  | Some v => Data v
  | None => if inherited key then Builtin key else Data VUndefined
  end.

(** [doc._id]: the name [_id] is not one of [Object_prototype], so the
    read yields the document's own member or [undefined]. *)
Definition _id (d : doc) : value := default VUndefined (d !! "_id").

(** A value that is neither an array nor a nested mapping. *)
Definition primitive (v : value) : Prop :=
  match v with
  | VArr _ | VObj _ => False
  | _ => True
  end.

(** [x === y].  Primitives are compared by type and value, objects by
    reference.  The built-ins are each one object.  An array or a mapping
    of the data model stands for an object of its own: wherever the engine
    compares, one side is a member of a document that [JSON.parse] has just
    built or a literal, so that two of them are never the same reference
    and the comparison fails whenever either side is structured. *)
Definition strict_eq (x y : operand) : bool :=
  match x, y with
  | Data VUndefined, Data VUndefined => true
  | Data VNull, Data VNull => true
  | Data (VBool a), Data (VBool b) => Bool.eqb a b
  | Data (VNum a), Data (VNum b) => (a =? b)%Z
  | Data (VStr a), Data (VStr b) => String.eqb a b
  | Builtin a, Builtin b => String.eqb a b
  | _, _ => false
  end.

(** [x !== y] *)
Definition strict_neq (x y : operand) : bool := negb (strict_eq x y).

(** ** Query matcher *)

(** The [for (const [key, value] of Object.entries(query))] loop of
    [_matchesQuery], leaving at the first field that differs. *)
Fixpoint match_entries (d : doc) (entries : list (string * value)) : bool :=
  match entries with
  | [] => true
  | (key, value) :: rest =>
      if strict_neq (get d key) value then false
      else match_entries d rest
  end.

(** [doc] is a document of a collection just read from the file. *)
Definition _matchesQuery (d : doc) (query : doc) : bool :=
  if (length (map_to_list query) =? 0)%nat then true
  else match_entries d (map_to_list query).

(** The matcher as the specification words it: every filter pair holds
    the same type and value as the document's field. *)
Definition same_type_and_value (d : doc) (query : doc) : Prop :=
  map_Forall (λ key (expected : value), get d key = expected) query.

(** ** Relational comparison *)

(** What the host language computes and this development does not
    spell out: the comparison of a string with a number (the string goes
    through [StringToNumber]); the string an array or a mapping turns into
    under [ToPrimitive], [None] when the conversion throws a [TypeError]
    (a mapping that holds a member named [toString] has no method of that
    name to call); the string a built-in turns into; the byte length of a
    serialised collection; and [Array.prototype.sort] called with a
    comparator, [None] when a throw of the comparator ends it.  Every
    statement below holds for whatever these are. *)
Class Runtime := {
  string_lt_number : string → Z → bool;
  number_lt_string : Z → string → bool;
  structured_to_string : value → option string;
  builtin_to_string : string → string;
  byteLength : list doc → Z;
  array_sort : (doc → doc → option Z) → list doc → option (list doc)
}.

Inductive prim : Type :=
| PUndefined
| PNull
| PBool (b : bool)
| PNum (n : Z)
| PStr (s : string).

(** [ToNumber] away from strings; [None] is [NaN]. *)
Definition ToNumber (p : prim) : option Z :=
  match p with
  | PUndefined => None
  | PNull => Some 0
  | PBool b => Some (if b then 1 else 0)
  | PNum n => Some n
  | PStr _ => None
  end.

Section Ordering.
Context `{Runtime}.

(** [ToPrimitive]; [None] when it throws. *)
Definition ToPrimitive (x : operand) : option prim :=
  match x with
  | Data VUndefined => Some PUndefined
  | Data VNull => Some PNull
  | Data (VBool b) => Some (PBool b)
  | Data (VNum n) => Some (PNum n)
  | Data (VStr s) => Some (PStr s)
  | Data (VArr items) => PStr <$> structured_to_string (VArr items)
  | Data (VObj fields) => PStr <$> structured_to_string (VObj fields)
  | Builtin name => Some (PStr (builtin_to_string name))
  end.

(** The comparison of two primitives: both strings, by code units;
    otherwise numerically, and false as soon as one side is [NaN]. *)
Definition prim_lt (p q : prim) : bool :=
  match p, q with
  | PStr s, PStr t => String.ltb s t
  | PStr s, q =>
      match ToNumber q with
      | Some n => string_lt_number s n
      | None => false
      end
  | p, PStr t =>
      match ToNumber p with
      | Some n => number_lt_string n t
      | None => false
      end
  | p, q =>
      match ToNumber p, ToNumber q with
      | Some a, Some b => (a <? b)%Z
      | _, _ => false
      end
  end.

(** [x < y]; [None] when the conversion of an operand throws. *)
Definition js_lt (x y : operand) : option bool :=
  p ← ToPrimitive x; q ← ToPrimitive y; Some (prim_lt p q).

(** [x > y] *)
Definition js_gt (x y : operand) : option bool := js_lt y x.

(** ** Sorting *)

(** The comparator handed to [documents.sort] in [_sortDocuments];
    [sort] is [Object.entries(sort)], the pairs of the sort specification
    in the order the language enumerates them.  [None] when a comparison
    throws. *)
Fixpoint compare_docs (sort : list (string * value)) (a b : doc) : option Z :=
  match sort with
  | [] => Some 0
  | (key, direction) :: rest =>
      below ← js_lt (get a key) (get b key);
      if below : bool
      then Some (if strict_eq direction (VNum 1) then -1 else 1)
      else
        above ← js_gt (get a key) (get b key);
        if above : bool
        then Some (if strict_eq direction (VNum 1) then 1 else -1)
        else compare_docs rest a b
  end.

(** [None] when the sort is ended by a throw of the comparator. *)
Definition _sortDocuments (documents : list doc)
    (sort : list (string * value)) : option (list doc) :=
  array_sort (compare_docs sort) documents.

(** The number a value counts as in a comparison that is not between two
    strings: numbers, booleans and [null] have one. *)
Definition as_number (x : operand) : option Z :=
  p ← ToPrimitive x;
  match p with
  | PStr _ => None
  | _ => ToNumber p
  end.

(** The string a value is compared as: its own for a string, the one
    [ToPrimitive] makes for an array, a mapping or a built-in. *)
Definition as_string (x : operand) : option string :=
  p ← ToPrimitive x;
  match p with
  | PStr s => Some s
  | _ => None
  end.

(** One sort field compares every two documents satisfying [D] without a
    throw and is a strict order on them, and two documents it does not
    tell apart compare alike with every third. *)
Definition key_ordered (D : doc → Prop) (key : string) : Prop :=
  let lt a b := js_lt (get a key) (get b key) in
  (∀ a b, D a → D b → is_Some (lt a b))
  ∧ (∀ a b, D a → D b → lt a b = Some true → lt b a = Some false)
  ∧ (∀ a b c, D a → D b → D c →
       lt a b = Some true → lt b c = Some true → lt a c = Some true)
  ∧ (∀ a b c, D a → D b → D c → lt a b = Some false → lt b a = Some false →
       lt a c = lt b c ∧ lt c a = lt c b).

(** Every document of [docs] reads under [key] as a value compared as a
    number, or every one as a value compared as a string. *)
Definition homogeneous (key : string) (docs : list doc) : Prop :=
  (∀ d, d ∈ docs → is_Some (as_number (get d key)))
  ∨ (∀ d, d ∈ docs → is_Some (as_string (get d key))).

Definition comparable (sort : list (string * value)) (docs : list doc) : Prop :=
  ∀ key direction, (key, direction) ∈ sort → homogeneous key docs.

(** What the comparator returns, where it returns. *)
Definition compare_value (sort : list (string * value)) (a b : doc) : Z :=
  default 0 (compare_docs sort a b).


End Ordering.

(** The comparator [cmp] returns on every two elements of [l], and [f] is
    what it returns. *)
Definition returns_on (cmp : doc → doc → option Z) (f : doc → doc → Z)
    (l : list doc) : Prop :=
  ∀ a b, a ∈ l → b ∈ l → cmp a b = Some (f a b).

(** A consistent comparator for the values satisfying [D], as the
    language defines it: being tied is reflexive, symmetric and transitive,
    being below is transitive, and so is being above. *)
Definition consistent (f : doc → doc → Z) (D : doc → Prop) : Prop :=
  (∀ a, D a → f a a = 0)
  ∧ (∀ a b, D a → D b → f a b = 0 → f b a = 0)
  ∧ (∀ a b c, D a → D b → D c → f a b = 0 → f b c = 0 → f a c = 0)
  ∧ (∀ a b c, D a → D b → D c → f a b < 0 → f b c < 0 → f a c < 0)
  ∧ (∀ a b c, D a → D b → D c → 0 < f a b → 0 < f b c → 0 < f a c).

(** The elements of [l] that [f] ties with [x], in their order. *)
Definition tied (f : doc → doc → Z) (x : doc) (l : list doc) : list doc :=
  List.filter (λ y, (f x y =? 0)%Z) l.

(** What the language guarantees of [Array.prototype.sort].  It returns
    when the comparator does.  When it returns, the array holds the
    elements it held; and if the comparator is consistent for them, no
    element stands before one it compares above, and elements that are
    tied stay in the order they were in.  With a comparator that is not
    consistent the order is left to the implementation, and so is, with a
    comparator that can throw, which elements it is asked to compare. *)
Class Conforming `{Runtime} : Prop := {
  sort_returns :
    ∀ cmp f l, returns_on cmp f l → is_Some (array_sort cmp l);
  sort_permutation :
    ∀ cmp l l', array_sort cmp l = Some l' → l' ≡ₚ l;
  sort_ordered :
    ∀ cmp f l l', returns_on cmp f l → consistent f (λ d, d ∈ l) →
      array_sort cmp l = Some l' →
      StronglySorted (λ a b, f a b ≤ 0) l';
  sort_stable :
    ∀ cmp f l l' x, returns_on cmp f l → consistent f (λ d, d ∈ l) →
      array_sort cmp l = Some l' → x ∈ l →
      tied f x l' = tied f x l
}.


(** Sorting by insertion, each element going in front of the first one it
    compares below; a throw of the comparator ends it. *)
Fixpoint sort_insert (cmp : doc → doc → option Z) (x : doc) (sorted : list doc)
  : option (list doc) :=
  match sorted with
  | [] => Some [x]
  | y :: rest =>
      c ← cmp x y;
      if (c <? 0)%Z then Some (x :: y :: rest)
      else cons y <$> sort_insert cmp x rest
  end.

Definition insertion_sort (cmp : doc → doc → option Z) (l : list doc)
  : option (list doc) :=
  fold_left (λ acc x, sorted ← acc; sort_insert cmp x sorted) l (Some []).

(** The same with a comparator that always returns. *)
Fixpoint insert_by (f : doc → doc → Z) (x : doc) (sorted : list doc)
  : list doc :=
  match sorted with
  | [] => [x]
  | y :: rest =>
      if (f x y <? 0)%Z then x :: y :: rest
      else y :: insert_by f x rest
  end.

Definition sort_by (f : doc → doc → Z) (l : list doc) : list doc :=
  fold_left (λ acc x, insert_by f x acc) l [].

(** An instance on which the operations can be evaluated: the sort is
    [insertion_sort], and the inputs of the examples below never reach its
    other members. *)
#[global] Instance default_runtime : Runtime := {|
  string_lt_number := λ _ _, false;
  number_lt_string := λ _ _, false;
  structured_to_string := λ _, Some "";
  builtin_to_string := λ _, "";
  byteLength := λ _, 0%Z;
  array_sort := insertion_sort
|}.

(** ** Array slicing *)

(** The clamping of a relative index in [Array.prototype.slice]. *)
Definition relative_index (len i : Z) : Z :=
  if (i <? 0)%Z then Z.max (len + i) 0 else Z.min i len.

(** [l.slice(start, end)] *)
Definition slice {A} (l : list A) (start end_ : Z) : list A :=
  let len := Z.of_nat (length l) in
  let k := relative_index len start in
  let final := relative_index len end_ in
  take (Z.to_nat (final - k)) (drop (Z.to_nat k) l).

(** The window [[skip, skip + limit)] of a list, clipped to its length. *)
Definition window {A} (skip limit : Z) (l : list A) : list A :=
  take (Z.to_nat limit) (drop (Z.to_nat skip) l).

(** ** Persisted form *)

(** [JSON.parse(JSON.stringify(v))]: a member holding [undefined] is not
    written, an [undefined] array element is written as [null]. *)
Fixpoint json_roundtrip (v : value) : value :=
  match v with
  | VArr items =>
      VArr (map (λ x, match x with
                      | VUndefined => VNull
                      | _ => json_roundtrip x
                      end) items)
  | VObj fields =>
      VObj (omap (λ x, match x with
                       | VUndefined => None
                       | _ => Some (json_roundtrip x)
                       end) fields)
  | _ => v
  end.

Definition json_member (x : value) : option value :=
  match x with
  | VUndefined => None
  | _ => Some (json_roundtrip x)
  end.

Definition json_doc (d : doc) : doc := omap json_member d.

Definition json_db (db : database) : database := map json_doc <$> db.

(** A measure that decreases from a value to its elements and members. *)
Fixpoint value_size (v : value) : nat :=
  match v with
  | VArr items => S (foldr (λ x n, (value_size x + n)%nat) 0%nat items)
  | VObj fields => S (map_fold (λ _ x n, (value_size x + n)%nat) 0%nat fields)
  | _ => 0%nat
  end.

(** ** Engine state and errors *)

Inductive code : Type :=
| NOT_INITIALIZED | INVALID_INPUT | COLLECTION_EXISTS | COLLECTION_NOT_FOUND
| DOCUMENT_NOT_FOUND | CORRUPTED_DATABASE | READ_ERROR | WRITE_ERROR
| CREATE_COLLECTION_ERROR | INSERT_ERROR | FIND_ERROR | UPDATE_ERROR
| DELETE_ERROR | DROP_ERROR | STATS_ERROR.

(** What a call can throw: a [DatabaseError] with its code, the raw
    error of a file-system call ([init] lets those through), or the
    [TypeError] of calling a member that is not a function. *)
Inductive error : Type :=
| DatabaseError (c : code)
| FsError
| TypeError.

(** The backing file: absent, present with text that does not parse, or
    present with the mapping its text parses to. *)
Inductive file : Type :=
| Absent
| Unparsable
| Stored (db : database).

(** The engine object together with the one file it owns.  [writable]
    tells whether [fs.writeFile] succeeds; a write that fails is taken to
    leave the file as it was. *)
Record engine : Type := Engine {
  initialized : bool;
  disk : file;
  writable : bool
}.

(** The file holds what a parse can produce: a stored database is its own
    round trip. *)
Definition parsed (s : engine) : Prop :=
  match disk s with
  | Stored db => json_db db = db
  | _ => True
  end.

(** The documents the file holds under [name]. *)
Definition stored (s : engine) (name : string) : option (list doc) :=
  match disk s with
  | Stored db => db !! name
  | _ => None
  end.

Inductive outcome (A : Type) : Type :=
| Ok (a : A)
| Throw (e : error).
Arguments Ok {A} a.
Arguments Throw {A} e.

(** An [async] method run to completion without another call in between:
    the mutex is free when it asks and free again when it returns. *)
Definition M (A : Type) : Type := engine → outcome A * engine.

Definition ret {A} (a : A) : M A := λ s, (Ok a, s).
Definition throw {A} (e : error) : M A := λ s, (Throw e, s).
Definition bind {A B} (m : M A) (k : A → M B) : M B :=
  λ s, match m s with
       | (Ok a, s') => k a s'
       | (Throw e, s') => (Throw e, s')
       end.

Notation "'let!' x ':=' m 'in' k" := (bind m (λ x, k))
  (at level 10, x binder, m at level 100, k at level 200, only parsing).
Notation "'do!' m 'in' k" := (bind m (λ _, k))
  (at level 10, m at level 100, k at level 200, only parsing).

(** [catch (error) { if (error instanceof DatabaseError) throw error;
    throw new DatabaseError(wrapper, ...) }] *)
Definition caught (wrapper : code) (e : error) : error :=
  match e with
  | DatabaseError c => DatabaseError c
  | _ => DatabaseError wrapper
  end.

Definition rethrow {A} (wrapper : code) (m : M A) : M A :=
  λ s, match m s with
       | (Throw e, s') => (Throw (caught wrapper e), s')
       | r => r
       end.

(** ** The [JSONDatabase] class *)

Module JSONDatabase.

(** [new JSONDatabase(filePath)], over a file system holding [f]. *)
Definition constructor (f : file) (w : bool) : engine :=
  {| initialized := false; disk := f; writable := w |}.

Definition init : M unit := λ s,
  match disk s with
  | Stored _ =>
      (Ok (), {| initialized := true; disk := disk s; writable := writable s |})
  | Absent =>
      if writable s
      then (Ok (), {| initialized := true; disk := Stored ∅;
                      writable := writable s |})
      else (Throw FsError, s)
  | Unparsable => (Throw (DatabaseError CORRUPTED_DATABASE), s)
  end.

(** What [_readDatabase] does while it holds the mutex. *)
Definition read_locked (s : engine) : outcome database :=
  match disk s with
  | Stored db => Ok db
  | Unparsable => Throw (DatabaseError CORRUPTED_DATABASE)
  | Absent => Throw (DatabaseError READ_ERROR)
  end.

Definition _readDatabase : M database := λ s,
  if negb (initialized s) then (Throw (DatabaseError NOT_INITIALIZED), s)
  else (read_locked s, s).

(** What [_writeDatabase] does while it holds the mutex. *)
Definition write_locked (data : database) (s : engine) : outcome unit * engine :=
  if writable s
  then (Ok (), {| initialized := initialized s; disk := Stored (json_db data);
                  writable := writable s |})
  else (Throw (DatabaseError WRITE_ERROR), s).

Definition _writeDatabase (data : database) : M unit := λ s,
  if negb (initialized s) then (Throw (DatabaseError NOT_INITIALIZED), s)
  else write_locked data s.

(** The white space [String.prototype.trim] removes, within ASCII. *)
Definition is_whitespace (c : Ascii.ascii) : bool :=
  let n := Ascii.nat_of_ascii c in
  ((9 <=? n)%nat && (n <=? 13)%nat) || (n =? 32)%nat.

(** [!collectionName.trim()] *)
Definition blank (name : string) : bool :=
  forallb is_whitespace (String.list_ascii_of_string name).

(** The argument is any value: the method tests [typeof] itself.
    [if (db[collectionName])] is passed by a collection the file holds (an
    array is truthy) and by a name of [Object_prototype] (a built-in is
    truthy). *)
Definition createCollection (collectionName : value) : M unit :=
  rethrow CREATE_COLLECTION_ERROR
    match collectionName with
    | VStr name =>
        if blank name then throw (DatabaseError INVALID_INPUT)
        else
          let! db := _readDatabase in
          match db !! name with
          | Some _ => throw (DatabaseError COLLECTION_EXISTS)
          | None =>
              if inherited name then throw (DatabaseError COLLECTION_EXISTS)
              else
                do! _writeDatabase (<[name := []]> db) in
                ret ()
          end
    | _ => throw (DatabaseError INVALID_INPUT)
    end.

(** [documents]: one document, or an array of them. *)
Inductive insert_arg : Type :=
| One (d : doc)
| Many (ds : list doc).

Definition as_array (documents : insert_arg) : list doc :=
  match documents with
  | One d => [d]
  | Many ds => ds
  end.

Record insert_result : Type := {
  insertedCount : nat;
  insertedIds : list value
}.

(** [{...doc, _id: ..., _createdAt: timestamp, _updatedAt: timestamp}] *)
Definition with_metadata (timestamp id : string) (d : doc) : doc :=
  <["_updatedAt" := VStr timestamp]>
    (<["_createdAt" := VStr timestamp]> (<["_id" := VStr id]> d)).

(** The in-memory part of [insert], between its read and its write;
    [_generateId i] is the identifier drawn for the [i]-th document.  Under
    a name of [Object_prototype] that the file does not hold,
    [db[collectionName]] is a built-in, which has no [push]. *)
Definition insert_step (collectionName : string) (documents : list doc)
    (timestamp : string) (_generateId : nat → string) (db : database)
  : outcome (database * insert_result) :=
  match db !! collectionName with
  | None =>
      if inherited collectionName then Throw TypeError
      else Throw (DatabaseError COLLECTION_NOT_FOUND)
  | Some coll =>
      let documentsWithMetadata :=
        imap (λ i d, with_metadata timestamp (_generateId i) d) documents in
      Ok (<[collectionName := coll ++ documentsWithMetadata]> db,
          {| insertedCount := length documentsWithMetadata;
             insertedIds := map _id documentsWithMetadata |})
  end.

Definition insert (collectionName : string) (documents : insert_arg)
    (timestamp : string) (_generateId : nat → string) : M insert_result :=
  rethrow INSERT_ERROR
    (let documents := as_array documents in
     if (length documents =? 0)%nat then throw (DatabaseError INVALID_INPUT)
     else
       let! db := _readDatabase in
       match insert_step collectionName documents timestamp _generateId db with
       | Throw e => throw e
       | Ok (db', result) =>
           do! _writeDatabase db' in
           ret result
       end).

(** [sort] is [Object.entries(options.sort)]. *)
Record find_options : Type := {
  sort : option (list (string * value));
  skip : option Z;
  limit : option Z
}.

(** [options = {}] *)
Definition no_options : find_options :=
  {| sort := None; skip := None; limit := None |}.

Record find_result : Type := {
  data : list doc;
  count_ : nat
}.

(** [if (options.limit) { const skip = options.skip || 0; ... }] *)
Definition paginate (options : find_options) (results : list doc) : list doc :=
  match limit options with
  | Some l =>
      if (l =? 0)%Z then results
      else
        let skip := default 0%Z (skip options) in
        slice results skip (skip + l)
  | None => results
  end.

(** Pagination as the specification words it: a window as soon as
    [skip] or [limit] is present, [skip] defaulting to 0, a missing [limit]
    leaving the window open to the right. *)
Definition paginate_as_specified (options : find_options) (results : list doc)
  : list doc :=
  match skip options, limit options with
  | None, None => results
  | sk, Some l => window (default 0%Z sk) l results
  | Some sk, None => drop (Z.to_nat sk) results
  end.

Section WithRuntime.
Context `{Runtime}.

(** The in-memory part of [find], from the snapshot to the result.  A
    built-in has no [filter]; a comparator that throws ends the sort and
    the call. *)
Definition find_step (collectionName : string) (query : doc)
    (options : find_options) (db : database) : outcome find_result :=
  match db !! collectionName with
  | None =>
      if inherited collectionName then Throw TypeError
      else Throw (DatabaseError COLLECTION_NOT_FOUND)
  | Some coll =>
      let results := List.filter (λ d, _matchesQuery d query) coll in
      let sorted :=
        match sort options with
        | Some s => _sortDocuments results s
        | None => Some results
        end in
      match sorted with
      | None => Throw TypeError
      | Some results =>
          let results := paginate options results in
          Ok {| data := results; count_ := length results |}
      end
  end.

Definition find (collectionName : string) (query : doc)
    (options : find_options) : M find_result :=
  rethrow FIND_ERROR
    (let! db := _readDatabase in
     match find_step collectionName query options db with
     | Throw e => throw e
     | Ok result => ret result
     end).

Record findOne_result : Type := {
  found : option doc;
  found_count : nat
}.

Definition findOne (collectionName : string) (query : doc) : M findOne_result :=
  rethrow FIND_ERROR
    (let! result :=
       find collectionName query
         {| sort := None; skip := None; limit := Some 1%Z |} in
     ret {| found := head (data result);
            found_count := if (length (data result) =? 0)%nat then 0%nat
                           else 1%nat |}).

Definition count (collectionName : string) (query : doc) : M nat :=
  let! result := find collectionName query no_options in
  ret (count_ result).

Record collection_stats : Type := {
  documentCount : nat;
  size_ : Z
}.

Record stats : Type := {
  collections : gmap string collection_stats;
  totalCollections : nat
}.

(** [stats.collections[collectionName] = ...] makes a member of
    [stats.collections] for every name but [__proto__], under which the
    assignment replaces the prototype of [stats.collections] instead. *)
Definition getStats : M stats :=
  rethrow STATS_ERROR
    (let! db := _readDatabase in
     ret {| collections :=
              base.delete "__proto__"
                ((λ documents, {| documentCount := length documents;
                                  size_ := byteLength documents |}) <$> db);
            totalCollections := size db |}).

End WithRuntime.

Record update_options : Type := {
  multi : bool;
  upsert : bool
}.

Record update_result : Type := {
  matchedCount : nat;
  modifiedCount : nat
}.

(** [{...doc, ...update, _updatedAt: timestamp, _id: doc._id}] *)
Definition updatedDoc (update : doc) (timestamp : string) (d : doc) : doc :=
  <["_id" := _id d]> (<["_updatedAt" := VStr timestamp]> (update ∪ d)).

(** [db[collectionName].map(doc => ...)], with the [updateCount] the
    callback increments threaded from left to right. *)
Fixpoint update_map (query update : doc) (options : update_options)
    (timestamp : string) (docs : list doc) (updateCount : nat)
  : list doc * nat :=
  match docs with
  | [] => ([], updateCount)
  | d :: rest =>
      if _matchesQuery d query then
        if multi options || (updateCount =? 0)%nat then
          let '(rest', n) :=
            update_map query update options timestamp rest (S updateCount) in
          (updatedDoc update timestamp d :: rest', n)
        else
          let '(rest', n) :=
            update_map query update options timestamp rest updateCount in
          (d :: rest', n)
      else
        let '(rest', n) :=
          update_map query update options timestamp rest updateCount in
        (d :: rest', n)
  end.

(** A built-in has no [map]. *)
Definition update (collectionName : string) (query update : doc)
    (options : update_options) (timestamp : string) : M update_result :=
  rethrow UPDATE_ERROR
    (let! db := _readDatabase in
     match db !! collectionName with
     | None =>
         if inherited collectionName then throw TypeError
         else throw (DatabaseError COLLECTION_NOT_FOUND)
     | Some coll =>
         let '(coll', updateCount) :=
           update_map query update options timestamp coll 0 in
         if (updateCount =? 0)%nat && negb (upsert options)
         then throw (DatabaseError DOCUMENT_NOT_FOUND)
         else
           do! _writeDatabase (<[collectionName := coll']> db) in
           ret {| matchedCount := updateCount; modifiedCount := updateCount |}
     end).

(** Under a name of [Object_prototype] that the file does not hold the
    test passes, [delete db[collectionName]] removes nothing, and the
    database is written back. *)
Definition dropCollection (collectionName : string) : M unit :=
  rethrow DROP_ERROR
    (let! db := _readDatabase in
     match db !! collectionName with
     | None =>
         if inherited collectionName then
           do! _writeDatabase (base.delete collectionName db) in
           ret ()
         else throw (DatabaseError COLLECTION_NOT_FOUND)
     | Some _ =>
         do! _writeDatabase (base.delete collectionName db) in
         ret ()
     end).

Record delete_options : Type := {
  delete_multi : bool
}.

(** A built-in has a [length] or none, and no [filter]. *)
Definition delete (collectionName : string) (query : doc)
    (options : delete_options) : M nat :=
  rethrow DELETE_ERROR
    (let! db := _readDatabase in
     match db !! collectionName with
     | None =>
         if inherited collectionName then throw TypeError
         else throw (DatabaseError COLLECTION_NOT_FOUND)
     | Some coll =>
         let originalLength := length coll in
         let coll' := List.filter (λ d, negb (_matchesQuery d query)) coll in
         let deletedCount := (originalLength - length coll')%nat in
         if (deletedCount =? 0)%nat
         then throw (DatabaseError DOCUMENT_NOT_FOUND)
         else
           do! _writeDatabase (<[collectionName := coll']> db) in
           ret deletedCount
     end).

Definition close : M unit := λ s,
  (Ok (), {| initialized := false; disk := disk s; writable := writable s |}).

(** [JSONDatabase.create(filePath)]: a new engine, initialised. *)
Definition create (f : file) (w : bool) : outcome unit * engine :=
  init (constructor f w).

(** What [collection(collectionName)] returns: the methods bound to one
    collection name. *)
Record collection_handle : Type := {
  handle_insert : insert_arg → string → (nat → string) → M insert_result;
  handle_find : doc → find_options → M find_result;
  handle_findOne : doc → M findOne_result;
  handle_update : doc → doc → update_options → string → M update_result;
  handle_delete : doc → delete_options → M nat;
  handle_drop : M unit;
  handle_count : doc → M nat
}.

Section Handles.
Context `{Runtime}.

(** [collection] is not [async]: it looks at the flag and returns at
    once, leaving the engine as it is. *)
Definition collection (collectionName : string) (s : engine)
  : outcome collection_handle :=
  if negb (initialized s) then Throw (DatabaseError NOT_INITIALIZED)
  else
    Ok {| handle_insert := insert collectionName;
          handle_find := find collectionName;
          handle_findOne := findOne collectionName;
          handle_update := update collectionName;
          handle_delete := delete collectionName;
          handle_drop := dropCollection collectionName;
          handle_count := λ query,
            let! result := find collectionName query no_options in
            ret (count_ result) |}.

End Handles.

End JSONDatabase.

(** ** The example script of [example/index.js] *)

Module Example.
Import JSONDatabase.

Definition kofi : doc :=
  {[ "name" := VStr "Kofi"; "age" := VNum 30; "email" := VStr "him@example.com" ]}.

Definition jane : doc :=
  {[ "name" := VStr "Jane"; "age" := VNum 25; "email" := VStr "jane@example.com" ]}.

(** The body of the [try] block of [example()], on the engine just
    constructed; [inserted_at] and [updated_at] are what the clock reads
    inside [insert] and [update].  What it logs is what it returns. *)
Definition example `{Runtime} (inserted_at updated_at : string)
    (_generateId : nat → string) : M (find_result * stats) :=
  do! init in
  do! createCollection (VStr "users") in
  do! insert "users" (Many [kofi; jane]) inserted_at _generateId in
  let! result :=
    find "users" {[ "age" := VObj {[ "$gte" := VNum 25 ]} ]} no_options in
  do! update "users" {[ "name" := VStr "kofi" ]} {[ "age" := VNum 31 ]}
        {| multi := false; upsert := false |} updated_at in
  let! stats := getStats in
  ret (result, stats).

End Example.

(** ** Concurrent calls of [insert]

    Each [await] is a point where another call may run.  The mutex of
    [async-mutex] hands the lock to its waiters in the order they asked;
    [_readDatabase] and [_writeDatabase] each take it and give it back on
    their own, so a call of [insert] goes through the queue twice. *)

Module Interleaving.
Import JSONDatabase.

Record call : Type := {
  collectionName : string;
  documents : insert_arg;
  timestamp : string;
  _generateId : nat → string
}.

(** Where a call of [insert] stands. *)
Inductive phase : Type :=
| Called
| AwaitReadLock
| HaveSnapshot (db : database)
| AwaitWriteLock (db' : database) (result : insert_result)
| Finished (r : outcome insert_result).

Record task : Type := {
  args : call;
  at_ : phase
}.

(** The engine, the waiters of its mutex (the head holds the lock) and the
    calls in flight. *)
Record system : Type := {
  eng : engine;
  queue : list nat;
  tasks : list task
}.

Definition move (i : nat) (p : phase) (ts : list task) : list task :=
  alter (λ t, {| args := args t; at_ := p |}) i ts.

(** One uninterrupted stretch of call [i], up to its next [await] on the
    mutex; [None] when the call cannot move (it waits behind another one,
    or it has returned). *)
Definition step (i : nat) (σ : system) : option system :=
  t ← tasks σ !! i;
  match at_ t with
  | Called =>
      if (length (as_array (documents (args t))) =? 0)%nat then
        Some {| eng := eng σ; queue := queue σ;
                tasks := move i (Finished (Throw (DatabaseError INVALID_INPUT)))
                           (tasks σ) |}
      else if negb (initialized (eng σ)) then
        Some {| eng := eng σ; queue := queue σ;
                tasks := move i (Finished (Throw (DatabaseError NOT_INITIALIZED)))
                           (tasks σ) |}
      else
        Some {| eng := eng σ; queue := queue σ ++ [i];
                tasks := move i AwaitReadLock (tasks σ) |}
  | AwaitReadLock =>
      match queue σ with
      | holder :: waiting =>
          if (holder =? i)%nat then
            match read_locked (eng σ) with
            | Ok db =>
                Some {| eng := eng σ; queue := waiting;
                        tasks := move i (HaveSnapshot db) (tasks σ) |}
            | Throw e =>
                Some {| eng := eng σ; queue := waiting;
                        tasks := move i (Finished (Throw e)) (tasks σ) |}
            end
          else None
      | [] => None
      end
  | HaveSnapshot db =>
      match insert_step (collectionName (args t)) (as_array (documents (args t)))
              (timestamp (args t)) (_generateId (args t)) db with
      | Throw e =>
          Some {| eng := eng σ; queue := queue σ;
                  tasks := move i (Finished (Throw (caught INSERT_ERROR e)))
                             (tasks σ) |}
      | Ok (db', result) =>
          if negb (initialized (eng σ)) then
            Some {| eng := eng σ; queue := queue σ;
                    tasks := move i (Finished (Throw (DatabaseError NOT_INITIALIZED)))
                               (tasks σ) |}
          else
            Some {| eng := eng σ; queue := queue σ ++ [i];
                    tasks := move i (AwaitWriteLock db' result) (tasks σ) |}
      end
  | AwaitWriteLock db' result =>
      match queue σ with
      | holder :: waiting =>
          if (holder =? i)%nat then
            match write_locked db' (eng σ) with
            | (Ok _, s') =>
                Some {| eng := s'; queue := waiting;
                        tasks := move i (Finished (Ok result)) (tasks σ) |}
            | (Throw e, s') =>
                Some {| eng := s'; queue := waiting;
                        tasks := move i (Finished (Throw e)) (tasks σ) |}
            end
          else None
      | [] => None
      end
  | Finished _ => None
  end.

(** A schedule names the call that moves at each turn. *)
Fixpoint run (schedule : list nat) (σ : system) : option system :=
  match schedule with
  | [] => Some σ
  | i :: rest => σ' ← step i σ; run rest σ'
  end.

(** [calls] issued together on an engine whose mutex is free. *)
Definition launch (s : engine) (calls : list call) : system :=
  {| eng := s; queue := [];
     tasks := (λ c, {| args := c; at_ := Called |}) <$> calls |}.

Definition returned (t : task) : option (outcome insert_result) :=
  match at_ t with
  | Finished r => Some r
  | _ => None
  end.

Definition all_returned (σ : system) : Prop :=
  Forall (λ t, is_Some (returned t)) (tasks σ).

(** The documents persisted under [name]. *)
Definition persisted (σ : system) (name : string) : option (list doc) :=
  match disk (eng σ) with
  | Stored db => db !! name
  | _ => None
  end.

Definition phase_at (σ : system) (i : nat) : option phase :=
  at_ <$> tasks σ !! i.

(** The state [calls] issued together reach before any of them gets the
    lock: every call runs without interruption to its first [await], so
    all of them wait to read, in the order they were issued. *)
Definition queued (s : engine) (calls : list call) : system :=
  {| eng := s; queue := seq 0 (length calls);
     tasks := (λ c, {| args := c; at_ := AwaitReadLock |}) <$> calls |}.

(** The first [k] calls issued, the others not yet. *)
Definition issued (s : engine) (calls : list call) (k : nat) : system :=
  {| eng := s; queue := seq 0 k;
     tasks := ((λ c, {| args := c; at_ := AwaitReadLock |}) <$> take k calls)
              ++ ((λ c, {| args := c; at_ := Called |}) <$> drop k calls) |}.

Definition is_waiting (p : phase) : Prop :=
  match p with
  | AwaitReadLock | AwaitWriteLock _ _ => True
  | _ => False
  end.

(** The queue of the mutex holds the calls that wait for it, each once,
    and no other. *)
Definition queue_exact (σ : system) : Prop :=
  NoDup (queue σ)
  ∧ ∀ i, i ∈ queue σ ↔ ∃ p, phase_at σ i = Some p ∧ is_waiting p.

Section Racing.
Variable db0 : database.
Variable calls : list call.

(** What call [c] makes of the snapshot [db0]. *)
Definition writes (c : call) (db' : database) (r : insert_result) : Prop :=
  insert_step (collectionName c) (as_array (documents c)) (timestamp c)
    (_generateId c) db0 = Ok (db', r).

Definition phase_ok (c : call) (p : phase) : Prop :=
  match p with
  | Called => False
  | AwaitReadLock => True
  | HaveSnapshot db => db = db0
  | AwaitWriteLock db' r => writes c db' r
  | Finished res => ∃ db' r, res = Ok r ∧ writes c db' r
  end.

Definition waits_to_read (σ : system) (i : nat) : Prop :=
  phase_at σ i = Some AwaitReadLock.

Definition waits_to_write (σ : system) (i : nat) : Prop :=
  ∃ db' r, phase_at σ i = Some (AwaitWriteLock db' r).

Definition has_returned (σ : system) (i : nat) : Prop :=
  ∃ res, phase_at σ i = Some (Finished res).

(** What holds of every state the calls can reach from [queued]: the
    readers stand in the queue before the writers, every snapshot is
    [db0], and the file holds [db0] until the first write, after which no
    call is left to read and the file holds what one call made of [db0]. *)
Record racing (σ : system) : Prop := {
  race_calls : args <$> tasks σ = calls;
  race_initialized : initialized (eng σ) = true;
  race_writable : writable (eng σ) = true;
  race_phases : Forall (λ t, phase_ok (args t) (at_ t)) (tasks σ);
  race_queue :
    ∃ readers writers,
      queue σ = readers ++ writers
      ∧ NoDup (readers ++ writers)
      ∧ Forall (waits_to_read σ) readers
      ∧ Forall (waits_to_write σ) writers
      ∧ ∀ i, waits_to_read σ i → i ∈ readers;
  race_disk :
    (disk (eng σ) = Stored db0 ∧ ∀ i, ¬ has_returned σ i)
    ∨ ((∀ i, ¬ waits_to_read σ i)
       ∧ ∃ c db' r,
           c ∈ calls ∧ writes c db' r ∧ disk (eng σ) = Stored (json_db db'))
}.

End Racing.

End Interleaving.

(** * Properties *)

(** ** Reading a member *)

Lemma inherited_spec (key : string) :
  inherited key = true ↔ key ∈ Object_prototype.
Proof. unfold inherited. apply bool_decide_eq_true. Qed.

Lemma get_own (d : doc) (key : string) (v : value) :
  d !! key = Some v → get d key = v.
Proof. intros E. unfold get. by rewrite E. Qed.

Lemma get_missing (d : doc) (key : string) :
  d !! key = None → inherited key = false → get d key = VUndefined.
Proof. intros E Hi. unfold get. by rewrite E, Hi. Qed.

Lemma get_inherited (d : doc) (key : string) :
  d !! key = None → inherited key = true → get d key = Builtin key.
Proof. intros E Hi. unfold get. by rewrite E, Hi. Qed.

Lemma get_id (d : doc) : get d "_id" = _id d.
Proof. unfold get, _id. by destruct (d !! "_id"). Qed.

(** Two documents that hold the same under [key], or both nothing, read
    the same. *)
Lemma get_ext (d d' : doc) (key : string) :
  d !! key = d' !! key → get d key = get d' key.
Proof. intros E. unfold get. by rewrite E. Qed.

(** ** Facts about strict equality *)

Lemma strict_eq_true (x : operand) (y : value) :
  strict_eq x y = true ↔ primitive y ∧ x = y.
Proof.
  split.
  - destruct x as [x|name]; [|done].
    destruct x, y; simpl; try discriminate; intros H; split; try exact I.
    + reflexivity.
    + reflexivity.
    + apply Bool.eqb_prop in H. by subst.
    + apply Z.eqb_eq in H. by subst.
    + apply String.eqb_eq in H. by subst.
  - intros [Hp ->]. destruct y; simpl in *; try done.
    + by destruct b.
    + apply Z.eqb_refl.
    + apply String.eqb_refl.
Qed.

Lemma strict_eq_structured_r (x : operand) (y : value) :
  ¬ primitive y → strict_eq x y = false.
Proof.
  intros Hy. destruct (strict_eq x y) eqn:E; [|done].
  apply strict_eq_true in E as [? _]. contradiction.
Qed.

(** A built-in equals no value of the data model. *)
Lemma strict_eq_builtin (name : string) (y : value) :
  strict_eq (Builtin name) y = false.
Proof. done. Qed.

Lemma match_entries_Forall (d : doc) (entries : list (string * value)) :
  match_entries d entries = true ↔
  Forall (λ kv, primitive kv.2 ∧ get d kv.1 = kv.2) entries.
Proof.
  induction entries as [|[key v] rest IH]; simpl.
  - split; [constructor | done].
  - unfold strict_neq. destruct (strict_eq (get d key) v) eqn:E; simpl.
    + rewrite IH. apply strict_eq_true in E. split.
      * intros H. by constructor.
      * by inversion 1.
    + split; [done|]. inversion 1 as [|? ? Hhd _]; subst. simpl in Hhd.
      apply strict_eq_true in Hhd. congruence.
Qed.

Lemma _matchesQuery_empty (d : doc) : _matchesQuery d ∅ = true.
Proof. unfold _matchesQuery. by rewrite map_to_list_empty. Qed.

Lemma _matchesQuery_spec (d query : doc) :
  _matchesQuery d query = true ↔
  map_Forall (λ key (expected : value),
                primitive expected ∧ get d key = expected) query.
Proof.
  unfold _matchesQuery.
  destruct (length (map_to_list query) =? 0)%nat eqn:E.
  - apply Nat.eqb_eq, nil_length_inv, map_to_list_empty_iff in E. subst.
    split; [intros _; apply map_Forall_empty | done].
  - rewrite match_entries_Forall, map_Forall_to_list.
    apply Forall_iff. by intros [k v].
Qed.

(** A document of the file holds no member that is [undefined]. *)
Lemma json_doc_defined (d : doc) (key : string) :
  json_doc d = d → d !! key ≠ Some VUndefined.
Proof.
  intros Hp E. assert (H : json_doc d !! key = None).
  { unfold json_doc. by rewrite lookup_omap, E. }
  rewrite Hp in H. congruence.
Qed.

(** ** Query matcher *)

(** A structured filter value matches no document. *)
Lemma _matchesQuery_structured (d query : doc) (key : string) (expected : value) :
  query !! key = Some expected → ¬ primitive expected →
  _matchesQuery d query = false.
Proof.
  intros Hk Hs. destruct (_matchesQuery d query) eqn:E; [|done].
  apply _matchesQuery_spec in E. destruct (E _ _ Hk) as [? _]. contradiction.
Qed.

(** A filter on a name of [Object.prototype] matches no document that
    does not hold a member of that name itself. *)
Lemma _matchesQuery_inherited (d query : doc) (key : string) (expected : value) :
  query !! key = Some expected → d !! key = None → inherited key = true →
  _matchesQuery d query = false.
Proof.
  intros Hk Hd Hi. destruct (_matchesQuery d query) eqn:E; [|done].
  apply _matchesQuery_spec in E. destruct (E _ _ Hk) as [_ Hg].
  rewrite get_inherited in Hg by done. discriminate.
Qed.

(** C3, as stated, fails: a document whose [age] field holds the mapping
    [{"$gte": 25}] and a filter asking for that very mapping agree in type
    and value on every filter pair, yet the matcher answers false. *)
Lemma C3_structured_value_never_equal :
  let d : doc := {[ "age" := VObj {[ "$gte" := VNum 25 ]} ]} in
  let query : doc := {[ "age" := VObj {[ "$gte" := VNum 25 ]} ]} in
  ¬ (_matchesQuery d query = true ↔ query = ∅ ∨ same_type_and_value d query).
Proof.
  intros d query [_ Hback].
  assert (Hfalse : _matchesQuery d query = false).
  { apply (_matchesQuery_structured d query "age" (VObj {[ "$gte" := VNum 25 ]})).
    - apply lookup_singleton_eq.
    - simpl. tauto. }
  rewrite Hback in Hfalse; [discriminate|].
  right. unfold same_type_and_value, query, d.
  apply map_Forall_singleton. unfold get. by rewrite lookup_singleton_eq.
Qed.

(** C3 (amended): on a document read from the file, the matcher answers
    true exactly when the filter is empty or every filter pair holds a
    primitive expected value (undefined, null, a boolean, a number or a
    string) that is what reading the field from the document yields, type
    and value alike.  Reading a field that the document holds yields its
    value, which is never undefined; reading one that it does not hold
    yields undefined, unless the name is one of [Object.prototype]
    ([constructor], [toString], ...): then it yields the inherited
    built-in, which no filter value equals, so that the matcher answers
    false.  A filter pair holding an array or a nested mapping makes the
    matcher answer false, whatever the document: it is compared by
    reference, never read as an operator. *)
Theorem C3_matcher_is_primitive_equality (d query : doc) :
  json_doc d = d →
  (_matchesQuery d query = true ↔
     query = ∅ ∨
     map_Forall (λ key (expected : value),
                   primitive expected ∧ get d key = expected) query)
  ∧ (∀ key expected,
       query !! key = Some expected → ¬ primitive expected →
       _matchesQuery d query = false)
  ∧ (∀ key (v : value), d !! key = Some v → get d key = v ∧ v ≠ VUndefined)
  ∧ (∀ key, d !! key = None → inherited key = false → get d key = VUndefined)
  ∧ (∀ key expected,
       query !! key = Some expected → d !! key = None → inherited key = true →
       _matchesQuery d query = false).
Proof.
  intros Hp. split; [|split; [|split; [|split]]].
  - rewrite _matchesQuery_spec. split; [by right|].
    intros [->|Hall]; [apply map_Forall_empty | done].
  - intros key expected. apply _matchesQuery_structured.
  - intros key v Hk. split; [by apply get_own|].
    intros ->. by apply (json_doc_defined d key).
  - intros key. apply get_missing.
  - intros key expected. apply _matchesQuery_inherited.
Qed.

Lemma C3_matcher_is_primitive_equality_witness :
  let d : doc := {[ "name" := VStr "Kofi"; "age" := VNum 30 ]} in
  json_doc d = d
  ∧ (_matchesQuery d {[ "age" := VNum 30 ]} = true ↔
       ({[ "age" := VNum 30 ]} : doc) = ∅ ∨
       map_Forall (λ key (expected : value),
                     primitive expected ∧ get d key = expected)
         ({[ "age" := VNum 30 ]} : doc))
  ∧ _matchesQuery d {[ "toString" := VUndefined ]} = false.
Proof.
  intros d.
  assert (Hp : json_doc d = d) by (vm_compute; reflexivity).
  split; [exact Hp|]. split.
  - exact (proj1 (C3_matcher_is_primitive_equality d {[ "age" := VNum 30 ]} Hp)).
  - apply (proj2 (proj2 (proj2 (proj2
      (C3_matcher_is_primitive_equality d {[ "toString" := VUndefined ]} Hp))))
      "toString" VUndefined); reflexivity.
Defined.

(** No coercion: the filter [{age: 30}] takes the number and leaves the
    string ["30"]; the operator-looking [{age: {"$gte": 25}}] takes
    neither; a missing field reads as undefined, except under a name of
    [Object.prototype]. *)
Example filter_equality_semantics :
  let kofi : doc := {[ "name" := VStr "Kofi"; "age" := VNum 30 ]} in
  let jane : doc := {[ "name" := VStr "Jane"; "age" := VStr "30" ]} in
  _matchesQuery kofi {[ "age" := VNum 30 ]} = true
  ∧ _matchesQuery jane {[ "age" := VNum 30 ]} = false
  ∧ _matchesQuery kofi {[ "age" := VObj {[ "$gte" := VNum 25 ]} ]} = false
  ∧ _matchesQuery kofi {[ "nickname" := VUndefined ]} = true
  ∧ _matchesQuery kofi {[ "constructor" := VUndefined ]} = false.
Proof. vm_compute. done. Qed.

(** ** The persisted form is stable *)

Lemma value_size_item (items : list value) (x : value) :
  x ∈ items → (value_size x < value_size (VArr items))%nat.
Proof. induction 1; simpl in *; lia. Qed.

Lemma value_size_field (fields : doc) (key : string) (x : value) :
  fields !! key = Some x → (value_size x < value_size (VObj fields))%nat.
Proof.
  intros Hk. simpl. rewrite <- (insert_delete_id fields key x Hk).
  rewrite map_fold_insert_L.
  - lia.
  - intros. lia.
  - apply lookup_delete_eq.
Qed.

(** Induction on values, through arrays and mappings. *)
Lemma value_nested_ind (P : value → Prop) :
  P VUndefined → P VNull → (∀ b, P (VBool b)) → (∀ n, P (VNum n)) →
  (∀ s, P (VStr s)) →
  (∀ items, Forall P items → P (VArr items)) →
  (∀ fields, map_Forall (λ _, P) fields → P (VObj fields)) →
  ∀ v, P v.
Proof.
  intros Hu Hn Hb Hz Hs Harr Hobj v.
  remember (value_size v) as n eqn:E. revert v E.
  induction n as [n IH] using lt_wf_ind. intros v ->.
  destruct v as [| | | | |items|fields]; auto.
  - apply Harr, Forall_forall. intros x Hx.
    eapply IH; [|done]. by apply value_size_item.
  - apply Hobj. intros key x Hk.
    eapply IH; [|done]. by eapply value_size_field.
Qed.

Lemma json_member_roundtrip (x : value) :
  json_roundtrip (json_roundtrip x) = json_roundtrip x →
  json_member x ≫= json_member = json_member x.
Proof.
  intros IH. destruct x; simpl in *; try done; by rewrite IH.
Qed.

Lemma json_roundtrip_idempotent (v : value) :
  json_roundtrip (json_roundtrip v) = json_roundtrip v.
Proof.
  induction v as [| | | | |items IH|fields IH] using value_nested_ind; try done.
  - simpl. f_equal. rewrite map_map. apply map_ext_Forall.
    eapply Forall_impl; [exact IH|]. intros x Hx.
    destruct x; simpl in *; try done; by rewrite Hx.
  - simpl. f_equal. apply map_eq. intros key. rewrite !lookup_omap.
    destruct (fields !! key) as [x|] eqn:Hk; simpl; [|done].
    apply (json_member_roundtrip x), (IH key x Hk).
Qed.

Lemma json_doc_idempotent (d : doc) : json_doc (json_doc d) = json_doc d.
Proof.
  unfold json_doc. apply map_eq. intros key. rewrite !lookup_omap.
  destruct (d !! key) as [x|]; simpl; [|done].
  apply json_member_roundtrip, json_roundtrip_idempotent.
Qed.

Lemma json_db_idempotent (db : database) : json_db (json_db db) = json_db db.
Proof.
  unfold json_db. rewrite <- map_fmap_compose. apply map_fmap_ext.
  intros name coll _. simpl. rewrite map_map. apply map_ext.
  apply json_doc_idempotent.
Qed.

(** ** Running the operations *)

Import JSONDatabase.

Ltac run_engine :=
  unfold createCollection, dropCollection, insert, findOne, count, find,
    getStats, update, delete, rethrow, bind, ret, throw, _readDatabase,
    _writeDatabase, write_locked, read_locked in *.

Lemma _readDatabase_uninitialized (s : engine) :
  initialized s = false →
  _readDatabase s = (Throw (DatabaseError NOT_INITIALIZED), s).
Proof. intros E. unfold _readDatabase. by rewrite E. Qed.

Lemma _readDatabase_stored (s : engine) (db : database) :
  initialized s = true → disk s = Stored db → _readDatabase s = (Ok db, s).
Proof. intros E D. unfold _readDatabase, read_locked. by rewrite E, D. Qed.

(** The states in which the engine is not initialised: as constructed,
    after [close], and after an [init] that threw. *)
Lemma uninitialized_states (s : engine) (f : file) (w : bool) :
  initialized (constructor f w) = false
  ∧ initialized (close s).2 = false
  ∧ (∀ e, (init s).1 = Throw e → (init s).2 = s).
Proof.
  split; [done|]. split; [done|].
  intros e. unfold init. destruct (disk s); [destruct (writable s)| |]; simpl;
    congruence.
Qed.

(** X25: every operation leaves in the file something a parse can
    produce. *)
Lemma operations_keep_parsed (s : engine) :
  parsed s →
  parsed (init s).2
  ∧ parsed (close s).2
  ∧ (∀ name, parsed (createCollection name s).2)
  ∧ (∀ name, parsed (dropCollection name s).2)
  ∧ (∀ name documents timestamp gen,
       parsed (insert name documents timestamp gen s).2)
  ∧ (∀ name query patch options timestamp,
       parsed (update name query patch options timestamp s).2)
  ∧ (∀ name query options, parsed (delete name query options s).2).
Proof.
  intros Hs.
  assert (Hw : ∀ data, parsed (write_locked data s).2).
  { intros data. unfold write_locked, parsed. destruct (writable s); simpl.
    - apply json_db_idempotent.
    - exact Hs. }
  unfold write_locked in Hw.
  repeat split; intros.
  - unfold init, parsed in *. destruct (disk s) eqn:E; simpl; rewrite ?E; try done.
    destruct (writable s); simpl; rewrite ?E; done.
  - done.
  - run_engine. destruct name; try done. destruct (blank s0); [done|].
    destruct (initialized s) eqn:Ei; simpl; [|done].
    destruct (disk s) as [| |db] eqn:E; simpl; try done.
    destruct (db !! s0); [done|]. destruct (inherited s0); [done|].
    specialize (Hw (<[s0:=[]]> db)).
    rewrite ?Ei; simpl. by destruct (writable s).
  - run_engine. destruct (initialized s) eqn:Ei; simpl; [|done].
    destruct (disk s) as [| |db] eqn:E; simpl; try done.
    specialize (Hw (base.delete name db)).
    destruct (db !! name); [|destruct (inherited name); [|done]];
      rewrite ?Ei; simpl; by destruct (writable s).
  - run_engine. destruct (length (as_array documents) =? 0)%nat; [done|].
    destruct (initialized s) eqn:Ei; simpl; [|done].
    destruct (disk s) as [| |db] eqn:E; simpl; try done.
    destruct (insert_step name (as_array documents) timestamp gen db)
      as [[db' r]|e]; [|by destruct e].
    specialize (Hw db'). rewrite ?Ei; simpl. by destruct (writable s).
  - run_engine. destruct (initialized s) eqn:Ei; simpl; [|done].
    destruct (disk s) as [| |db] eqn:E; simpl; try done.
    destruct (db !! name) as [coll|]; [|by destruct (inherited name)].
    destruct (update_map query patch options timestamp coll 0) as [coll' n].
    destruct ((n =? 0)%nat && negb (upsert options)); [done|].
    specialize (Hw (<[name:=coll']> db)). rewrite ?Ei; simpl. by destruct (writable s).
  - run_engine. destruct (initialized s) eqn:Ei; simpl; [|done].
    destruct (disk s) as [| |db] eqn:E; simpl; try done.
    destruct (db !! name) as [coll|]; [|by destruct (inherited name)].
    match goal with |- context [if ?b then _ else _] => destruct b end; [done|].
    match goal with |- context [json_db ?d] => specialize (Hw d) end.
    rewrite ?Ei; simpl. by destruct (writable s).
Qed.

(** ** Lifecycle guard *)

(** C9, as stated, fails: on an engine that was never initialised,
    [createCollection] with an empty or non-string name and [insert] with an
    empty array are turned down for their argument, with [INVALID_INPUT],
    before the initialised flag is looked at. *)
Lemma C9_invalid_input_comes_first :
  let s := constructor (Stored ∅) true in
  initialized s = false
  ∧ (createCollection (VStr "") s).1 = Throw (DatabaseError INVALID_INPUT)
  ∧ (createCollection (VNum 7) s).1 = Throw (DatabaseError INVALID_INPUT)
  ∧ (insert "users" (Many []) "2024-01-01T00:00:00.000Z" (λ _, "id") s).1
    = Throw (DatabaseError INVALID_INPUT)
  ∧ (createCollection (VStr "") s).1 ≠ Throw (DatabaseError NOT_INITIALIZED).
Proof. vm_compute. repeat split; congruence. Qed.

(** C9 (amended): while the engine is not initialised, [dropCollection],
    [find], [findOne], [count], [update], [delete] and [getStats] fail with
    [NOT_INITIALIZED] for every argument, and so do [createCollection] when
    its name is a non-blank string and [insert] when it is given at least
    one document; nothing is written. *)
Theorem C9_not_initialized `{Runtime} (s : engine) :
  initialized s = false →
  let refused {A} (r : outcome A * engine) :=
    r = (Throw (DatabaseError NOT_INITIALIZED), s) in
  (∀ name, blank name = false → refused (createCollection (VStr name) s))
  ∧ (∀ name, refused (dropCollection name s))
  ∧ (∀ name documents timestamp gen,
       as_array documents ≠ [] → refused (insert name documents timestamp gen s))
  ∧ (∀ name query options, refused (find name query options s))
  ∧ (∀ name query, refused (findOne name query s))
  ∧ (∀ name query, refused (count name query s))
  ∧ (∀ name query patch options timestamp,
       refused (update name query patch options timestamp s))
  ∧ (∀ name query options, refused (delete name query options s))
  ∧ refused (getStats s).
Proof.
  intros E refused. unfold refused.
  repeat split; intros; run_engine; rewrite ?E; simpl; try done.
  - match goal with Hb : blank _ = false |- _ => rewrite Hb end.
    by rewrite E.
  - destruct (as_array documents) eqn:D; [done|]. simpl. by rewrite E.
Qed.

Lemma C9_not_initialized_witness :
  let s := (close (Engine true (Stored {[ "users" := [] ]}) true)).2 in
  initialized s = false
  ∧ find "users" ∅ no_options s = (Throw (DatabaseError NOT_INITIALIZED), s).
Proof.
  intros s. split; [reflexivity|].
  exact (proj1 (proj2 (proj2 (proj2
    (C9_not_initialized s eq_refl)))) "users" ∅ no_options).
Defined.

(** ** Read-only operations *)

(** C10: [find], [findOne], [count] and [getStats] leave the engine, and
    with it the persisted database, exactly as they found it, whether they
    return or throw. *)
Theorem C10_reads_do_not_write `{Runtime} (s : engine) :
  (∀ name query options, (find name query options s).2 = s)
  ∧ (∀ name query, (findOne name query s).2 = s)
  ∧ (∀ name query, (count name query s).2 = s)
  ∧ (getStats s).2 = s.
Proof.
  assert (Hfind : ∀ name query options, (find name query options s).2 = s).
  { intros. run_engine. destruct (initialized s); simpl; [|done].
    destruct (disk s) as [| |db]; simpl; try done.
    destruct (find_step name query options db) as [r|[c| |]]; done. }
  repeat split; intros.
  - apply Hfind.
  - specialize (Hfind name query {| sort := None; skip := None; limit := Some 1 |}).
    unfold findOne, rethrow, bind, ret.
    destruct (find name query _ s) as [[r|[c| |]] s']; simpl in *; done.
  - specialize (Hfind name query no_options). unfold count, bind, ret.
    destruct (find name query no_options s) as [[r|e] s']; simpl in *; done.
  - run_engine. destruct (initialized s); simpl; [|done].
    destruct (disk s); done.
Qed.

(** ** Delete *)

Lemma filter_split_length {A} (p : A → bool) (l : list A) :
  length l = (length (List.filter p l)
              + length (List.filter (λ x, negb (p x)) l))%nat.
Proof.
  induction l as [|x l IH]; simpl; [done|].
  destruct (p x); simpl; lia.
Qed.

Lemma filter_none {A} (p : A → bool) (l : list A) :
  Forall (λ x, p x = false) l → List.filter p l = [].
Proof.
  induction 1 as [|x l Hx _ IH]; simpl; [done|]. by rewrite Hx.
Qed.

Lemma filter_negb_all {A} (p : A → bool) (l : list A) :
  Forall (λ x, p x = false) l → List.filter (λ x, negb (p x)) l = l.
Proof.
  induction 1 as [|x l Hx _ IH]; simpl; [done|]. rewrite Hx. simpl. by f_equal.
Qed.

(** The count [delete] computes is the number of matching documents. *)
Lemma deletedCount_matches (query : doc) (coll : list doc) :
  (length coll
   - length (List.filter (λ d, negb (_matchesQuery d query)) coll))%nat
  = length (List.filter (λ d, _matchesQuery d query) coll).
Proof. rewrite (filter_split_length (λ d, _matchesQuery d query) coll). lia. Qed.

(** C7: on an existing collection [delete] keeps exactly the documents
    that do not match, in their order, whatever [options.multi] says; it
    throws [DOCUMENT_NOT_FOUND] without writing when no document matches,
    and otherwise returns the number of matching documents, all of them
    removed. *)
Theorem C7_delete_removes_every_match (s : engine) (db : database)
    (name : string) (coll : list doc) (query : doc) (options : delete_options) :
  initialized s = true → disk s = Stored db → db !! name = Some coll →
  let kept := List.filter (λ d, negb (_matchesQuery d query)) coll in
  let removed := length (List.filter (λ d, _matchesQuery d query) coll) in
  (removed = 0%nat →
     delete name query options s = (Throw (DatabaseError DOCUMENT_NOT_FOUND), s))
  ∧ (removed ≠ 0%nat → writable s = true →
     delete name query options s
     = (Ok removed,
        {| initialized := true; disk := Stored (json_db (<[name := kept]> db));
           writable := true |}))
  ∧ Forall (λ d, _matchesQuery d query = false) kept
  ∧ delete name query {| delete_multi := true |} s
    = delete name query {| delete_multi := false |} s.
Proof.
  intros Hi Hd Hc kept removed.
  pose proof (deletedCount_matches query coll) as Hn. fold kept removed in Hn.
  repeat split.
  - intros H0. run_engine. rewrite Hi, Hd. simpl. rewrite Hc. fold kept.
    rewrite Hn, H0. done.
  - intros Hne Hw. run_engine. rewrite Hi, Hd. simpl. rewrite Hc. fold kept.
    rewrite Hn. destruct (Nat.eqb_spec removed 0) as [|_]; [done|].
    rewrite Hi, Hw. done.
  - apply Forall_forall. intros d Hin.
    apply list_elem_of_In, filter_In in Hin as [_ Hm].
    by apply negb_true_iff in Hm.
Qed.

Lemma C7_delete_removes_every_match_witness :
  let ann : doc := {[ "name" := VStr "Ann"; "team" := VStr "red" ]} in
  let bob : doc := {[ "name" := VStr "Bob"; "team" := VStr "blue" ]} in
  let cyd : doc := {[ "name" := VStr "Cyd"; "team" := VStr "red" ]} in
  let s := Engine true (Stored {[ "users" := [ann; bob; cyd] ]}) true in
  delete "users" {[ "team" := VStr "red" ]} {| delete_multi := false |} s
  = (Ok 2%nat, Engine true (Stored {[ "users" := [bob] ]}) true).
Proof.
  intros ann bob cyd s.
  pose proof (C7_delete_removes_every_match s {[ "users" := [ann; bob; cyd] ]}
    "users" [ann; bob; cyd] {[ "team" := VStr "red" ]}
    {| delete_multi := false |} eq_refl eq_refl eq_refl) as (_ & Hdel & _).
  rewrite Hdel; [| vm_compute; congruence | reflexivity].
  vm_compute. reflexivity.
Defined.

(** ** Not-found semantics *)

Lemma update_map_no_match (query patch : doc) (options : update_options)
    (timestamp : string) (coll : list doc) (n : nat) :
  Forall (λ d, _matchesQuery d query = false) coll →
  update_map query patch options timestamp coll n = (coll, n).
Proof.
  induction 1 as [|d coll Hd _ IH]; simpl; [done|]. by rewrite Hd, IH.
Qed.

(** C8: when no document of an existing collection matches, [update]
    without [upsert] and [delete] throw [DOCUMENT_NOT_FOUND] and leave the
    engine and its file untouched; [update] with [upsert] returns counts of
    zero and writes the database back as read, so the collection holds the
    documents it held and no new one. *)
Theorem C8_no_match (s : engine) (db : database) (name : string)
    (coll : list doc) (query patch : doc) (options : update_options)
    (doptions : delete_options) (timestamp : string) :
  initialized s = true → disk s = Stored db → db !! name = Some coll →
  Forall (λ d, _matchesQuery d query = false) coll →
  (upsert options = false →
     update name query patch options timestamp s
     = (Throw (DatabaseError DOCUMENT_NOT_FOUND), s))
  ∧ delete name query doptions s = (Throw (DatabaseError DOCUMENT_NOT_FOUND), s)
  ∧ (upsert options = true → writable s = true →
     update name query patch options timestamp s
     = (Ok {| matchedCount := 0; modifiedCount := 0 |},
        {| initialized := true; disk := Stored (json_db db); writable := true |})
     ∧ json_db db !! name = Some (map json_doc coll)
     ∧ (json_db db = db →
        (update name query patch options timestamp s).2 = s)).
Proof.
  intros Hi Hd Hc Hnone.
  assert (Hup : ∀ s', upsert options = true → writable s = true →
    s' = {| initialized := true; disk := Stored (json_db db); writable := true |} →
    update name query patch options timestamp s
    = (Ok {| matchedCount := 0; modifiedCount := 0 |}, s')).
  { intros s' Hu Hw ->. run_engine. rewrite Hi, Hd. simpl. rewrite Hc.
    rewrite update_map_no_match by done. simpl. rewrite Hu. simpl.
    rewrite Hi, Hw. by rewrite insert_id. }
  split; [|split].
  - intros Hu. run_engine. rewrite Hi, Hd. simpl. rewrite Hc.
    rewrite update_map_no_match by done. simpl. by rewrite Hu.
  - run_engine. rewrite Hi, Hd. simpl. rewrite Hc.
    rewrite filter_negb_all by done. by rewrite Nat.sub_diag.
  - intros Hu Hw. split; [by apply Hup|]. split.
    + unfold json_db. by rewrite lookup_fmap, Hc.
    + intros Hclean. rewrite (Hup _ Hu Hw eq_refl). simpl. rewrite Hclean.
      destruct s; simpl in *; congruence.
Qed.

Lemma C8_no_match_witness :
  let ann : doc := {[ "name" := VStr "Ann" ]} in
  let s := Engine true (Stored {[ "users" := [ann] ]}) true in
  update "users" {[ "name" := VStr "Zed" ]} {[ "age" := VNum 1 ]}
    {| multi := false; upsert := false |} "2024-01-01T00:00:00.000Z" s
  = (Throw (DatabaseError DOCUMENT_NOT_FOUND), s).
Proof.
  intros ann s.
  refine (proj1 (C8_no_match s {[ "users" := [ann] ]} "users" [ann]
    {[ "name" := VStr "Zed" ]} {[ "age" := VNum 1 ]}
    {| multi := false; upsert := false |} {| delete_multi := false |}
    "2024-01-01T00:00:00.000Z" eq_refl eq_refl eq_refl _) eq_refl).
  repeat constructor.
Defined.

(** ** Pagination *)

Lemma window_lookup {A} (skip limit : Z) (l : list A) (i : nat) :
  window skip limit l !! i
  = if decide (i < Z.to_nat limit)%nat then l !! (Z.to_nat skip + i)%nat
    else None.
Proof.
  unfold window. case_decide.
  - rewrite lookup_take_lt by done. apply lookup_drop.
  - apply lookup_take_ge. lia.
Qed.

Lemma slice_window {A} (l : list A) (skip limit : Z) :
  0 ≤ skip → 0 ≤ limit → slice l skip (skip + limit) = window skip limit l.
Proof.
  intros Hs Hl. unfold slice, window, relative_index.
  destruct (Z.ltb_spec skip 0) as [|_]; [lia|].
  destruct (Z.ltb_spec (skip + limit) 0) as [|_]; [lia|].
  set (len := Z.of_nat (length l)).
  destruct (Z.le_gt_cases skip len) as [Hin|Hout].
  - rewrite (Z.min_l skip len) by done.
    destruct (Z.le_gt_cases (skip + limit) len) as [Hfit|Hclip].
    + rewrite Z.min_l by done. f_equal. lia.
    + rewrite Z.min_r by lia.
      rewrite !take_ge; [done| |]; rewrite length_drop; lia.
  - rewrite (Z.min_r skip len), Z.min_r by lia.
    rewrite !drop_ge by lia. by rewrite !take_nil.
Qed.

Lemma filter_empty_query (coll : list doc) :
  List.filter (λ d, _matchesQuery d ∅) coll = coll.
Proof.
  induction coll as [|d coll IH]; simpl; [done|].
  by rewrite _matchesQuery_empty, IH.
Qed.

Lemma find_stored `{Runtime} (s : engine) (db : database) (name : string)
    (query : doc) (options : find_options) :
  initialized s = true → disk s = Stored db →
  find name query options s
  = (match find_step name query options db with
     | Ok r => Ok r
     | Throw e => Throw (caught FIND_ERROR e)
     end, s).
Proof.
  intros Hi Hd. run_engine. rewrite Hi, Hd. simpl.
  by destruct (find_step name query options db) as [r|e].
Qed.

(** C4, as stated, fails: with [skip] alone the whole result comes back,
    its position 0 included, and with a [limit] of zero too, where the
    window of the specification is empty. *)
Lemma C4_skip_needs_limit :
  let a : doc := {[ "n" := VNum 0 ]} in
  let b : doc := {[ "n" := VNum 1 ]} in
  let s := Engine true (Stored {[ "items" := [a; b] ]}) true in
  let skip_only := {| sort := None; skip := Some 1; limit := None |} in
  let limit_zero := {| sort := None; skip := None; limit := Some 0 |} in
  find "items" ∅ skip_only s = (Ok {| data := [a; b]; count_ := 2 |}, s)
  ∧ paginate_as_specified skip_only [a; b] = [b]
  ∧ [a; b] ≠ paginate_as_specified skip_only [a; b]
  ∧ find "items" ∅ limit_zero s = (Ok {| data := [a; b]; count_ := 2 |}, s)
  ∧ paginate_as_specified limit_zero [a; b] = []
  ∧ [a; b] ≠ paginate_as_specified limit_zero [a; b].
Proof. vm_compute. repeat split; congruence. Qed.

(** C4 (amended): when [options.limit] is present and positive, and
    [options.skip] is absent or not negative, [find] returns the window
    [[skip, skip + limit)] of the filtered and possibly sorted result,
    clipped to its length, [skip] defaulting to 0; when [options.limit] is
    absent the result is not paginated and [options.skip] is ignored; a
    sort that the comparator ends with a throw makes [find] fail with
    [FIND_ERROR]; on a collection of five documents [{skip: 1, limit: 2}]
    without sort returns the documents at positions 1 and 2, in their
    order. *)
Theorem C4_pagination `{Runtime} (s : engine) (db : database) (name : string)
    (coll : list doc) (query : doc) (options : find_options) :
  initialized s = true → disk s = Stored db → db !! name = Some coll →
  let matching := List.filter (λ d, _matchesQuery d query) coll in
  let sorted := match sort options with
                | Some sp => _sortDocuments matching sp
                | None => Some matching
                end in
  (∀ ordered, sorted = Some ordered →
     (∀ l, limit options = Some l → 0 < l → 0 ≤ default 0 (skip options) →
        let page := window (default 0 (skip options)) l ordered in
        find name query options s
        = (Ok {| data := page; count_ := length page |}, s)
        ∧ ∀ i : nat, page !! i
            = if decide (i < Z.to_nat l)%nat
              then ordered !! (Z.to_nat (default 0%Z (skip options)) + i)%nat
              else None)
     ∧ (limit options = None →
        find name query options s
        = (Ok {| data := ordered; count_ := length ordered |}, s)))
  ∧ (sorted = None →
     find name query options s = (Throw (DatabaseError FIND_ERROR), s))
  ∧ (∀ d0 d1 d2 d3 d4, coll = [d0; d1; d2; d3; d4] →
     find name ∅ {| sort := None; skip := Some 1; limit := Some 2 |} s
     = (Ok {| data := [d1; d2]; count_ := 2 |}, s)).
Proof.
  intros Hi Hd Hc matching sorted. split; [|split].
  - intros ordered Hsorted. split.
    + intros l Hl Hpos Hskip page. split; [|intros i; apply window_lookup].
      rewrite (find_stored s db) by done. unfold find_step. rewrite Hc.
      fold matching. fold sorted. rewrite Hsorted. unfold paginate. rewrite Hl.
      destruct (Z.eqb_spec l 0) as [|_]; [lia|].
      rewrite slice_window by lia. done.
    + intros Hl. rewrite (find_stored s db) by done. unfold find_step.
      rewrite Hc. fold matching. fold sorted. rewrite Hsorted.
      unfold paginate. by rewrite Hl.
  - intros Hsorted. rewrite (find_stored s db) by done. unfold find_step.
    rewrite Hc. fold matching. fold sorted. by rewrite Hsorted.
  - intros d0 d1 d2 d3 d4 ->. rewrite (find_stored s db) by done.
    unfold find_step. rewrite Hc, filter_empty_query. done.
Qed.

Lemma C4_pagination_witness :
  let d (n : Z) : doc := {[ "n" := VNum n ]} in
  let s := Engine true (Stored {[ "items" := [d 0; d 1; d 2; d 3; d 4] ]}) true in
  find "items" ∅ {| sort := None; skip := Some 1; limit := Some 2 |} s
  = (Ok {| data := [d 1; d 2]; count_ := 2 |}, s).
Proof.
  intros d s.
  exact (proj2 (proj2 (C4_pagination s {[ "items" := [d 0; d 1; d 2; d 3; d 4] ]}
    "items" [d 0; d 1; d 2; d 3; d 4] ∅
    {| sort := None; skip := Some 1; limit := Some 2 |}
    eq_refl eq_refl eq_refl)) (d 0) (d 1) (d 2) (d 3) (d 4) eq_refl).
Defined.

(** ** Update *)

Lemma updatedDoc_id (patch : doc) (timestamp : string) (d : doc) :
  get (updatedDoc patch timestamp d) "_id" = get d "_id".
Proof.
  rewrite (get_id d). apply get_own. unfold updatedDoc.
  by rewrite lookup_insert_eq.
Qed.

Lemma updatedDoc_updatedAt (patch : doc) (timestamp : string) (d : doc) :
  get (updatedDoc patch timestamp d) "_updatedAt" = VStr timestamp.
Proof.
  apply get_own. unfold updatedDoc.
  rewrite lookup_insert_ne by done. by rewrite lookup_insert_eq.
Qed.

Lemma updatedDoc_other (patch : doc) (timestamp : string) (d : doc) (key : string) :
  key ≠ "_id" → key ≠ "_updatedAt" →
  get (updatedDoc patch timestamp d) key
  = match patch !! key with
    | Some v => Data v
    | None => get d key
    end.
Proof.
  intros H1 H2. unfold updatedDoc, get.
  rewrite !lookup_insert_ne by done. rewrite lookup_union.
  destruct (patch !! key), (d !! key); done.
Qed.

Lemma update_map_multi (query patch : doc) (options : update_options)
    (timestamp : string) (coll : list doc) (n : nat) :
  multi options = true →
  update_map query patch options timestamp coll n
  = (map (λ d, if _matchesQuery d query then updatedDoc patch timestamp d else d)
       coll,
     (n + length (List.filter (λ d, _matchesQuery d query) coll))%nat).
Proof.
  intros Hm. revert n. induction coll as [|d coll IH]; intros n; simpl.
  - by rewrite Nat.add_0_r.
  - rewrite Hm. simpl. destruct (_matchesQuery d query); rewrite IH; simpl.
    + do 2 f_equal. lia.
    + done.
Qed.

Lemma update_map_single_done (query patch : doc) (options : update_options)
    (timestamp : string) (coll : list doc) (n : nat) :
  multi options = false → n ≠ 0%nat →
  update_map query patch options timestamp coll n = (coll, n).
Proof.
  intros Hm Hn. induction coll as [|d coll IH]; simpl; [done|].
  rewrite Hm, IH. simpl. destruct (Nat.eqb_spec n 0) as [|_]; [done|].
  by destruct (_matchesQuery d query).
Qed.

Lemma update_map_single_first (query patch : doc) (options : update_options)
    (timestamp : string) (before after : list doc) (d : doc) :
  multi options = false →
  Forall (λ x, _matchesQuery x query = false) before →
  _matchesQuery d query = true →
  update_map query patch options timestamp (before ++ d :: after) 0
  = (before ++ updatedDoc patch timestamp d :: after, 1%nat).
Proof.
  intros Hm Hb Hd. induction Hb as [|x before Hx _ IH]; simpl.
  - rewrite Hd, Hm. simpl. by rewrite update_map_single_done.
  - by rewrite Hx, IH.
Qed.

Lemma first_match {A} (p : A → bool) (l : list A) :
  List.filter p l ≠ [] →
  ∃ before x after,
    l = before ++ x :: after ∧ Forall (λ y, p y = false) before ∧ p x = true.
Proof.
  induction l as [|y l IH]; simpl; [done|].
  destruct (p y) eqn:E.
  - intros _. by exists [], y, l.
  - intros Hne. destruct (IH Hne) as (before & x & after & -> & Hb & Hx).
    exists (y :: before), x, after. split; [done|]. split; [|done].
    by constructor.
Qed.

(** C6: on an existing collection with at least one match, [update]
    returns equal matched and modified counts and persists the collection
    with the processed matches replaced: with [multi] every match, the
    count being their number; without it the first match only, everything
    before and after it left as it was, the count being 1.  A replaced
    document carries the patch merged over it (a field named in the patch
    takes the patch's value, any other field keeps its own), its own
    [_id], and the call's timestamp as [_updatedAt]. *)
Theorem C6_update_scoping (s : engine) (db : database) (name : string)
    (coll : list doc) (query patch : doc) (options : update_options)
    (timestamp : string) :
  initialized s = true → writable s = true → disk s = Stored db →
  db !! name = Some coll →
  let matches := List.filter (λ d, _matchesQuery d query) coll in
  let merged := updatedDoc patch timestamp in
  matches ≠ [] →
  ∃ (coll' : list doc) (n : nat),
    update name query patch options timestamp s
    = (Ok {| matchedCount := n; modifiedCount := n |},
       {| initialized := true; disk := Stored (json_db (<[name := coll']> db));
          writable := true |})
    ∧ (multi options = true →
       n = length matches
       ∧ coll' = map (λ d, if _matchesQuery d query then merged d else d) coll)
    ∧ (multi options = false →
       n = 1%nat
       ∧ ∃ before d after,
           coll = before ++ d :: after
           ∧ Forall (λ x, _matchesQuery x query = false) before
           ∧ _matchesQuery d query = true
           ∧ coll' = before ++ merged d :: after)
    ∧ (∀ d,
         get (merged d) "_id" = get d "_id"
         ∧ get (merged d) "_updatedAt" = VStr timestamp
         ∧ ∀ key, key ≠ "_id" → key ≠ "_updatedAt" →
             get (merged d) key = match patch !! key with
                                  | Some v => Data v
                                  | None => get d key
                                  end).
Proof.
  intros Hi Hw Hd Hc matches merged Hne.
  assert (Hrun : ∀ coll' n, n ≠ 0%nat →
    update_map query patch options timestamp coll 0 = (coll', n) →
    update name query patch options timestamp s
    = (Ok {| matchedCount := n; modifiedCount := n |},
       {| initialized := true; disk := Stored (json_db (<[name := coll']> db));
          writable := true |})).
  { intros coll' n Hn E. run_engine. rewrite Hi, Hd. simpl. rewrite Hc, E.
    destruct (Nat.eqb_spec n 0) as [|_]; [done|]. simpl. by rewrite Hi, Hw. }
  assert (Hmerged : ∀ d,
    get (merged d) "_id" = get d "_id"
    ∧ get (merged d) "_updatedAt" = VStr timestamp
    ∧ ∀ key, key ≠ "_id" → key ≠ "_updatedAt" →
        get (merged d) key = match patch !! key with
                             | Some v => Data v
                             | None => get d key
                             end).
  { intros d. split; [apply updatedDoc_id|]. split; [apply updatedDoc_updatedAt|].
    intros key. apply updatedDoc_other. }
  destruct (multi options) eqn:Hm.
  - eexists _, (length matches). split; [|split; [done|split; [done|done]]].
    apply Hrun; [by destruct matches|].
    by rewrite update_map_multi.
  - destruct (first_match _ _ Hne) as (before & d & after & Hsplit & Hb & Hx).
    exists (before ++ merged d :: after), 1%nat.
    split; [|split; [done|split; [|done]]].
    + apply Hrun; [done|]. rewrite Hsplit.
      by apply update_map_single_first.
    + intros _. split; [done|]. by exists before, d, after.
Qed.

Lemma C6_update_scoping_witness :
  let red (n : Z) : doc := {[ "team" := VStr "red"; "n" := VNum n; "_id" := VStr "x" ]} in
  let s := Engine true (Stored {[ "users" := [red 1; red 2; red 3] ]}) true in
  ∃ coll' n,
    update "users" {[ "team" := VStr "red" ]} {[ "n" := VNum 0; "_id" := VStr "y" ]}
      {| multi := false; upsert := false |} "2024-01-01T00:00:00.000Z" s
    = (Ok {| matchedCount := n; modifiedCount := n |},
       Engine true (Stored (json_db {[ "users" := coll' ]})) true)
    ∧ n = 1%nat.
Proof.
  intros red s.
  destruct (C6_update_scoping s {[ "users" := [red 1; red 2; red 3] ]} "users"
    [red 1; red 2; red 3] {[ "team" := VStr "red" ]}
    {[ "n" := VNum 0; "_id" := VStr "y" ]} {| multi := false; upsert := false |}
    "2024-01-01T00:00:00.000Z" eq_refl eq_refl eq_refl eq_refl)
    as (coll' & n & Hrun & _ & Hsingle & _).
  - vm_compute. congruence.
  - exists coll', n. split; [|by apply Hsingle].
    rewrite Hrun. by rewrite insert_singleton_eq.
Defined.

(** The scoping example of the specification: three matches, [multi:false]
    touches the first and reports 1, [multi:true] touches all and reports 3. *)
Example update_scoping_example :
  let red (n : Z) : doc := {[ "team" := VStr "red"; "n" := VNum n ]} in
  let s := Engine true (Stored {[ "users" := [red 1; red 2; red 3] ]}) true in
  let patch : doc := {[ "n" := VNum 0 ]} in
  let after (t : Z → Z) (n : Z) : doc :=
    {[ "team" := VStr "red"; "n" := VNum (t n) ]} in
  let stamped (d : doc) : doc := <["_updatedAt" := VStr "T"]> d in
  update "users" {[ "team" := VStr "red" ]} patch
    {| multi := false; upsert := false |} "T" s
  = (Ok {| matchedCount := 1; modifiedCount := 1 |},
     Engine true (Stored {[ "users" := [stamped (red 0); red 2; red 3] ]}) true)
  ∧ update "users" {[ "team" := VStr "red" ]} patch
      {| multi := true; upsert := false |} "T" s
    = (Ok {| matchedCount := 3; modifiedCount := 3 |},
       Engine true
         (Stored {[ "users" := [stamped (red 0); stamped (red 0); stamped (red 0)] ]})
         true).
Proof. vm_compute. done. Qed.

(** ** Sorting *)

Lemma string_compare_refl (s : string) : String.compare s s = Eq.
Proof.
  induction s as [|c s IH]; simpl; [done|].
  unfold Ascii.compare. by rewrite N.compare_refl.
Qed.

Lemma string_compare_lt_trans (s t u : string) :
  String.compare s t = Lt → String.compare t u = Lt → String.compare s u = Lt.
Proof.
  revert t u. induction s as [|a s IH]; intros [|b t] [|c u]; simpl; try done.
  destruct (Ascii.compare a b) eqn:Eab; try done;
    destruct (Ascii.compare b c) eqn:Ebc; try done.
  - apply Ascii.compare_eq_iff in Eab, Ebc. subst.
    unfold Ascii.compare. rewrite N.compare_refl. apply IH.
  - apply Ascii.compare_eq_iff in Eab. subst. by rewrite Ebc.
  - apply Ascii.compare_eq_iff in Ebc. subst. by rewrite Eab.
  - intros _ _. unfold Ascii.compare in *.
    apply N.compare_lt_iff in Eab. apply N.compare_lt_iff in Ebc.
    pose proof (N.lt_trans _ _ _ Eab Ebc) as Hac.
    apply N.compare_lt_iff in Hac. by rewrite Hac.
Qed.

Lemma string_ltb_asym (s t : string) :
  String.ltb s t = true → String.ltb t s = false.
Proof.
  unfold String.ltb. rewrite (String.compare_antisym t s).
  by destruct (String.compare s t).
Qed.

Lemma string_ltb_trans (s t u : string) :
  String.ltb s t = true → String.ltb t u = true → String.ltb s u = true.
Proof.
  unfold String.ltb.
  destruct (String.compare s t) eqn:E1; try done.
  destruct (String.compare t u) eqn:E2; try done.
  by rewrite (string_compare_lt_trans s t u).
Qed.

Lemma string_ltb_tie (s t : string) :
  String.ltb s t = false → String.ltb t s = false → s = t.
Proof.
  unfold String.ltb. rewrite (String.compare_antisym t s).
  destruct (String.compare s t) eqn:E; simpl; try done.
  intros _ _. by apply String.compare_eq_iff.
Qed.

Lemma string_ltb_irrefl (s : string) : String.ltb s s = false.
Proof. unfold String.ltb. by rewrite string_compare_refl. Qed.

Section Sorting.
Context `{Runtime}.




(** A comparison throws exactly when the conversion of an operand does. *)
Lemma js_lt_returns (x y : operand) :
  is_Some (js_lt x y) ↔ is_Some (ToPrimitive x) ∧ is_Some (ToPrimitive y).
Proof.
  unfold js_lt. split.
  - intros [r Hr].
    destruct (ToPrimitive x), (ToPrimitive y); simpl in Hr; try done; eauto.
  - intros [[p ->] [q ->]]. simpl. eauto.
Qed.


Lemma prim_lt_irrefl (p : prim) : prim_lt p p = false.
Proof.
  destruct p as [| |b|n|s]; simpl; try done.
  - apply Z.ltb_irrefl.
  - apply Z.ltb_irrefl.
  - apply string_ltb_irrefl.
Qed.

(** Nothing is below itself. *)
Lemma js_lt_irrefl (x : operand) :
  is_Some (ToPrimitive x) → js_lt x x = Some false.
Proof.
  intros [p Hp]. unfold js_lt. rewrite Hp. simpl. by rewrite prim_lt_irrefl.
Qed.

Lemma js_lt_as_number (x y : operand) (m n : Z) :
  as_number x = Some m → as_number y = Some n → js_lt x y = Some (m <? n)%Z.
Proof.
  unfold as_number, js_lt.
  destruct (ToPrimitive x) as [p|], (ToPrimitive y) as [q|]; simpl;
    try discriminate.
  destruct p, q; simpl; try discriminate; by intros [= <-] [= <-].
Qed.

Lemma js_lt_as_string (x y : operand) (s t : string) :
  as_string x = Some s → as_string y = Some t →
  js_lt x y = Some (String.ltb s t).
Proof.
  unfold as_string, js_lt.
  destruct (ToPrimitive x) as [p|], (ToPrimitive y) as [q|]; simpl;
    try discriminate.
  destruct p, q; simpl; try discriminate; by intros [= <-] [= <-].
Qed.

Lemma homogeneous_key_ordered (key : string) (docs : list doc) :
  homogeneous key docs → key_ordered (λ d, d ∈ docs) key.
Proof.
  intros [Hnum|Hstr]; (split; [|split; [|split]]).
  - intros a b [m Ha]%Hnum [n Hb]%Hnum.
    by rewrite (js_lt_as_number _ _ m n).
  - intros a b [m Ha]%Hnum [n Hb]%Hnum.
    rewrite (js_lt_as_number _ _ m n), (js_lt_as_number _ _ n m) by done.
    intros [= ?%Z.ltb_lt]. f_equal. apply Z.ltb_ge. lia.
  - intros a b c [m Ha]%Hnum [n Hb]%Hnum [p Hc]%Hnum.
    rewrite (js_lt_as_number _ _ m n), (js_lt_as_number _ _ n p),
      (js_lt_as_number _ _ m p) by done.
    intros [= ?%Z.ltb_lt] [= ?%Z.ltb_lt]. f_equal. apply Z.ltb_lt. lia.
  - intros a b c [m Ha]%Hnum [n Hb]%Hnum [p Hc]%Hnum.
    rewrite (js_lt_as_number _ _ m n), (js_lt_as_number _ _ n m),
      (js_lt_as_number _ _ m p), (js_lt_as_number _ _ n p),
      (js_lt_as_number _ _ p m), (js_lt_as_number _ _ p n) by done.
    intros [= ?%Z.ltb_ge] [= ?%Z.ltb_ge]. by replace n with m by lia.
  - intros a b [s Ha]%Hstr [t Hb]%Hstr.
    by rewrite (js_lt_as_string _ _ s t).
  - intros a b [s Ha]%Hstr [t Hb]%Hstr.
    rewrite (js_lt_as_string _ _ s t), (js_lt_as_string _ _ t s) by done.
    intros [= E]. f_equal. by apply string_ltb_asym.
  - intros a b c [s Ha]%Hstr [t Hb]%Hstr [u Hc]%Hstr.
    rewrite (js_lt_as_string _ _ s t), (js_lt_as_string _ _ t u),
      (js_lt_as_string _ _ s u) by done.
    intros [= E1] [= E2]. f_equal. by apply (string_ltb_trans s t u).
  - intros a b c [s Ha]%Hstr [t Hb]%Hstr [u Hc]%Hstr.
    rewrite (js_lt_as_string _ _ s t), (js_lt_as_string _ _ t s),
      (js_lt_as_string _ _ s u), (js_lt_as_string _ _ t u),
      (js_lt_as_string _ _ u s), (js_lt_as_string _ _ u t) by done.
    intros [= E1] [= E2]. by rewrite (string_ltb_tie s t).
Qed.

(** Where a sort field is ordered, its comparisons are those of a
    relation that always answers. *)
Lemma key_ordered_relation (D : doc → Prop) (key : string) :
  key_ordered D key →
  ∃ below : doc → doc → bool,
    (∀ a b, D a → D b → js_lt (get a key) (get b key) = Some (below a b))
    ∧ (∀ a b, D a → D b → below a b = true → below b a = false)
    ∧ (∀ a b c, D a → D b → D c →
         below a b = true → below b c = true → below a c = true)
    ∧ (∀ a b c, D a → D b → D c → below a b = false → below b a = false →
         below a c = below b c ∧ below c a = below c b).
Proof.
  intros (Htotal & Hasym & Htrans & Htie).
  exists (λ a b, default false (js_lt (get a key) (get b key))).
  assert (Hval : ∀ a b, D a → D b →
    js_lt (get a key) (get b key)
    = Some (default false (js_lt (get a key) (get b key)))).
  { intros a b Da Db. by destruct (Htotal a b Da Db) as [r ->]. }
  split; [exact Hval|]. split; [|split].
  - intros a b Da Db E. pose proof (Hasym a b Da Db) as Hab.
    rewrite (Hval a b), (Hval b a), E in Hab by done.
    specialize (Hab eq_refl). by injection Hab.
  - intros a b c Da Db Dc E1 E2. pose proof (Htrans a b c Da Db Dc) as Habc.
    rewrite (Hval a b), (Hval b c), (Hval a c), E1, E2 in Habc by done.
    specialize (Habc eq_refl eq_refl). by injection Habc.
  - intros a b c Da Db Dc E1 E2. pose proof (Htie a b c Da Db Dc) as Habc.
    rewrite (Hval a b), (Hval b a), (Hval a c), (Hval b c), (Hval c a),
      (Hval c b), E1, E2 in Habc by done.
    destruct (Habc eq_refl eq_refl) as [F1 F2]. split; congruence.
Qed.

Section Lexicographic.
Variable D : doc → Prop.

(** On ordered fields the comparator returns, its sign turns with its
    arguments, and "not above" is transitive. *)
Lemma compare_docs_ordered (sp : list (string * value)) :
  (∀ key direction, (key, direction) ∈ sp → key_ordered D key) →
  (∀ a b, D a → D b → compare_docs sp a b = Some (compare_value sp a b))
  ∧ (∀ a b, D a → D b → compare_value sp b a = - compare_value sp a b)
  ∧ (∀ a b c, D a → D b → D c →
       compare_value sp a b ≤ 0 → compare_value sp b c ≤ 0 →
       compare_value sp a c ≤ 0).
Proof.
  induction sp as [|[key direction] rest IH]; intros Hord.
  { unfold compare_value. simpl. repeat split; intros; lia. }
  destruct IH as (IHret & IHanti & IHtrans).
  { intros k d Hin. apply (Hord k d). by right. }
  destruct (key_ordered_relation D key) as (below & Hval & Hasym & Htrans & Htie).
  { apply (Hord key direction). by left. }
  set (sign := strict_eq direction (VNum 1)).
  assert (Hstep : ∀ a b, D a → D b →
    compare_docs ((key, direction) :: rest) a b
    = Some (if below a b then (if sign then -1 else 1)
            else if below b a then (if sign then 1 else -1)
            else compare_value rest a b)).
  { intros a b Da Db. cbn [compare_docs]. unfold js_gt.
    rewrite (Hval a b), (Hval b a) by done. simpl. fold sign.
    destruct (below a b); [done|]. destruct (below b a); [done|].
    by apply IHret. }
  assert (Hvalue : ∀ a b, D a → D b →
    compare_value ((key, direction) :: rest) a b
    = if below a b then (if sign then -1 else 1)
      else if below b a then (if sign then 1 else -1)
      else compare_value rest a b).
  { intros a b Da Db. unfold compare_value at 1. by rewrite Hstep. }
  split; [|split].
  - intros a b Da Db. by rewrite Hstep, Hvalue.
  - intros a b Da Db. rewrite !Hvalue by done.
    pose proof (Hasym a b Da Db) as Aab. pose proof (Hasym b a Db Da) as Aba.
    destruct (below a b), (below b a); try (by destruct sign);
      try (by specialize (Aab eq_refl)).
    by apply IHanti.
  - intros a b c Da Db Dc. rewrite !Hvalue by done.
    pose proof (Hasym a c Da Dc) as Aac.
    pose proof (Htrans a b c Da Db Dc) as Tabc.
    pose proof (Htrans c b a Dc Db Da) as Tcba.
    pose proof (Htie a b c Da Db Dc) as Eab.
    pose proof (Htie b c a Db Dc Da) as Ebc.
    pose proof (IHtrans a b c Da Db Dc) as IH'.
    clear Hasym Htrans Htie Hstep Hvalue Hval IHret IHanti IHtrans.
    destruct (below a b) eqn:Lab.
    + destruct (below b c) eqn:Lbc.
      * rewrite Tabc by done. done.
      * destruct (below c b) eqn:Lcb.
        -- destruct sign; lia.
        -- destruct Ebc as [_ Ebc]; [done..|]. rewrite <- Ebc. done.
    + destruct (below b a) eqn:Lba.
      * destruct (below b c) eqn:Lbc.
        -- destruct sign; lia.
        -- destruct (below c b) eqn:Lcb.
           ++ pose proof (Tcba eq_refl eq_refl) as Lca.
              destruct (below a c) eqn:Lac.
              ** rewrite (Aac eq_refl) in Lca. done.
              ** by rewrite Lca.
           ++ destruct Ebc as [Ebc Ebc']; [done..|].
              rewrite <- Ebc', <- Ebc. done.
      * destruct Eab as [Eab Eab']; [done..|]. rewrite Eab, Eab'.
        destruct (below b c); [done|].
        destruct (below c b); [done|]. apply IH'.
Qed.

End Lexicographic.



(** What a document reads as under a name it does not hold can be
    converted. *)
Lemma get_absent_converts (a : doc) (key : string) :
  a !! key = None → is_Some (ToPrimitive (get a key)).
Proof.
  intros Ha. unfold get. rewrite Ha. by destruct (inherited key).
Qed.

(** A sort field that neither document holds decides nothing, whatever
    its name: both read the same. *)
Lemma compare_docs_absent (key : string) (direction : value)
    (rest : list (string * value)) (a b : doc) :
  a !! key = None → b !! key = None →
  compare_docs ((key, direction) :: rest) a b = compare_docs rest a b.
Proof.
  intros Ha Hb. cbn [compare_docs]. unfold js_gt.
  rewrite (get_ext b a key) by congruence.
  by rewrite js_lt_irrefl by by apply get_absent_converts.
Qed.

End Sorting.

(** *** Consistent comparators *)

Section Consistent.
Variable cmp : doc → doc → Z.
Variable D : doc → Prop.
Hypothesis cmp_consistent : consistent cmp D.

Lemma consistent_below_above (a b : doc) :
  D a → D b → cmp a b < 0 → 0 < cmp b a.
Proof using cmp_consistent.
  destruct cmp_consistent as (Hrefl & Hsym & _ & Hlt & _). intros Da Db Hab.
  destruct (Z.lt_trichotomy (cmp b a) 0) as [Hba|[Hba|Hba]]; [| |done].
  - pose proof (Hlt a b a Da Db Da Hab Hba). pose proof (Hrefl a Da). lia.
  - pose proof (Hsym b a Db Da Hba). lia.
Qed.

Lemma consistent_above_below (a b : doc) :
  D a → D b → 0 < cmp a b → cmp b a < 0.
Proof using cmp_consistent.
  destruct cmp_consistent as (Hrefl & Hsym & _ & _ & Hgt). intros Da Db Hab.
  destruct (Z.lt_trichotomy (cmp b a) 0) as [Hba|[Hba|Hba]]; [done| |].
  - pose proof (Hsym b a Db Da Hba). lia.
  - pose proof (Hgt a b a Da Db Da Hab Hba). pose proof (Hrefl a Da). lia.
Qed.

Lemma consistent_not_below (a b : doc) :
  D a → D b → ¬ cmp a b < 0 → cmp b a ≤ 0.
Proof using cmp_consistent.
  intros Da Db Hab.
  destruct (Z.lt_trichotomy (cmp a b) 0) as [?|[E|Hgt]]; [done| |].
  - destruct cmp_consistent as (_ & Hsym & _). rewrite (Hsym a b) by done. lia.
  - pose proof (consistent_above_below a b Da Db Hgt). lia.
Qed.

Lemma consistent_le_trans (a b c : doc) :
  D a → D b → D c → cmp a b ≤ 0 → cmp b c ≤ 0 → cmp a c ≤ 0.
Proof using cmp_consistent.
  intros Da Db Dc Hab Hbc.
  destruct (Z.lt_trichotomy (cmp a c) 0) as [?|[?|Hac]]; [lia..|].
  pose proof (consistent_above_below a c Da Dc Hac) as Hca.
  destruct cmp_consistent as (Hrefl & Hsym & Htie & Hlt & Hgt).
  destruct (Z.lt_trichotomy (cmp a b) 0) as [Lab|[Eab|?]]; [| |lia];
    destruct (Z.lt_trichotomy (cmp b c) 0) as [Lbc|[Ebc|?]]; try lia.
  - pose proof (Hlt a b c Da Db Dc Lab Lbc). lia.
  - pose proof (Hlt c a b Dc Da Db Hca Lab). pose proof (Hsym b c Db Dc Ebc). lia.
  - pose proof (Hlt b c a Db Dc Da Lbc Hca). pose proof (Hsym a b Da Db Eab). lia.
  - pose proof (Htie a b c Da Db Dc Eab Ebc). lia.
Qed.

Lemma consistent_lt_le_trans (a b c : doc) :
  D a → D b → D c → cmp a b < 0 → cmp b c ≤ 0 → cmp a c < 0.
Proof using cmp_consistent.
  intros Da Db Dc Hab Hbc.
  assert (Hac : cmp a c ≤ 0) by (apply (consistent_le_trans a b c); auto; lia).
  destruct (Z.lt_trichotomy (cmp a c) 0) as [?|[Eac|?]]; [done| |lia].
  destruct cmp_consistent as (Hrefl & Hsym & Htie & Hlt & Hgt).
  pose proof (Hsym a c Da Dc Eac) as Eca.
  assert (Hba : cmp b a ≤ 0) by (apply (consistent_le_trans b c a); auto; lia).
  pose proof (consistent_below_above a b Da Db Hab). lia.
Qed.

(** What is tied with [z] is not below what is tied with [z]. *)
Lemma consistent_tied_not_below (z x y : doc) :
  D z → D x → D y → cmp z x = 0 → cmp x y < 0 → cmp z y ≠ 0.
Proof using cmp_consistent.
  destruct cmp_consistent as (_ & Hsym & Htie & _). intros Dz Dx Dy Hzx Hxy Hzy.
  pose proof (Htie x z y Dx Dz Dy (Hsym z x Dz Dx Hzx) Hzy). lia.
Qed.

(** *** Sorting by insertion *)

Lemma insert_by_perm (x : doc) (l : list doc) :
  insert_by cmp x l ≡ₚ x :: l.
Proof.
  induction l as [|y l IH]; simpl; [done|].
  destruct (cmp x y <? 0); [done|]. rewrite IH. apply perm_swap.
Qed.

Lemma sort_by_acc_perm (l acc : list doc) :
  fold_left (λ acc x, insert_by cmp x acc) l acc ≡ₚ acc ++ l.
Proof.
  revert acc. induction l as [|x l IH]; intros acc; simpl.
  - by rewrite app_nil_r.
  - rewrite IH, insert_by_perm. by rewrite <- Permutation_middle.
Qed.

Lemma sort_by_perm (l : list doc) : sort_by cmp l ≡ₚ l.
Proof. apply (sort_by_acc_perm l []). Qed.

Lemma insert_by_sorted (x : doc) (l : list doc) :
  D x → Forall D l →
  StronglySorted (λ a b, cmp a b ≤ 0) l →
  StronglySorted (λ a b, cmp a b ≤ 0) (insert_by cmp x l).
Proof using cmp_consistent.
  intros Dx Dl Hs. induction Hs as [|y l Hs IH Hy]; simpl.
  - by repeat constructor.
  - apply Forall_cons in Dl as [Dy Dl].
    destruct (Z.ltb_spec (cmp x y) 0) as [Hlt|Hge].
    + constructor; [by constructor|]. constructor; [lia|].
      rewrite Forall_forall in Hy, Dl |- *. intros z Hz.
      apply (consistent_le_trans x y z); auto. lia.
    + constructor; [by apply IH|].
      rewrite insert_by_perm. constructor; [|done].
      apply consistent_not_below; auto. lia.
Qed.

Lemma tied_app (z : doc) (l l' : list doc) :
  tied cmp z (l ++ l') = tied cmp z l ++ tied cmp z l'.
Proof. apply List.filter_app. Qed.

(** Insertion carries an element over those it is below only, none of
    which is tied with what it is tied with. *)
Lemma insert_by_tied (x z : doc) (l : list doc) :
  D x → D z → Forall D l →
  StronglySorted (λ a b, cmp a b ≤ 0) l →
  tied cmp z (insert_by cmp x l) = tied cmp z (l ++ [x]).
Proof using cmp_consistent.
  intros Dx Dz Dl Hs. induction Hs as [|y l Hs IH Hy]; [done|].
  cbn [insert_by]. apply Forall_cons in Dl as [Dy Dl].
  destruct (Z.ltb_spec (cmp x y) 0) as [Hlt|Hge].
  - assert (Hbelow : Forall (λ y', cmp x y' < 0) (y :: l)).
    { constructor; [done|]. rewrite Forall_forall in Hy, Dl |- *.
      intros y' Hy'. apply (consistent_lt_le_trans x y y'); auto. }
    change (x :: y :: l) with ([x] ++ (y :: l)). rewrite !tied_app.
    unfold tied at 1 4. cbn [List.filter].
    destruct (Z.eqb_spec (cmp z x) 0) as [Hzx|Hzx]; [|by rewrite app_nil_r].
    assert (Hnone : tied cmp z (y :: l) = []).
    { unfold tied. apply filter_none.
      assert (Dyl : Forall D (y :: l)) by by constructor.
      rewrite Forall_forall in Hbelow, Dyl |- *. intros y' Hy'.
      apply Z.eqb_neq. apply (consistent_tied_not_below z x y'); auto. }
    by rewrite Hnone.
  - change (y :: insert_by cmp x l) with ([y] ++ insert_by cmp x l).
    change ((y :: l) ++ [x]) with ([y] ++ (l ++ [x])).
    by rewrite !(tied_app z [y]), (IH Dl).
Qed.

Lemma sort_by_acc_sorted (l acc : list doc) :
  Forall D l → Forall D acc →
  StronglySorted (λ a b, cmp a b ≤ 0) acc →
  StronglySorted (λ a b, cmp a b ≤ 0)
    (fold_left (λ acc x, insert_by cmp x acc) l acc).
Proof using cmp_consistent.
  intros Dl. revert acc.
  induction Dl as [|x l Dx Dl IH]; intros acc Dacc Hs; simpl; [done|].
  apply IH.
  - rewrite insert_by_perm. by constructor.
  - by apply insert_by_sorted.
Qed.

Lemma sort_by_acc_tied (z : doc) (l acc : list doc) :
  D z → Forall D l → Forall D acc →
  StronglySorted (λ a b, cmp a b ≤ 0) acc →
  tied cmp z (fold_left (λ acc x, insert_by cmp x acc) l acc)
  = tied cmp z (acc ++ l).
Proof using cmp_consistent.
  intros Dz Dl. revert acc.
  induction Dl as [|x l Dx Dl IH]; intros acc Dacc Hs; simpl.
  - by rewrite app_nil_r.
  - rewrite IH.
    + rewrite !tied_app, insert_by_tied by done.
      rewrite tied_app, <- app_assoc. by rewrite <- tied_app.
    + rewrite insert_by_perm. by constructor.
    + by apply insert_by_sorted.
Qed.

(** *** The sorted arrangement is unique *)

Lemma stable_sorted_unique (l1 l2 : list doc) :
  Forall D l1 →
  StronglySorted (λ a b, cmp a b ≤ 0) l1 →
  StronglySorted (λ a b, cmp a b ≤ 0) l2 →
  l1 ≡ₚ l2 →
  (∀ x, D x → tied cmp x l1 = tied cmp x l2) →
  l1 = l2.
Proof using cmp_consistent.
  revert l2. induction l1 as [|a l1 IH]; intros l2 D1 S1 S2 Hperm Htied.
  - by apply Permutation_nil in Hperm.
  - destruct l2 as [|b l2].
    { symmetry in Hperm. by apply Permutation_nil in Hperm. }
    apply Forall_cons in D1 as [Da D1].
    assert (Db : D b).
    { assert (Hin : b ∈ a :: l1) by (rewrite Hperm; left).
      apply elem_of_cons in Hin as [->|Hin]; [done|].
      rewrite Forall_forall in D1. by apply D1. }
    apply StronglySorted_inv in S1 as [S1 H1].
    apply StronglySorted_inv in S2 as [S2 H2].
    assert (Hab : cmp a b = 0).
    { destruct cmp_consistent as (Hrefl & _).
      assert (Hb : b ∈ a :: l1) by (rewrite Hperm; left).
      assert (Ha : a ∈ b :: l2) by (rewrite <- Hperm; left).
      apply elem_of_cons in Hb as [->|Hb]; [by apply Hrefl|].
      apply elem_of_cons in Ha as [->|Ha]; [by apply Hrefl|].
      rewrite Forall_forall in H1, H2.
      pose proof (H1 b Hb) as Lab. pose proof (H2 a Ha) as Lba. simpl in *.
      destruct (Z.lt_trichotomy (cmp a b) 0) as [Hlt|[?|?]]; [|done|lia].
      pose proof (consistent_below_above a b Da Db Hlt). lia. }
    assert (E : a = b).
    { pose proof (Htied a Da) as Ht. unfold tied in Ht. simpl in Ht.
      destruct cmp_consistent as (Hrefl & _). rewrite (Hrefl a Da), Hab in Ht.
      simpl in Ht. congruence. }
    subst b. f_equal. apply IH; try done.
    + by apply Permutation_cons_inv in Hperm.
    + intros x Dx. pose proof (Htied x Dx) as Ht. unfold tied in *.
      simpl in Ht. destruct (cmp x a =? 0); congruence.
Qed.

End Consistent.

Lemma consistent_weaken (cmp : doc → doc → Z) (D D' : doc → Prop) :
  (∀ x, D' x → D x) → consistent cmp D → consistent cmp D'.
Proof.
  intros Hsub (Hrefl & Hsym & Htie & Hlt & Hgt). repeat split.
  - intros a Da. apply Hrefl; auto.
  - intros a b Da Db. apply Hsym; auto.
  - intros a b c Da Db Dc. apply (Htie a b c); auto.
  - intros a b c Da Db Dc. apply (Hlt a b c); auto.
  - intros a b c Da Db Dc. apply (Hgt a b c); auto.
Qed.

(** A comparator that turns its sign around with its arguments and whose
    "not above" is transitive is consistent. *)
Lemma antisym_trans_consistent (cmp : doc → doc → Z) (D : doc → Prop) :
  (∀ a b, D a → D b → cmp b a = - cmp a b) →
  (∀ a b c, D a → D b → D c → cmp a b ≤ 0 → cmp b c ≤ 0 → cmp a c ≤ 0) →
  consistent cmp D.
Proof.
  intros Hanti Htrans. repeat split.
  - intros a Da. pose proof (Hanti a a Da Da). lia.
  - intros a b Da Db E. rewrite (Hanti a b) by done. lia.
  - intros a b c Da Db Dc Eab Ebc.
    pose proof (Htrans a b c Da Db Dc). pose proof (Htrans c b a Dc Db Da).
    pose proof (Hanti a b Da Db). pose proof (Hanti b c Db Dc).
    pose proof (Hanti a c Da Dc). lia.
  - intros a b c Da Db Dc Lab Lbc.
    pose proof (Htrans a b c Da Db Dc). pose proof (Htrans c a b Dc Da Db).
    pose proof (Hanti a c Da Dc). pose proof (Hanti b c Db Dc). lia.
  - intros a b c Da Db Dc Lab Lbc.
    pose proof (Htrans c b a Dc Db Da). pose proof (Htrans a c b Da Dc Db).
    pose proof (Hanti a b Da Db). pose proof (Hanti b c Db Dc).
    pose proof (Hanti a c Da Dc). lia.
Qed.

(** *** Insertion with a comparator that may throw *)

Lemma sort_insert_perm (cmp : doc → doc → option Z) (x : doc)
    (l l' : list doc) :
  sort_insert cmp x l = Some l' → l' ≡ₚ x :: l.
Proof.
  revert l'. induction l as [|y l IH]; intros l'; simpl.
  - by intros [= <-].
  - destruct (cmp x y) as [c|]; simpl; [|done].
    destruct (c <? 0); [by intros [= <-]|].
    destruct (sort_insert cmp x l) as [r|]; simpl; [|done].
    intros [= <-]. rewrite (IH r eq_refl). apply perm_swap.
Qed.

Lemma insertion_sort_acc_perm (cmp : doc → doc → option Z)
    (l acc l' : list doc) :
  fold_left (λ acc x, sorted ← acc; sort_insert cmp x sorted) l (Some acc)
  = Some l' →
  l' ≡ₚ acc ++ l.
Proof.
  revert acc. induction l as [|x l IH]; intros acc; simpl.
  - intros [= <-]. by rewrite app_nil_r.
  - destruct (sort_insert cmp x acc) as [r|] eqn:E.
    + intros Hr. rewrite (IH r Hr), (sort_insert_perm _ _ _ _ E).
      by rewrite <- Permutation_middle.
    + assert (Hnone : ∀ l0,
        fold_left (λ acc x, sorted ← acc; sort_insert cmp x sorted) l0 None
        = None) by (induction l0; simpl; auto).
      by rewrite Hnone.
Qed.

Lemma sort_insert_returns (cmp : doc → doc → option Z) (f : doc → doc → Z)
    (x : doc) (l : list doc) :
  (∀ y, y ∈ l → cmp x y = Some (f x y)) →
  sort_insert cmp x l = Some (insert_by f x l).
Proof.
  induction l as [|y l IH]; intros Hret; simpl; [done|].
  rewrite (Hret y) by left. simpl.
  destruct (f x y <? 0); [done|].
  rewrite IH; [done|]. intros z Hz. apply Hret. by right.
Qed.

Lemma insertion_sort_acc_returns (cmp : doc → doc → option Z)
    (f : doc → doc → Z) (l acc : list doc) :
  returns_on cmp f (acc ++ l) →
  fold_left (λ acc x, sorted ← acc; sort_insert cmp x sorted) l (Some acc)
  = Some (fold_left (λ acc x, insert_by f x acc) l acc).
Proof.
  revert acc. induction l as [|x l IH]; intros acc Hret; simpl; [done|].
  rewrite (sort_insert_returns cmp f).
  - apply IH. intros a b Ha Hb. apply Hret.
    + rewrite elem_of_app, insert_by_perm, elem_of_cons in Ha.
      rewrite elem_of_app, elem_of_cons. tauto.
    + rewrite elem_of_app, insert_by_perm, elem_of_cons in Hb.
      rewrite elem_of_app, elem_of_cons. tauto.
  - intros y Hy. apply Hret; rewrite elem_of_app, elem_of_cons; tauto.
Qed.

Lemma insertion_sort_returns (cmp : doc → doc → option Z)
    (f : doc → doc → Z) (l : list doc) :
  returns_on cmp f l → insertion_sort cmp l = Some (sort_by f l).
Proof. intros Hret. by apply (insertion_sort_acc_returns cmp f l []). Qed.

(** Sorting by insertion is a sort as the language wants it. *)
#[global] Instance default_conforming : @Conforming default_runtime.
Proof.
  split; simpl.
  - intros cmp f l Hret. rewrite (insertion_sort_returns cmp f) by done. eauto.
  - intros cmp l l' Hl. apply (insertion_sort_acc_perm cmp l [] l' Hl).
  - intros cmp f l l' Hret Hc. rewrite (insertion_sort_returns cmp f) by done.
    intros [= <-].
    apply (sort_by_acc_sorted f (λ d, d ∈ l) Hc l []);
      [by apply Forall_forall | constructor | constructor].
  - intros cmp f l l' x Hret Hc. rewrite (insertion_sort_returns cmp f) by done.
    intros [= <-] Hx.
    apply (sort_by_acc_tied f (λ d, d ∈ l) Hc x l []);
      [done | by apply Forall_forall | constructor | constructor].
Qed.

(** *** What follows for every sort of the language *)


Section Sorted.
Context `{Conforming}.

(** Under a consistent comparator the sort returns the one arrangement
    that is ordered and keeps tied elements in their order. *)
Lemma array_sort_unique (cmp : doc → doc → option Z) (f : doc → doc → Z)
    (l l' : list doc) :
  returns_on cmp f l → consistent f (λ d, d ∈ l) →
  l' ≡ₚ l → StronglySorted (λ a b, f a b ≤ 0) l' →
  (∀ x, x ∈ l → tied f x l' = tied f x l) →
  array_sort cmp l = Some l'.
Proof using Type*.
  intros Hret Hc Hperm Hs Htied.
  destruct (sort_returns cmp f l Hret) as [l0 Hl0]. rewrite Hl0. f_equal.
  apply (stable_sorted_unique f (λ d, d ∈ l) Hc).
  - apply Forall_forall. intros x Hx.
    by rewrite <- (sort_permutation cmp l l0 Hl0).
  - by apply (sort_ordered cmp f l).
  - done.
  - by rewrite (sort_permutation cmp l l0 Hl0).
  - intros x Hx. rewrite (sort_stable cmp f l l0) by done.
    symmetry. by apply Htied.
Qed.

Lemma array_sort_already (cmp : doc → doc → option Z) (f : doc → doc → Z)
    (l : list doc) :
  returns_on cmp f l → consistent f (λ d, d ∈ l) →
  StronglySorted (λ a b, f a b ≤ 0) l →
  array_sort cmp l = Some l.
Proof using Type*. intros Hret Hc Hs. by apply (array_sort_unique cmp f). Qed.

Lemma compare_docs_consistent (documents : list doc) (sp : list (string * value)) :
  comparable sp documents →
  returns_on (compare_docs sp) (compare_value sp) documents
  ∧ consistent (compare_value sp) (λ d, d ∈ documents).
Proof using Type.
  intros Hc.
  destruct (compare_docs_ordered (λ d, d ∈ documents) sp)
    as (Hret & Hanti & Htrans).
  { intros key direction Hin. eapply homogeneous_key_ordered, Hc, Hin. }
  split; [exact Hret|]. by apply antisym_trans_consistent.
Qed.

Lemma _sortDocuments_perm (documents sorted : list doc)
    (sp : list (string * value)) :
  _sortDocuments documents sp = Some sorted → sorted ≡ₚ documents.
Proof using Type*. apply sort_permutation. Qed.


End Sorted.





(** Two fields, the second one descending. *)
Example sort_example :
  let d (team : string) (n : Z) : doc := {[ "team" := VStr team; "n" := VNum n ]} in
  _sortDocuments [d "b" 1; d "a" 1; d "b" 2; d "a" 2]
    [("team", VNum 1); ("n", VNum (-1))]
  = Some [d "a" 2; d "a" 1; d "b" 2; d "b" 1].
Proof. by vm_compute. Qed.

(** ** Identity of a document *)

(** No patch changes [_id]; [_createdAt] is kept only when the patch does
    not name it. *)
Lemma updatedDoc_createdAt (patch : doc) (timestamp : string) (d : doc) :
  get (updatedDoc patch timestamp d) "_createdAt"
  = match patch !! "_createdAt" with
    | Some v => Data v
    | None => get d "_createdAt"
    end.
Proof. by apply updatedDoc_other. Qed.

(** Whatever the filter, the patch and the options, [update] leaves every
    document of the collection at its place with its [_id]; it leaves
    [_createdAt] too when the patch does not name it. *)
Lemma update_map_keeps_id (query patch : doc) (options : update_options)
    (timestamp : string) (coll : list doc) (n : nat) :
  (λ d, get d "_id") <$> (update_map query patch options timestamp coll n).1
  = (λ d, get d "_id") <$> coll.
Proof.
  revert n. induction coll as [|d coll IH]; intros n; simpl; [done|].
  destruct (_matchesQuery d query); [destruct (multi options || (n =? 0)%nat)|].
  - specialize (IH (S n)).
    destruct (update_map query patch options timestamp coll (S n)).
    cbn [fst] in *. by rewrite !fmap_cons, IH, updatedDoc_id.
  - specialize (IH n).
    destruct (update_map query patch options timestamp coll n).
    cbn [fst] in *. by rewrite !fmap_cons, IH.
  - specialize (IH n).
    destruct (update_map query patch options timestamp coll n).
    cbn [fst] in *. by rewrite !fmap_cons, IH.
Qed.

Lemma update_map_keeps_createdAt (query patch : doc) (options : update_options)
    (timestamp : string) (coll : list doc) (n : nat) :
  patch !! "_createdAt" = None →
  (λ d, get d "_createdAt")
    <$> (update_map query patch options timestamp coll n).1
  = (λ d, get d "_createdAt") <$> coll.
Proof.
  intros Hp. revert n. induction coll as [|d coll IH]; intros n; simpl; [done|].
  destruct (_matchesQuery d query); [destruct (multi options || (n =? 0)%nat)|].
  - specialize (IH (S n)).
    destruct (update_map query patch options timestamp coll (S n)).
    cbn [fst] in *. by rewrite !fmap_cons, IH, updatedDoc_createdAt, Hp.
  - specialize (IH n).
    destruct (update_map query patch options timestamp coll n).
    cbn [fst] in *. by rewrite !fmap_cons, IH.
  - specialize (IH n).
    destruct (update_map query patch options timestamp coll n).
    cbn [fst] in *. by rewrite !fmap_cons, IH.
Qed.

(** C2 does not hold of [update]: a document is inserted, then updated
    with a patch that names [_id] and [_createdAt]; the persisted document
    keeps its [_id] but carries the patch's [_createdAt]. *)
Theorem C2_update_overwrites_createdAt :
  let s0 := Engine true (Stored {[ "users" := [] ]}) true in
  let inserted :=
    insert "users" (One {[ "name" := VStr "Kofi" ]})
      "2024-01-01T00:00:00.000Z" (λ _, "lq1x9a7k2") s0 in
  let updated :=
    update "users" {[ "name" := VStr "Kofi" ]}
      {[ "_id" := VStr "forged"; "_createdAt" := VStr "1999-12-31T00:00:00.000Z" ]}
      {| multi := false; upsert := false |} "2024-06-01T00:00:00.000Z"
      inserted.2 in
  ∃ d1 d2 : doc,
    disk inserted.2 = Stored {[ "users" := [d1] ]}
    ∧ updated.1 = Ok {| matchedCount := 1; modifiedCount := 1 |}
    ∧ disk updated.2 = Stored {[ "users" := [d2] ]}
    ∧ get d1 "_id" = VStr "lq1x9a7k2"
    ∧ get d2 "_id" = VStr "lq1x9a7k2"
    ∧ get d1 "_createdAt" = VStr "2024-01-01T00:00:00.000Z"
    ∧ get d2 "_createdAt" = VStr "1999-12-31T00:00:00.000Z".
Proof.
  intros s0 inserted updated.
  eexists _, _. split; [by vm_compute|]. split; [by vm_compute|].
  split; [by vm_compute|]. by vm_compute.
Qed.

(** ** Concurrent inserts *)

Import Interleaving.

(** C1 does not hold of the mutex as it is used: two calls of [insert]
    issued together, one document each into the empty collection [users].
    Both wait for the lock, both read the empty collection, each then
    writes its own one-document collection; both report success and one
    document is persisted, not two. *)
Theorem C1_concurrent_inserts_lose_an_update :
  let s := Engine true (Stored {[ "users" := [] ]}) true in
  let kofi := {| collectionName := "users";
                 documents := One {[ "name" := VStr "Kofi" ]};
                 timestamp := "2024-01-01T00:00:00.000Z";
                 _generateId := λ _, "lq1x9a7k2" |} in
  let jane := {| collectionName := "users";
                 documents := One {[ "name" := VStr "Jane" ]};
                 timestamp := "2024-01-01T00:00:00.001Z";
                 _generateId := λ _, "lq1x9b03f" |} in
  ∃ σ (d : doc),
    run [0; 1; 0; 1; 0; 1; 0; 1]%nat (launch s [kofi; jane]) = Some σ
    ∧ returned <$> tasks σ
      = [Some (Ok {| insertedCount := 1; insertedIds := [VStr "lq1x9a7k2"] |});
         Some (Ok {| insertedCount := 1; insertedIds := [VStr "lq1x9b03f"] |})]
    ∧ persisted σ "users" = Some [d]
    ∧ get d "name" = VStr "Jane".
Proof.
  intros s kofi jane. eexists _, _.
  split; [by vm_compute|]. split; [by vm_compute|]. split; by vm_compute.
Qed.

(** Run one after the other, the same two calls persist two documents. *)
Example serial_inserts_keep_both :
  let s := Engine true (Stored {[ "users" := [] ]}) true in
  let kofi := {| collectionName := "users";
                 documents := One {[ "name" := VStr "Kofi" ]};
                 timestamp := "2024-01-01T00:00:00.000Z";
                 _generateId := λ _, "lq1x9a7k2" |} in
  let jane := {| collectionName := "users";
                 documents := One {[ "name" := VStr "Jane" ]};
                 timestamp := "2024-01-01T00:00:00.001Z";
                 _generateId := λ _, "lq1x9b03f" |} in
  ∃ σ (d1 d2 : doc),
    run [0; 0; 0; 0; 1; 1; 1; 1]%nat (launch s [kofi; jane]) = Some σ
    ∧ persisted σ "users" = Some [d1; d2].
Proof.
  intros s kofi jane. eexists _, _, _. split; by vm_compute.
Qed.

(** A call that runs alone goes through the steps of [insert]. *)
Lemma solo_call_is_insert (s : engine) (c : call) :
  let alone :=
    insert (collectionName c) (documents c) (timestamp c) (_generateId c) s in
  ∃ schedule σ,
    run schedule (launch s [c]) = Some σ
    ∧ tasks σ = [{| args := c; at_ := Finished alone.1 |}]
    ∧ eng σ = alone.2
    ∧ queue σ = [].
Proof.
  intros alone. unfold alone. clear alone. run_engine. unfold launch.
  destruct (as_array (documents c)) as [|d ds] eqn:Hdocs.
  { exists [0%nat]. eexists. simpl. unfold step. simpl. rewrite Hdocs. done. }
  change ((length (d :: ds) =? 0)%nat) with false. cbv beta iota.
  destruct (initialized s) eqn:Hi; cbn [negb]; cbv beta iota.
  2:{ exists [0%nat]. eexists. simpl. unfold step. simpl.
      rewrite Hdocs, Hi. done. }
  assert (Hcall : step 0
      {| eng := s; queue := []; tasks := [{| args := c; at_ := Called |}] |}
    = Some {| eng := s; queue := [0%nat];
              tasks := [{| args := c; at_ := AwaitReadLock |}] |}).
  { unfold step. simpl. by rewrite Hdocs, Hi. }
  destruct (disk s) as [| |db] eqn:Hd; cbv beta iota.
  1,2: exists [0; 0]%nat; eexists; simpl; rewrite Hcall; simpl;
       unfold step, read_locked; simpl; rewrite Hd; done.
  assert (Hread : step 0
      {| eng := s; queue := [0%nat];
         tasks := [{| args := c; at_ := AwaitReadLock |}] |}
    = Some {| eng := s; queue := [];
              tasks := [{| args := c; at_ := HaveSnapshot db |}] |}).
  { unfold step, read_locked. simpl. by rewrite Hd. }
  destruct (insert_step (collectionName c) (d :: ds) (timestamp c)
              (_generateId c) db) as [[db' r]|e] eqn:Hstep; cbv beta iota;
    rewrite ?Hi; cbn [negb]; cbv beta iota.
  2:{ exists [0; 0; 0]%nat. eexists. simpl. rewrite Hcall. simpl.
      rewrite Hread. simpl. unfold step. simpl. rewrite Hdocs, Hstep.
      done. }
  assert (Hcompute : step 0
      {| eng := s; queue := [];
         tasks := [{| args := c; at_ := HaveSnapshot db |}] |}
    = Some {| eng := s; queue := [0%nat];
              tasks := [{| args := c; at_ := AwaitWriteLock db' r |}] |}).
  { unfold step. simpl. by rewrite Hdocs, Hstep, Hi. }
  destruct (writable s) eqn:Hw; cbv beta iota.
  all: exists [0; 0; 0; 0]%nat; eexists; simpl; rewrite Hcall; simpl;
       rewrite Hread; simpl; rewrite Hcompute; simpl;
       unfold step, write_locked; simpl; rewrite Hw, ?Hi; simpl; done.
Qed.

(** *** Every interleaving of calls issued together *)

Lemma phase_at_move_eq (σ : system) (i : nat) (p : phase) (t : task)
    (e : engine) (q : list nat) :
  tasks σ !! i = Some t →
  phase_at {| eng := e; queue := q; tasks := move i p (tasks σ) |} i = Some p.
Proof.
  intros Ht. unfold phase_at, move. simpl.
  by rewrite list_lookup_alter_eq, Ht.
Qed.

Lemma phase_at_move_ne (σ : system) (i j : nat) (p : phase)
    (e : engine) (q : list nat) :
  i ≠ j →
  phase_at {| eng := e; queue := q; tasks := move i p (tasks σ) |} j
  = phase_at σ j.
Proof.
  intros Hne. unfold phase_at, move. simpl.
  by rewrite list_lookup_alter_ne.
Qed.

Lemma args_move (i : nat) (p : phase) (ts : list task) :
  args <$> move i p ts = args <$> ts.
Proof.
  unfold move. apply list_eq. intros j. rewrite !list_lookup_fmap.
  destruct (decide (i = j)) as [->|Hne].
  - rewrite list_lookup_alter_eq. by destruct (ts !! j).
  - by rewrite list_lookup_alter_ne.
Qed.

Lemma phases_move (db0 : database) (i : nat) (p : phase) (ts : list task)
    (t : task) :
  Forall (λ t, phase_ok db0 (args t) (at_ t)) ts →
  ts !! i = Some t → phase_ok db0 (args t) p →
  Forall (λ t, phase_ok db0 (args t) (at_ t)) (move i p ts).
Proof.
  intros Hall Ht Hp. apply Forall_alter; [done|].
  intros t' Ht' _. simpl. congruence.
Qed.

Section RaceProofs.
Variable db0 : database.
Variable calls : list call.
Hypothesis collections_exist :
  Forall (λ c, is_Some (db0 !! collectionName c)) calls.

Lemma call_writes (c : call) :
  c ∈ calls → ∃ db' r, writes db0 c db' r.
Proof using collections_exist.
  intros Hc. rewrite Forall_forall in collections_exist.
  destruct (collections_exist c Hc) as [coll Hcoll].
  unfold writes, insert_step. rewrite Hcoll. eauto.
Qed.

Lemma task_call (σ : system) (i : nat) (t : task) :
  args <$> tasks σ = calls → tasks σ !! i = Some t → args t ∈ calls.
Proof.
  intros Hc Ht. rewrite <- Hc. apply list_elem_of_fmap. exists t.
  split; [done|]. by eapply list_elem_of_lookup_2.
Qed.

Lemma step_racing (σ σ' : system) (i : nat) :
  racing db0 calls σ → step i σ = Some σ' → racing db0 calls σ'.
Proof using collections_exist.
  intros [Hcalls Hinit Hwr Hph (readers & writers & Hq & Hnd & Hrs & Hws & Hall) Hdisk].
  unfold step. destruct (tasks σ !! i) as [t|] eqn:Ht; simpl; [|done].
  pose proof (Forall_lookup_1 _ _ _ _ Hph Ht) as Hok. simpl in Hok.
  assert (Hat : phase_at σ i = Some (at_ t)) by (unfold phase_at; by rewrite Ht).
  destruct (at_ t) as [| |db|db' r|res] eqn:Hp; simpl in Hok.
  - done.
  - (* the call at the head of the queue reads *)
    assert (Hi : i ∈ readers) by by apply Hall.
    destruct readers as [|i' rs]; [by apply elem_of_nil in Hi|].
    rewrite Hq. simpl. destruct (Nat.eqb_spec i' i) as [->|]; [|done].
    assert (Hdb : disk (eng σ) = Stored db0 ∧ ∀ j, ¬ has_returned σ j).
    { destruct Hdisk as [?|[Hno _]]; [done|]. by destruct (Hno i). }
    destruct Hdb as [Hdb Hnone].
    unfold read_locked. rewrite Hdb. intros [= <-].
    simpl in Hnd. apply NoDup_cons in Hnd as [Hfresh Hnd].
    apply not_elem_of_app in Hfresh as [Hfr Hfw].
    split; simpl; try done.
    + by rewrite args_move.
    + by eapply phases_move.
    + exists rs, writers. split; [done|]. split; [done|].
      apply Forall_cons in Hrs as [_ Hrs]. split; [|split].
      * rewrite Forall_forall in Hrs |- *. intros j Hj. unfold waits_to_read.
        rewrite phase_at_move_ne by (intros ->; done). by apply Hrs.
      * rewrite Forall_forall in Hws |- *. intros j Hj. unfold waits_to_write.
        rewrite phase_at_move_ne by (intros ->; done). by apply Hws.
      * intros j. unfold waits_to_read. destruct (decide (i = j)) as [<-|Hne].
        -- by rewrite (phase_at_move_eq σ i _ t).
        -- rewrite phase_at_move_ne by done. intros Hj.
           apply Hall in Hj. apply elem_of_cons in Hj as [->|]; done.
    + left. split; [done|]. intros j [res Hres].
      destruct (decide (i = j)) as [<-|Hne].
      * by rewrite (phase_at_move_eq σ i _ t) in Hres.
      * rewrite phase_at_move_ne in Hres by done. apply (Hnone j). by exists res.
  - (* the call that holds a snapshot prepares its write and queues *)
    subst db.
    destruct (call_writes (args t)) as (db' & r & Hw); [by eapply task_call|].
    unfold writes in Hw. rewrite Hw, Hinit. simpl. intros [= <-].
    assert (Hfresh : i ∉ readers ++ writers).
    { intros [Hi|Hi]%elem_of_app.
      - rewrite Forall_forall in Hrs. specialize (Hrs i Hi).
        unfold waits_to_read in Hrs. congruence.
      - rewrite Forall_forall in Hws. destruct (Hws i Hi) as (? & ? & Hi').
        congruence. }
    split; simpl; try done.
    + by rewrite args_move.
    + by eapply phases_move.
    + exists readers, (writers ++ [i]). rewrite Hq, <- app_assoc.
      split; [done|]. split; [|split; [|split]].
      * rewrite app_assoc. apply NoDup_app. split; [done|]. split.
        -- intros j Hj ->%list_elem_of_singleton. done.
        -- apply NoDup_singleton.
      * rewrite Forall_forall in Hrs |- *. intros j Hj. unfold waits_to_read.
        rewrite phase_at_move_ne; [by apply Hrs|].
        intros ->. apply Hfresh, elem_of_app. by left.
      * apply Forall_app. split.
        -- rewrite Forall_forall in Hws |- *. intros j Hj. unfold waits_to_write.
           rewrite phase_at_move_ne; [by apply Hws|].
           intros ->. apply Hfresh, elem_of_app. by right.
        -- constructor; [|done]. exists db', r.
           by rewrite (phase_at_move_eq σ i _ t).
      * intros j. unfold waits_to_read. destruct (decide (i = j)) as [<-|Hne].
        -- by rewrite (phase_at_move_eq σ i _ t).
        -- rewrite phase_at_move_ne by done. apply Hall.
    + destruct Hdisk as [[Hdb Hnone]|[Hno Hlast]]; [left|right].
      * split; [done|]. intros j [res Hres].
        destruct (decide (i = j)) as [<-|Hne].
        -- by rewrite (phase_at_move_eq σ i _ t) in Hres.
        -- rewrite phase_at_move_ne in Hres by done. apply (Hnone j). by exists res.
      * split; [|done]. intros j. unfold waits_to_read.
        destruct (decide (i = j)) as [<-|Hne].
        -- by rewrite (phase_at_move_eq σ i _ t).
        -- rewrite phase_at_move_ne by done. apply Hno.
  - (* the call at the head of the queue writes *)
    rewrite Hq. destruct readers as [|j rs].
    + simpl. destruct writers as [|i' ws]; [done|].
      destruct (Nat.eqb_spec i' i) as [->|]; [|done].
      unfold write_locked. rewrite Hwr. intros [= <-].
      simpl in Hnd. apply NoDup_cons in Hnd as [Hfresh Hnd].
      apply Forall_cons in Hws as [_ Hws].
      split; simpl; try done.
      * by rewrite args_move.
      * eapply phases_move; [done..|]. simpl. by exists db', r.
      * exists [], ws. split; [done|]. split; [done|]. split; [done|]. split.
        -- rewrite Forall_forall in Hws |- *. intros j Hj. unfold waits_to_write.
           rewrite phase_at_move_ne by (intros ->; done). by apply Hws.
        -- intros j. unfold waits_to_read. destruct (decide (i = j)) as [<-|Hne].
           ++ by rewrite (phase_at_move_eq σ i _ t).
           ++ rewrite phase_at_move_ne by done. apply Hall.
      * right. split.
        -- intros j. unfold waits_to_read. destruct (decide (i = j)) as [<-|Hne].
           ++ by rewrite (phase_at_move_eq σ i _ t).
           ++ rewrite phase_at_move_ne by done. intros Hj.
              by apply Hall, elem_of_nil in Hj.
        -- exists (args t), db', r. split; [by eapply task_call|]. done.
    + simpl. destruct (Nat.eqb_spec j i) as [->|]; [|done].
      apply Forall_cons in Hrs as [Hr _]. unfold waits_to_read in Hr. congruence.
  - done.
Qed.

Lemma run_racing (schedule : list nat) (σ σ' : system) :
  racing db0 calls σ → run schedule σ = Some σ' → racing db0 calls σ'.
Proof using collections_exist.
  revert σ. induction schedule as [|i rest IH]; intros σ Hr; simpl.
  - by intros [= <-].
  - destruct (step i σ) as [σ1|] eqn:Hstep; simpl; [|done].
    apply IH. by eapply step_racing.
Qed.

Lemma queued_racing (s : engine) :
  initialized s = true → writable s = true → disk s = Stored db0 →
  racing db0 calls (queued s calls).
Proof.
  intros Hi Hw Hd. split; simpl; try done.
  - rewrite <- list_fmap_compose. apply list_fmap_id.
  - apply Forall_fmap, Forall_forall. done.
  - exists (seq 0 (length calls)), []. rewrite app_nil_r.
    split; [done|]. split; [apply NoDup_seq|].
    assert (Hph : ∀ i, waits_to_read (queued s calls) i ↔ (i < length calls)%nat).
    { intros i. unfold waits_to_read, phase_at, queued. simpl.
      rewrite list_lookup_fmap. split.
      - destruct (calls !! i) eqn:E; [|done]. intros _.
        by eapply lookup_lt_Some.
      - intros [c ->]%lookup_lt_is_Some_2. done. }
    split; [|split; [done|]].
    + apply Forall_forall. intros i Hin%elem_of_seq. apply Hph. lia.
    + intros i Hin%Hph. apply elem_of_seq. lia.
  - left. split; [done|]. intros i [res Hres].
    unfold phase_at, queued in Hres. simpl in Hres.
    rewrite list_lookup_fmap in Hres. by destruct (calls !! i).
Qed.

End RaceProofs.

Lemma run_app (l1 l2 : list nat) (σ : system) :
  run (l1 ++ l2) σ = run l1 σ ≫= run l2.
Proof.
  revert σ. induction l1 as [|i l1 IH]; intros σ; simpl; [done|].
  destruct (step i σ) as [σ1|]; simpl; [apply IH | done].
Qed.

Lemma issue_next (s : engine) (calls : list call) (k : nat) (c : call) :
  initialized s = true → calls !! k = Some c → as_array (documents c) ≠ [] →
  step k (issued s calls k) = Some (issued s calls (S k)).
Proof.
  intros Hi Hk Hne. pose proof (lookup_lt_Some _ _ _ Hk) as Hlt.
  assert (Hlen : length ((λ c, {| args := c; at_ := AwaitReadLock |}) <$> take k calls) = k).
  { rewrite length_fmap, length_take. lia. }
  unfold step, issued. simpl.
  rewrite lookup_app_r by lia. rewrite Hlen, Nat.sub_diag.
  rewrite (drop_S _ _ _ Hk). simpl.
  destruct (as_array (documents c)) as [|d ds] eqn:E; [done|]. simpl.
  rewrite Hi. simpl. f_equal. f_equal.
  - change (0%nat :: seq 1 k) with (seq 0 (S k)). by rewrite seq_S.
  - unfold move. rewrite alter_app_r_alt by lia. rewrite Hlen, Nat.sub_diag.
    simpl. rewrite (take_S_r _ _ _ Hk), fmap_app. simpl.
    by rewrite <- app_assoc.
Qed.

Lemma issue_all (s : engine) (calls : list call) :
  initialized s = true →
  Forall (λ c, as_array (documents c) ≠ []) calls →
  run (seq 0 (length calls)) (launch s calls) = Some (queued s calls).
Proof.
  intros Hi Hne.
  assert (Hgen : ∀ n k, (k + n)%nat = length calls →
    run (seq k n) (issued s calls k) = Some (issued s calls (length calls))).
  { induction n as [|n IH]; intros k Hk; simpl.
    - rewrite Nat.add_0_r in Hk. by subst.
    - destruct (lookup_lt_is_Some_2 calls k) as [c Hc]; [lia|].
      rewrite (issue_next s calls k c); [|done..|].
      + simpl. apply IH. lia.
      + rewrite Forall_forall in Hne. apply Hne.
        by eapply list_elem_of_lookup_2. }
  specialize (Hgen (length calls) 0%nat eq_refl).
  unfold issued in Hgen. rewrite take_0, drop_0 in Hgen. simpl in Hgen.
  unfold launch. rewrite Hgen. unfold queued.
  by rewrite firstn_all, drop_all, app_nil_r.
Qed.

(** Whatever the interleaving, calls of [insert] issued together all read
    the database as it stood before any of them, and what is persisted
    once all have returned is what a single one of them made of it. *)
Theorem concurrent_inserts_keep_one_write (s : engine) (db0 : database)
    (calls : list call) (schedule : list nat) (σ : system) :
  initialized s = true → writable s = true → disk s = Stored db0 →
  Forall (λ c, is_Some (db0 !! collectionName c)) calls →
  Forall (λ c, as_array (documents c) ≠ []) calls →
  calls ≠ [] →
  run (seq 0 (length calls) ++ schedule) (launch s calls) = Some σ →
  all_returned σ →
  ∃ c db' r,
    c ∈ calls ∧ writes db0 c db' r ∧ disk (eng σ) = Stored (json_db db').
Proof.
  intros Hi Hw Hd Hex Hne Hcalls Hrun Hret.
  rewrite run_app, issue_all in Hrun by done. simpl in Hrun.
  pose proof (run_racing db0 calls Hex schedule _ _
                (queued_racing db0 calls s Hi Hw Hd) Hrun) as Hr.
  destruct (race_disk _ _ _ Hr) as [[_ Hnone]|[_ Hlast]]; [|done].
  destruct calls as [|c0 rest]; [done|].
  pose proof (race_calls _ _ _ Hr) as Hargs.
  destruct (tasks σ) as [|t ts] eqn:Hts; [done|].
  unfold all_returned in Hret. rewrite Hts in Hret.
  apply Forall_cons in Hret as [[res Hres] _].
  destruct (Hnone 0%nat). unfold has_returned, phase_at. rewrite Hts. simpl.
  unfold returned in Hres. destruct (at_ t); try done. by eexists.
Qed.

(** X21: in particular [N] calls issued together, each adding one document
    to the same collection, leave it one document longer, not [N]. *)
Corollary concurrent_single_inserts_persist_one (s : engine) (db0 : database)
    (name : string) (coll0 : list doc) (calls : list call)
    (schedule : list nat) (σ : system) :
  initialized s = true → writable s = true → disk s = Stored db0 →
  db0 !! name = Some coll0 →
  Forall (λ c, collectionName c = name ∧ ∃ d, documents c = One d) calls →
  calls ≠ [] →
  run (seq 0 (length calls) ++ schedule) (launch s calls) = Some σ →
  all_returned σ →
  ∃ docs, persisted σ name = Some docs ∧ length docs = S (length coll0).
Proof.
  intros Hi Hw Hd Hcoll Hsingle Hcalls Hrun Hret.
  destruct (concurrent_inserts_keep_one_write s db0 calls schedule σ)
    as (c & db' & r & Hc & Hwrites & Hdisk); try done.
  - eapply Forall_impl; [exact Hsingle|]. intros c [-> _]. by rewrite Hcoll.
  - eapply Forall_impl; [exact Hsingle|]. by intros c [_ [d ->]].
  - rewrite Forall_forall in Hsingle. destruct (Hsingle c Hc) as [Hn [d Hdoc]].
    unfold writes, insert_step in Hwrites. rewrite Hn, Hcoll, Hdoc in Hwrites.
    simpl in Hwrites. injection Hwrites as <- _.
    unfold persisted. rewrite Hdisk. unfold json_db.
    rewrite lookup_fmap, lookup_insert_eq. simpl. eexists. split; [done|].
    rewrite length_map, length_app. simpl. lia.
Qed.

Lemma concurrent_single_inserts_persist_one_witness :
  let s := Engine true (Stored {[ "users" := [] ]}) true in
  let one (who id : string) :=
    {| collectionName := "users"; documents := One {[ "name" := VStr who ]};
       timestamp := "2024-01-01T00:00:00.000Z"; _generateId := λ _, id |} in
  let calls := [one "Kofi" "a1"; one "Jane" "b2"; one "Ama" "c3"] in
  ∃ σ docs,
    run ([0; 1; 2] ++ [0; 0; 1; 2; 1; 2; 0; 1; 2])%nat (launch s calls) = Some σ
    ∧ persisted σ "users" = Some docs ∧ length docs = 1%nat.
Proof.
  intros s one calls.
  destruct (run ([0; 1; 2] ++ [0; 0; 1; 2; 1; 2; 0; 1; 2])%nat (launch s calls))
    as [σ|] eqn:Hrun; [|by vm_compute in Hrun].
  destruct (concurrent_single_inserts_persist_one s {[ "users" := [] ]} "users" []
    calls [0; 0; 1; 2; 1; 2; 0; 1; 2]%nat σ) as (docs & Hp & Hl); try done.
  - repeat constructor; eauto.
  - vm_compute in Hrun. injection Hrun as <-. unfold all_returned. simpl.
    repeat constructor; eauto.
  - by exists σ, docs.
Defined.

(** * Further properties of the engine *)

(** ** What persisting does to a document *)

Lemma json_doc_lookup (d : doc) (key : string) :
  json_doc d !! key = d !! key ≫= json_member.
Proof. unfold json_doc. apply lookup_omap. Qed.

Lemma json_roundtrip_primitive (x v : value) :
  primitive v → json_roundtrip x = v → x = v.
Proof. intros Hv <-. by destruct x. Qed.

(** A primitive member read from the persisted form of a document is
    what the document itself reads there. *)
Lemma get_json_doc_primitive (d : doc) (key : string) (v : value) :
  primitive v → get (json_doc d) key = v → get d key = v.
Proof.
  intros Hv. unfold get. rewrite json_doc_lookup.
  destruct (d !! key) as [x|]; simpl; [|done].
  destruct x; simpl; try done; destruct (inherited key); try done;
    intros [= <-]; done.
Qed.

(** A filter that the persisted form of a document matches is matched by
    the document. *)
Lemma _matchesQuery_json_doc (d query : doc) :
  _matchesQuery (json_doc d) query = true → _matchesQuery d query = true.
Proof.
  rewrite !_matchesQuery_spec. intros Hall key v Hk.
  destruct (Hall key v Hk) as [Hv Hg]. split; [done|].
  by apply get_json_doc_primitive.
Qed.

Lemma no_match_json_doc (d query : doc) :
  _matchesQuery d query = false → _matchesQuery (json_doc d) query = false.
Proof.
  intros Hm. destruct (_matchesQuery (json_doc d) query) eqn:E; [|done].
  apply _matchesQuery_json_doc in E. congruence.
Qed.

Lemma filter_json_docs_none (query : doc) (coll : list doc) :
  Forall (λ d, _matchesQuery d query = false) coll →
  List.filter (λ d, _matchesQuery d query) (map json_doc coll) = [].
Proof.
  intros Hnone. apply filter_none, Forall_forall. intros d Hd.
  apply list_elem_of_In, in_map_iff in Hd as (d0 & <- & Hin).
  apply no_match_json_doc. rewrite Forall_forall in Hnone.
  by apply Hnone, list_elem_of_In.
Qed.

Lemma json_db_lookup (db : database) (name : string) :
  json_db db !! name = map json_doc <$> db !! name.
Proof. unfold json_db. apply lookup_fmap. Qed.

Lemma parsed_collection (db : database) (name : string) (coll : list doc) :
  json_db db = db → db !! name = Some coll → map json_doc coll = coll.
Proof.
  intros Hp Hc. pose proof (json_db_lookup db name) as E.
  rewrite Hp, Hc in E. simpl in E. congruence.
Qed.

(** ** Closed forms of the operations on a readable engine *)

Lemma _writeDatabase_ok (s : engine) (data : database) :
  initialized s = true → writable s = true →
  _writeDatabase data s
  = (Ok (), {| initialized := true; disk := Stored (json_db data);
               writable := true |}).
Proof. intros Hi Hw. unfold _writeDatabase, write_locked. by rewrite Hi, Hw. Qed.

Lemma createCollection_ok (s : engine) (db : database) (name : string) :
  initialized s = true → writable s = true → disk s = Stored db →
  blank name = false → db !! name = None → inherited name = false →
  createCollection (VStr name) s
  = (Ok (), {| initialized := true;
               disk := Stored (json_db (<[name := []]> db));
               writable := true |}).
Proof.
  intros Hi Hw Hd Hb Hn Hp. run_engine. rewrite Hb, Hi, Hd. simpl.
  by rewrite Hn, Hp, Hi, Hw.
Qed.

Lemma createCollection_inherited (s : engine) (db : database) (name : string) :
  initialized s = true → disk s = Stored db →
  blank name = false → db !! name = None → inherited name = true →
  createCollection (VStr name) s = (Throw (DatabaseError COLLECTION_EXISTS), s).
Proof.
  intros Hi Hd Hb Hn Hp. run_engine. rewrite Hb, Hi, Hd. simpl.
  by rewrite Hn, Hp.
Qed.

Lemma dropCollection_inherited (s : engine) (db : database) (name : string) :
  initialized s = true → writable s = true → disk s = Stored db →
  db !! name = None → inherited name = true →
  dropCollection name s
  = (Ok (), {| initialized := true; disk := Stored (json_db db);
               writable := true |}).
Proof.
  intros Hi Hw Hd Hn Hp. run_engine. rewrite Hi, Hd. simpl.
  rewrite Hn, Hp, Hi, Hw. simpl. by rewrite delete_id.
Qed.

(** What the operations answer under a name the file does not hold. *)
Lemma find_missing `{Runtime} (s : engine) (db : database) (name : string)
    (query : doc) (options : find_options) :
  initialized s = true → disk s = Stored db → db !! name = None →
  find name query options s
  = (Throw (DatabaseError (if inherited name then FIND_ERROR
                           else COLLECTION_NOT_FOUND)), s).
Proof.
  intros Hi Hd Hn. rewrite (find_stored s db) by done.
  unfold find_step. rewrite Hn. by destruct (inherited name).
Qed.

Lemma insert_missing (s : engine) (db : database) (name : string)
    (docs : insert_arg) (ts : string) (gen : nat → string) :
  initialized s = true → disk s = Stored db → db !! name = None →
  as_array docs ≠ [] →
  insert name docs ts gen s
  = (Throw (DatabaseError (if inherited name then INSERT_ERROR
                           else COLLECTION_NOT_FOUND)), s).
Proof.
  intros Hi Hd Hn Hne. run_engine.
  destruct (as_array docs) as [|d ds]; [done|]. simpl.
  rewrite Hi, Hd. simpl. unfold insert_step. rewrite Hn.
  by destruct (inherited name).
Qed.

Lemma update_missing (s : engine) (db : database) (name : string)
    (query patch : doc) (options : update_options) (ts : string) :
  initialized s = true → disk s = Stored db → db !! name = None →
  update name query patch options ts s
  = (Throw (DatabaseError (if inherited name then UPDATE_ERROR
                           else COLLECTION_NOT_FOUND)), s).
Proof.
  intros Hi Hd Hn. run_engine. rewrite Hi, Hd. simpl. rewrite Hn.
  by destruct (inherited name).
Qed.

Lemma delete_missing (s : engine) (db : database) (name : string)
    (query : doc) (options : delete_options) :
  initialized s = true → disk s = Stored db → db !! name = None →
  delete name query options s
  = (Throw (DatabaseError (if inherited name then DELETE_ERROR
                           else COLLECTION_NOT_FOUND)), s).
Proof.
  intros Hi Hd Hn. run_engine. rewrite Hi, Hd. simpl. rewrite Hn.
  by destruct (inherited name).
Qed.

Lemma dropCollection_ok (s : engine) (db : database) (name : string)
    (coll : list doc) :
  initialized s = true → writable s = true → disk s = Stored db →
  db !! name = Some coll →
  dropCollection name s
  = (Ok (), {| initialized := true;
               disk := Stored (json_db (base.delete name db));
               writable := true |}).
Proof.
  intros Hi Hw Hd Hn. run_engine. rewrite Hi, Hd. simpl.
  by rewrite Hn, Hi, Hw.
Qed.

Lemma insert_ok (s : engine) (db : database) (name : string)
    (coll : list doc) (documents : insert_arg) (timestamp : string)
    (gen : nat → string) :
  initialized s = true → writable s = true → disk s = Stored db →
  db !! name = Some coll → as_array documents ≠ [] →
  let added := imap (λ i d, with_metadata timestamp (gen i) d)
                 (as_array documents) in
  insert name documents timestamp gen s
  = (Ok {| insertedCount := length added;
           insertedIds := map _id added |},
     {| initialized := true;
        disk := Stored (json_db (<[name := coll ++ added]> db));
        writable := true |}).
Proof.
  intros Hi Hw Hd Hn Hne added. run_engine.
  destruct (as_array documents) as [|d ds] eqn:E; [done|].
  change ((length (d :: ds) =? 0)%nat) with false. cbv beta iota.
  rewrite Hi, Hd. simpl. unfold insert_step. rewrite Hn. simpl.
  by rewrite Hi, Hw.
Qed.

Lemma count_stored `{Runtime} (s : engine) (db : database) (name : string)
    (coll : list doc) (query : doc) :
  initialized s = true → disk s = Stored db → db !! name = Some coll →
  count name query s
  = (Ok (length (List.filter (λ d, _matchesQuery d query) coll)), s).
Proof.
  intros Hi Hd Hc. unfold count, bind, ret.
  rewrite (find_stored s db) by done. unfold find_step. by rewrite Hc.
Qed.

(** ** Lifecycle *)

(** X1: an [init] that returns leaves an initialised engine whose file
    parses, so that the next read succeeds; it has not changed a file that
    was there; and calling it again returns and changes nothing. *)
Theorem init_makes_readable (s : engine) :
  (init s).1 = Ok () →
  let s' := (init s).2 in
  initialized s' = true
  ∧ (∃ db, disk s' = Stored db ∧ _readDatabase s' = (Ok db, s'))
  ∧ (disk s ≠ Absent → disk s' = disk s)
  ∧ (disk s = Absent → disk s' = Stored ∅)
  ∧ init s' = (Ok (), s').
Proof.
  unfold init. destruct (disk s) as [| |db] eqn:Hd; simpl.
  - destruct (writable s) eqn:Hw; simpl; [|done]. intros _.
    repeat split; try done. by exists ∅.
  - done.
  - intros _. repeat split; try done. by exists db.
Qed.

Lemma init_makes_readable_witness :
  let s' := (init (constructor Absent true)).2 in
  init s' = (Ok (), s').
Proof.
  intros s'.
  exact (proj2 (proj2 (proj2 (proj2
    (init_makes_readable (constructor Absent true) eq_refl))))).
Defined.

(** X2: [close] touches nothing but the flag: the file is as it was, every
    read is refused until [init] is called again, and that [init] gives
    back the engine as it was before [close]. *)
Theorem close_then_init (s : engine) (db : database) :
  initialized s = true → disk s = Stored db →
  let closed := (close s).2 in
  disk closed = disk s
  ∧ _readDatabase closed = (Throw (DatabaseError NOT_INITIALIZED), closed)
  ∧ init closed = (Ok (), s).
Proof.
  intros Hi Hd closed. destruct s as [i f w]. simpl in *. subst.
  by repeat split.
Qed.

Lemma close_then_init_witness :
  let s := Engine true (Stored {[ "users" := [] ]}) true in
  init (close s).2 = (Ok (), s).
Proof.
  intros s.
  exact (proj2 (proj2 (close_then_init s {[ "users" := [] ]} eq_refl eq_refl))).
Defined.

(** X3: [create] on a path where no file exists, when the file can be
    written, returns an engine over the empty database: [getStats] counts
    no collection and every [find] is answered [COLLECTION_NOT_FOUND],
    or, under the name of a member of [Object.prototype], [FIND_ERROR];
    when the file cannot be written the raw error comes out and the engine
    stays uninitialised. *)
Theorem create_on_absent_file `{Runtime} (w : bool) :
  (w = true →
   let s := (create Absent w).2 in
   (create Absent w).1 = Ok ()
   ∧ (∃ st, getStats s = (Ok st, s) ∧ totalCollections st = 0%nat
            ∧ collections st = ∅)
   ∧ ∀ name query options,
       find name query options s
       = (Throw (DatabaseError (if inherited name then FIND_ERROR
                                else COLLECTION_NOT_FOUND)), s))
  ∧ (w = false →
     create Absent w = (Throw FsError, constructor Absent w)).
Proof.
  split; intros ->; [|done]. simpl. split; [done|]. split.
  - eexists. split; [reflexivity|]. split; [done|]. simpl.
    by rewrite fmap_empty, delete_empty.
  - intros name query options. by apply (find_missing _ ∅).
Qed.

(** ** Collections *)

Lemma slice_nil {A} (start end_ : Z) : slice (@nil A) start end_ = [].
Proof. unfold slice. by rewrite drop_nil, take_nil. Qed.

Lemma paginate_nil (options : find_options) : paginate options [] = [].
Proof.
  unfold paginate. destruct (limit options) as [l|]; [|done].
  destruct (l =? 0); [done|]. apply slice_nil.
Qed.

(** X4: [createCollection] under a name that is not blank, that the file
    does not hold and that is not the name of a member of
    [Object.prototype] returns, and the collection is there and empty:
    every [find] on it returns no document, [count] returns 0, creating it
    again is refused with [COLLECTION_EXISTS] without a write, and
    [getStats] counts one collection more than before.  Under the name of a
    member of [Object.prototype] it is refused from the start, with
    [COLLECTION_EXISTS] and without a write. *)
Theorem created_collection_is_empty `{Conforming} (s : engine) (db : database)
    (name : string) :
  initialized s = true → writable s = true → disk s = Stored db →
  blank name = false → db !! name = None →
  (inherited name = true →
   createCollection (VStr name) s
   = (Throw (DatabaseError COLLECTION_EXISTS), s))
  ∧ (inherited name = false →
     let s' := (createCollection (VStr name) s).2 in
     (createCollection (VStr name) s).1 = Ok ()
     ∧ (∀ query options,
          find name query options s' = (Ok {| data := []; count_ := 0 |}, s'))
     ∧ (∀ query, count name query s' = (Ok 0%nat, s'))
     ∧ createCollection (VStr name) s'
       = (Throw (DatabaseError COLLECTION_EXISTS), s')
     ∧ ∃ st, getStats s' = (Ok st, s')
             ∧ totalCollections st = S (size db)).
Proof.
  intros Hi Hw Hd Hb Hn. split; [by apply (createCollection_inherited s db)|].
  intros Hp s'. unfold s'.
  rewrite (createCollection_ok s db name) by done. simpl.
  assert (Hl : json_db (<[name:=[]]> db) !! name = Some []).
  { by rewrite json_db_lookup, lookup_insert_eq. }
  split; [done|]. split; [|split; [|split]].
  - intros query options.
    rewrite (find_stored _ (json_db (<[name:=[]]> db))) by done.
    unfold find_step. rewrite Hl. simpl.
    destruct (sort options) as [sp|]; simpl; [|by rewrite paginate_nil].
    assert (E : _sortDocuments [] sp = Some []).
    { destruct (sort_returns (compare_docs sp) (compare_value sp) [])
        as [sorted Hs]; [by intros a b Ha%elem_of_nil|].
      unfold _sortDocuments. rewrite Hs. f_equal.
      apply Permutation_nil. symmetry. by apply (sort_permutation _ _ _ Hs). }
    by rewrite E, paginate_nil.
  - intros query.
    by rewrite (count_stored _ (json_db (<[name:=[]]> db)) name []).
  - run_engine. rewrite Hb. simpl. by rewrite Hl.
  - eexists. split; [reflexivity|]. simpl. unfold json_db.
    rewrite map_size_fmap. by apply map_size_insert_None.
Qed.

Lemma created_collection_is_empty_witness :
  let s := Engine true (Stored ∅) true in
  let s' := (createCollection (VStr "users") s).2 in
  count "users" ∅ s' = (Ok 0%nat, s')
  ∧ createCollection (VStr "constructor") s
    = (Throw (DatabaseError COLLECTION_EXISTS), s).
Proof.
  intros s s'.
  split.
  - exact (proj1 (proj2 (proj2 (proj2 (created_collection_is_empty s ∅ "users"
      eq_refl eq_refl eq_refl eq_refl eq_refl) eq_refl))) ∅).
  - exact (proj1 (created_collection_is_empty s ∅ "constructor"
      eq_refl eq_refl eq_refl eq_refl eq_refl) eq_refl).
Defined.

(** X5: on a file that holds what a parse produces, dropping a collection
    right after creating it gives back the engine exactly as it was. *)
Theorem create_then_drop (s : engine) (db : database) (name : string) :
  initialized s = true → writable s = true → disk s = Stored db →
  json_db db = db → blank name = false → db !! name = None →
  dropCollection name (createCollection (VStr name) s).2 = (Ok (), s).
Proof.
  intros Hi Hw Hd Hp Hb Hn. destruct (inherited name) eqn:Hin.
  - rewrite (createCollection_inherited s db name) by done. simpl.
    rewrite (dropCollection_inherited s db name) by done. rewrite Hp.
    destruct s; simpl in *; congruence.
  - rewrite (createCollection_ok s db name) by done. simpl.
    rewrite (dropCollection_ok _ (json_db (<[name:=[]]> db)) name [])
      by (try done; by rewrite json_db_lookup, lookup_insert_eq).
    unfold json_db at 2. rewrite fmap_insert. fold (json_db db). rewrite Hp.
    simpl. rewrite delete_insert_eq, delete_id by done. rewrite Hp.
    destruct s; simpl in *; congruence.
Qed.

Lemma create_then_drop_witness :
  let s := Engine true (Stored {[ "posts" := [] ]}) true in
  dropCollection "users" (createCollection (VStr "users") s).2 = (Ok (), s).
Proof.
  intros s.
  apply (create_then_drop s {[ "posts" := [] ]} "users"); reflexivity.
Defined.

(** X6: [dropCollection] on a collection the file holds returns, and the
    file holds it no more.  From then on [find], [insert], [update],
    [delete] and a second [dropCollection] on that name are all answered
    [COLLECTION_NOT_FOUND] and write nothing, unless the name is that of a
    member of [Object.prototype]: then [find], [insert], [update] and
    [delete] are answered [FIND_ERROR], [INSERT_ERROR], [UPDATE_ERROR] and
    [DELETE_ERROR], still without a write, and a second [dropCollection]
    returns, leaving the file as it is. *)
Theorem dropped_collection_is_gone `{Runtime} (s : engine) (db : database)
    (name : string) (coll : list doc) :
  initialized s = true → writable s = true → disk s = Stored db →
  db !! name = Some coll →
  let s' := (dropCollection name s).2 in
  let thrown {A} (c : code) (r : outcome A * engine) :=
    r = (Throw (DatabaseError c), s') in
  (dropCollection name s).1 = Ok ()
  ∧ stored s' name = None
  ∧ (inherited name = false →
     (∀ query options, thrown COLLECTION_NOT_FOUND (find name query options s'))
     ∧ (∀ documents timestamp gen, as_array documents ≠ [] →
          thrown COLLECTION_NOT_FOUND (insert name documents timestamp gen s'))
     ∧ (∀ query patch options timestamp,
          thrown COLLECTION_NOT_FOUND
            (update name query patch options timestamp s'))
     ∧ (∀ query options,
          thrown COLLECTION_NOT_FOUND (delete name query options s'))
     ∧ thrown COLLECTION_NOT_FOUND (dropCollection name s'))
  ∧ (inherited name = true →
     (∀ query options, thrown FIND_ERROR (find name query options s'))
     ∧ (∀ documents timestamp gen, as_array documents ≠ [] →
          thrown INSERT_ERROR (insert name documents timestamp gen s'))
     ∧ (∀ query patch options timestamp,
          thrown UPDATE_ERROR (update name query patch options timestamp s'))
     ∧ (∀ query options, thrown DELETE_ERROR (delete name query options s'))
     ∧ dropCollection name s' = (Ok (), s')).
Proof.
  intros Hi Hw Hd Hn s' thrown. unfold thrown, s'.
  rewrite (dropCollection_ok s db name coll) by done. simpl.
  set (db' := json_db (base.delete name db)).
  assert (Hl : db' !! name = None).
  { unfold db'. by rewrite json_db_lookup, lookup_delete_eq. }
  split; [done|]. split; [done|]. split; intros Hp.
  - split; [|split; [|split; [|split]]].
    + intros query options. rewrite (find_missing _ db') by done. by rewrite Hp.
    + intros docs ts gen Hne.
      rewrite (insert_missing _ db') by done. by rewrite Hp.
    + intros query patch options ts.
      rewrite (update_missing _ db') by done. by rewrite Hp.
    + intros query options. rewrite (delete_missing _ db') by done. by rewrite Hp.
    + run_engine. simpl. by rewrite Hl, Hp.
  - split; [|split; [|split; [|split]]].
    + intros query options. rewrite (find_missing _ db') by done. by rewrite Hp.
    + intros docs ts gen Hne.
      rewrite (insert_missing _ db') by done. by rewrite Hp.
    + intros query patch options ts.
      rewrite (update_missing _ db') by done. by rewrite Hp.
    + intros query options. rewrite (delete_missing _ db') by done. by rewrite Hp.
    + rewrite (dropCollection_inherited _ db') by done.
      unfold db'. by rewrite json_db_idempotent.
Qed.

Lemma dropped_collection_is_gone_witness :
  let s := Engine true (Stored {[ "users" := [] ]}) true in
  let s' := (dropCollection "users" s).2 in
  dropCollection "users" s'
  = (Throw (DatabaseError COLLECTION_NOT_FOUND), s').
Proof.
  intros s s'.
  exact (proj2 (proj2 (proj2 (proj2 (proj1 (proj2 (proj2
    (dropped_collection_is_gone s {[ "users" := [] ]} "users" []
       eq_refl eq_refl eq_refl eq_refl))) eq_refl))))).
Defined.

(** ** Insert *)

Lemma map_is_fmap {A B} (f : A → B) (l : list A) : map f l = f <$> l.
Proof. induction l as [|x l IH]; simpl; by rewrite ?IH. Qed.

Lemma with_metadata_fields (ts id : string) (d : doc) :
  with_metadata ts id d !! "_id" = Some (VStr id)
  ∧ with_metadata ts id d !! "_createdAt" = Some (VStr ts)
  ∧ with_metadata ts id d !! "_updatedAt" = Some (VStr ts)
  ∧ ∀ key, key ≠ "_id" → key ≠ "_createdAt" → key ≠ "_updatedAt" →
      with_metadata ts id d !! key = d !! key.
Proof.
  unfold with_metadata. repeat split.
  - do 2 rewrite lookup_insert_ne by done. by rewrite lookup_insert_eq.
  - rewrite lookup_insert_ne by done. by rewrite lookup_insert_eq.
  - by rewrite lookup_insert_eq.
  - intros key H1 H2 H3. by do 3 rewrite lookup_insert_ne by done.
Qed.

Lemma inserted_ids (ts : string) (gen : nat → string) (docs : list doc) :
  map _id (imap (λ i d, with_metadata ts (gen i) d) docs)
  = (λ i, VStr (gen i)) <$> seq 0 (length docs).
Proof.
  rewrite map_is_fmap, fmap_imap, <- imap_seq_0. apply imap_ext.
  intros i d _. simpl. unfold _id.
  by rewrite (proj1 (with_metadata_fields ts (gen i) d)).
Qed.

(** X7: [insert] on an existing collection of a file that holds what a
    parse produces appends: the documents already there stay as they are
    and where they are, the new ones follow in the order given, one per
    input document; it returns their number and, in that order, the
    identifiers drawn for them; and [count] with the empty filter grows by
    that number. *)
Theorem insert_appends `{Runtime} (s : engine) (db : database) (name : string)
    (coll : list doc) (docs : insert_arg) (ts : string) (gen : nat → string) :
  initialized s = true → writable s = true → disk s = Stored db →
  json_db db = db → db !! name = Some coll → as_array docs ≠ [] →
  let n := length (as_array docs) in
  let s' := (insert name docs ts gen s).2 in
  (insert name docs ts gen s).1
  = Ok {| insertedCount := n;
          insertedIds := (λ i, VStr (gen i)) <$> seq 0 n |}
  ∧ (∃ added, stored s' name = Some (coll ++ added) ∧ length added = n)
  ∧ count name ∅ s = (Ok (length coll), s)
  ∧ count name ∅ s' = (Ok (length coll + n)%nat, s').
Proof.
  intros Hi Hw Hd Hp Hc Hne n s'. unfold s'.
  rewrite (insert_ok s db name coll) by done. cbn [fst snd].
  rewrite inserted_ids, length_imap.
  set (added := imap (λ i d, with_metadata ts (gen i) d) (as_array docs)).
  assert (Hlen : length added = n) by apply length_imap.
  assert (Hl : json_db (<[name := coll ++ added]> db) !! name
               = Some (coll ++ map json_doc added)).
  { rewrite json_db_lookup, lookup_insert_eq. simpl.
    by rewrite map_app, (parsed_collection db name coll). }
  split; [|split; [|split]].
  - done.
  - exists (map json_doc added). unfold stored. simpl.
    split; [done|]. by rewrite length_map.
  - rewrite (count_stored s db name coll) by done.
    by rewrite filter_empty_query.
  - rewrite (count_stored _ (json_db (<[name := coll ++ added]> db)) name
               (coll ++ map json_doc added)) by done.
    by rewrite filter_empty_query, length_app, length_map, Hlen.
Qed.

Lemma insert_appends_witness :
  let s := Engine true (Stored {[ "users" := [] ]}) true in
  let s' := (insert "users" (One {[ "name" := VStr "Kofi" ]}) "T"
               (λ _, "id0") s).2 in
  count "users" ∅ s' = (Ok 1%nat, s').
Proof.
  intros s s'.
  exact (proj2 (proj2 (proj2 (insert_appends s {[ "users" := [] ]} "users" []
    (One {[ "name" := VStr "Kofi" ]}) "T" (λ _, "id0")
    eq_refl eq_refl eq_refl eq_refl eq_refl ltac:(discriminate))))).
Defined.

(** X8: the document stored for the [i]-th input document carries the
    identifier drawn for it and the call's timestamp as both [_createdAt]
    and [_updatedAt], whatever the caller had put under those names; every
    other field the caller gave is held in its persisted form, one that is
    [undefined] not at all, and no field is added. *)
Theorem inserted_document_fields (s : engine) (db : database) (name : string)
    (coll : list doc) (docs : insert_arg) (ts : string) (gen : nat → string)
    (i : nat) (d : doc) :
  initialized s = true → writable s = true → disk s = Stored db →
  db !! name = Some coll → as_array docs !! i = Some d →
  ∃ now x,
    stored (insert name docs ts gen s).2 name = Some now
    ∧ now !! (length coll + i)%nat = Some x
    ∧ get x "_id" = VStr (gen i)
    ∧ get x "_createdAt" = VStr ts
    ∧ get x "_updatedAt" = VStr ts
    ∧ ∀ key, key ≠ "_id" → key ≠ "_createdAt" → key ≠ "_updatedAt" →
        x !! key = d !! key ≫= json_member.
Proof.
  intros Hi Hw Hd Hc Hdoc.
  assert (Hne : as_array docs ≠ []) by (intros E; by rewrite E in Hdoc).
  rewrite (insert_ok s db name coll) by done. unfold stored. simpl.
  rewrite json_db_lookup, lookup_insert_eq. simpl.
  eexists _, (json_doc (with_metadata ts (gen i) d)). split; [done|].
  destruct (with_metadata_fields ts (gen i) d) as (F1 & F2 & F3 & F4).
  split; [|split; [|split; [|split]]].
  - rewrite map_is_fmap, fmap_app, lookup_app_r by (rewrite length_fmap; lia).
    rewrite length_fmap, Nat.add_comm, Nat.add_sub.
    by rewrite list_lookup_fmap, list_lookup_imap, Hdoc.
  - apply get_own. by rewrite json_doc_lookup, F1.
  - apply get_own. by rewrite json_doc_lookup, F2.
  - apply get_own. by rewrite json_doc_lookup, F3.
  - intros key H1 H2 H3. by rewrite json_doc_lookup, F4.
Qed.

Lemma inserted_document_fields_witness :
  let s := Engine true (Stored {[ "users" := [] ]}) true in
  let d : doc := {[ "_id" := VStr "mine"; "name" := VStr "Kofi" ]} in
  ∃ now x,
    stored (insert "users" (One d) "T" (λ _, "id0") s).2 "users" = Some now
    ∧ now !! 0%nat = Some x ∧ get x "_id" = VStr "id0".
Proof.
  intros s d.
  destruct (inserted_document_fields s {[ "users" := [] ]} "users" []
    (One d) "T" (λ _, "id0") 0 d eq_refl eq_refl eq_refl eq_refl eq_refl)
    as (now & x & H1 & H2 & H3 & _).
  by exists now, x.
Defined.

Lemma _matchesQuery_singleton (d : doc) (key : string) (v : value) :
  _matchesQuery d {[ key := v ]} = strict_eq (get d key) v.
Proof.
  unfold _matchesQuery. rewrite map_to_list_singleton. simpl.
  unfold strict_neq. by destruct (strict_eq (get d key) v).
Qed.

(** X9: a document inserted under an identifier that no document of the
    collection carries is the one [findOne] returns for the filter on that
    identifier. *)
Theorem insert_then_findOne `{Runtime} (s : engine) (db : database)
    (name : string) (coll : list doc) (d : doc) (ts : string)
    (gen : nat → string) :
  initialized s = true → writable s = true → disk s = Stored db →
  db !! name = Some coll →
  Forall (λ x, get x "_id" ≠ VStr (gen 0%nat)) coll →
  let s' := (insert name (One d) ts gen s).2 in
  findOne name {[ "_id" := VStr (gen 0%nat) ]} s'
  = (Ok {| found := Some (json_doc (with_metadata ts (gen 0%nat) d));
           found_count := 1 |}, s').
Proof.
  intros Hi Hw Hd Hc Hfresh s'. unfold s'.
  rewrite (insert_ok s db name coll) by done. simpl.
  set (x := with_metadata ts (gen 0%nat) d).
  unfold findOne, rethrow, bind, ret.
  rewrite (find_stored _ (json_db (<[name := coll ++ [x]]> db))) by done.
  unfold find_step. rewrite json_db_lookup, lookup_insert_eq. simpl.
  rewrite map_app, List.filter_app, filter_json_docs_none.
  2:{ eapply Forall_impl; [exact Hfresh|]. intros y Hy.
      rewrite _matchesQuery_singleton.
      destruct (strict_eq (get y "_id") (VStr (gen 0%nat))) eqn:E; [|done].
      apply strict_eq_true in E as [_ E]. done. }
  assert (Hx : get (json_doc x) "_id" = VStr (gen 0%nat)).
  { apply get_own. rewrite json_doc_lookup. unfold x.
    by rewrite (proj1 (with_metadata_fields ts (gen 0%nat) d)). }
  cbn [map List.filter app]. rewrite _matchesQuery_singleton, Hx.
  rewrite (proj2 (strict_eq_true _ _)) by done.
  unfold paginate. simpl. done.
Qed.

Lemma insert_then_findOne_witness :
  let s := Engine true (Stored {[ "users" := [] ]}) true in
  let d : doc := {[ "name" := VStr "Kofi" ]} in
  let s' := (insert "users" (One d) "T" (λ _, "id0") s).2 in
  findOne "users" {[ "_id" := VStr "id0" ]} s'
  = (Ok {| found := Some (json_doc (with_metadata "T" "id0" d));
           found_count := 1 |}, s').
Proof.
  intros s d s'.
  apply (insert_then_findOne s {[ "users" := [] ]} "users" [] d "T" (λ _, "id0"));
    try reflexivity. constructor.
Defined.

(** ** Failures *)

(** X10: an operation that throws has written nothing and has not touched
    the flag (a [fs.writeFile] that fails being taken to leave the file as
    it was): the engine after the call is the engine before it. *)
Theorem failures_change_nothing (s : engine) :
  (∀ e, (init s).1 = Throw e → (init s).2 = s)
  ∧ (∀ name e, (createCollection name s).1 = Throw e →
       (createCollection name s).2 = s)
  ∧ (∀ name e, (dropCollection name s).1 = Throw e →
       (dropCollection name s).2 = s)
  ∧ (∀ name docs ts gen e, (insert name docs ts gen s).1 = Throw e →
       (insert name docs ts gen s).2 = s)
  ∧ (∀ name query patch options ts e,
       (update name query patch options ts s).1 = Throw e →
       (update name query patch options ts s).2 = s)
  ∧ (∀ name query options e, (delete name query options s).1 = Throw e →
       (delete name query options s).2 = s).
Proof.
  split; [|split; [|split; [|split; [|split]]]].
  - intros e. unfold init. destruct (disk s); [destruct (writable s)| |]; done.
  - intros name e. run_engine. destruct name as [| | | |n| |]; try done.
    destruct (blank n); [done|].
    destruct (initialized s) eqn:Hi; simpl; [|done].
    destruct (disk s) as [| |db]; simpl; try done.
    destruct (db !! n); [done|]. destruct (inherited n); [done|].
    rewrite Hi. simpl. by destruct (writable s).
  - intros name e. run_engine.
    destruct (initialized s) eqn:Hi; simpl; [|done].
    destruct (disk s) as [| |db]; simpl; try done.
    destruct (db !! name); [|destruct (inherited name); [|done]];
      rewrite Hi; simpl; by destruct (writable s).
  - intros name docs ts gen e. run_engine.
    destruct (length (as_array docs) =? 0)%nat; [done|].
    destruct (initialized s) eqn:Hi; simpl; [|done].
    destruct (disk s) as [| |db]; simpl; try done.
    destruct (insert_step name (as_array docs) ts gen db) as [[db' r]|[c| |]];
      try done.
    rewrite Hi. simpl. by destruct (writable s).
  - intros name query patch options ts e. run_engine.
    destruct (initialized s) eqn:Hi; simpl; [|done].
    destruct (disk s) as [| |db]; simpl; try done.
    destruct (db !! name) as [coll|]; [|by destruct (inherited name)].
    destruct (update_map query patch options ts coll 0) as [coll' n].
    destruct ((n =? 0)%nat && negb (upsert options)); [done|].
    rewrite Hi. simpl. by destruct (writable s).
  - intros name query options e. run_engine.
    destruct (initialized s) eqn:Hi; simpl; [|done].
    destruct (disk s) as [| |db]; simpl; try done.
    destruct (db !! name) as [coll|]; [|by destruct (inherited name)].
    match goal with |- context [if ?b then _ else _] => destruct b end; [done|].
    rewrite Hi. simpl. by destruct (writable s).
Qed.

(** ** Reading *)

Lemma slice_first {A} (l : list A) : slice l 0 (0 + 1) = take 1 l.
Proof. rewrite slice_window by lia. unfold window. by rewrite drop_0. Qed.

(** X11: [findOne] returns the first document of the collection, in
    collection order, that matches the filter, with a count of 1; when no
    document matches it returns no document and a count of 0, and does not
    throw. *)
Theorem findOne_first_match `{Runtime} (s : engine) (db : database)
    (name : string) (coll : list doc) (query : doc) :
  initialized s = true → disk s = Stored db → db !! name = Some coll →
  (Forall (λ d, _matchesQuery d query = false) coll →
   findOne name query s = (Ok {| found := None; found_count := 0 |}, s))
  ∧ (∀ before d after,
       coll = before ++ d :: after →
       Forall (λ x, _matchesQuery x query = false) before →
       _matchesQuery d query = true →
       findOne name query s
       = (Ok {| found := Some d; found_count := 1 |}, s)).
Proof.
  intros Hi Hd Hc. split.
  - intros Hnone. unfold findOne, rethrow, bind, ret.
    rewrite (find_stored s db) by done. unfold find_step. rewrite Hc.
    by rewrite filter_none.
  - intros before d after -> Hb Hm. unfold findOne, rethrow, bind, ret.
    rewrite (find_stored s db) by done. unfold find_step. rewrite Hc.
    rewrite List.filter_app, filter_none by done. simpl. rewrite Hm.
    unfold paginate. simpl. by rewrite slice_first.
Qed.

Lemma findOne_first_match_witness :
  let a : doc := {[ "team" := VStr "red"; "n" := VNum 1 ]} in
  let b : doc := {[ "team" := VStr "blue"; "n" := VNum 2 ]} in
  let c : doc := {[ "team" := VStr "blue"; "n" := VNum 3 ]} in
  let s := Engine true (Stored {[ "users" := [a; b; c] ]}) true in
  findOne "users" {[ "team" := VStr "blue" ]} s
  = (Ok {| found := Some b; found_count := 1 |}, s).
Proof.
  intros a b c s.
  apply (proj2 (findOne_first_match s {[ "users" := [a; b; c] ]} "users"
    [a; b; c] {[ "team" := VStr "blue" ]} eq_refl eq_refl eq_refl) [a] b [c]).
  - reflexivity.
  - repeat constructor.
  - reflexivity.
Defined.

Lemma delete_ok (s : engine) (db : database) (name : string)
    (coll : list doc) (query : doc) (options : delete_options) :
  initialized s = true → writable s = true → disk s = Stored db →
  db !! name = Some coll →
  List.filter (λ d, _matchesQuery d query) coll ≠ [] →
  delete name query options s
  = (Ok (length (List.filter (λ d, _matchesQuery d query) coll)),
     {| initialized := true;
        disk := Stored (json_db
                  (<[name := List.filter (λ d, negb (_matchesQuery d query)) coll]>
                     db));
        writable := true |}).
Proof.
  intros Hi Hw Hd Hc Hne. run_engine. rewrite Hi, Hd. simpl. rewrite Hc.
  rewrite deletedCount_matches.
  destruct (List.filter (λ d, _matchesQuery d query) coll) as [|x l] eqn:E;
    [done|].
  simpl. by rewrite Hi, Hw.
Qed.

(** X12: [count] returns the number of documents that match the filter;
    when that number is not zero [delete] with the same filter returns it,
    after which [count] with that filter returns 0 and the collection has
    that many documents less. *)
Theorem count_then_delete `{Runtime} (s : engine) (db : database)
    (name : string) (coll : list doc) (query : doc) (options : delete_options) :
  initialized s = true → writable s = true → disk s = Stored db →
  db !! name = Some coll →
  let n := length (List.filter (λ d, _matchesQuery d query) coll) in
  let s' := (delete name query options s).2 in
  count name query s = (Ok n, s)
  ∧ (n ≠ 0%nat →
     (delete name query options s).1 = Ok n
     ∧ count name query s' = (Ok 0%nat, s')
     ∧ count name ∅ s' = (Ok (length coll - n)%nat, s')).
Proof.
  intros Hi Hw Hd Hc n s'. split; [by apply (count_stored s db)|]. intros Hn.
  assert (Hne : List.filter (λ d, _matchesQuery d query) coll ≠ []).
  { intros E. apply Hn. unfold n. by rewrite E. }
  unfold s'. rewrite (delete_ok s db name coll query options) by done.
  simpl. split; [done|].
  set (kept := List.filter (λ d, negb (_matchesQuery d query)) coll) in *.
  assert (Hkept : Forall (λ d, _matchesQuery d query = false) kept).
  { apply Forall_forall. intros d Hin.
    apply list_elem_of_In, filter_In in Hin as [_ Hm].
    by apply negb_true_iff in Hm. }
  assert (Hl : json_db (<[name:=kept]> db) !! name = Some (map json_doc kept)).
  { by rewrite json_db_lookup, lookup_insert_eq. }
  split.
  - rewrite (count_stored _ (json_db (<[name:=kept]> db)) name
               (map json_doc kept)) by done.
    by rewrite filter_json_docs_none.
  - rewrite (count_stored _ (json_db (<[name:=kept]> db)) name
               (map json_doc kept)) by done.
    rewrite filter_empty_query, length_map. do 2 f_equal.
    pose proof (deletedCount_matches query coll) as Hcount.
    fold kept n in Hcount. lia.
Qed.

Lemma count_then_delete_witness :
  let a : doc := {[ "team" := VStr "red" ]} in
  let b : doc := {[ "team" := VStr "blue" ]} in
  let s := Engine true (Stored {[ "users" := [a; b; a] ]}) true in
  count "users" {[ "team" := VStr "red" ]} s = (Ok 2%nat, s).
Proof.
  intros a b s.
  exact (proj1 (count_then_delete s {[ "users" := [a; b; a] ]} "users"
    [a; b; a] {[ "team" := VStr "red" ]} {| delete_multi := false |}
    eq_refl eq_refl eq_refl eq_refl)).
Defined.

(** X13: on a readable engine [getStats] returns and counts the
    collections of the file.  It reports every collection but one named
    [__proto__] (under that name the assignment to [stats.collections]
    sets a prototype, not a member), and for each it reports the number of
    documents that [count] with the empty filter returns.  A name it does
    not report, other than [__proto__], is a name [count] answers
    [COLLECTION_NOT_FOUND], or [FIND_ERROR] when it is the name of a member
    of [Object.prototype]. *)
Theorem getStats_agrees_with_count `{Runtime} (s : engine) (db : database) :
  initialized s = true → disk s = Stored db →
  ∃ st,
    getStats s = (Ok st, s)
    ∧ totalCollections st = size db
    ∧ (∀ name cs, collections st !! name = Some cs →
         count name ∅ s = (Ok (documentCount cs), s))
    ∧ (∀ name coll, db !! name = Some coll → name ≠ "__proto__" →
         ∃ cs, collections st !! name = Some cs)
    ∧ collections st !! "__proto__" = None
    ∧ (∀ name, collections st !! name = None → name ≠ "__proto__" →
         count name ∅ s
         = (Throw (DatabaseError (if inherited name then FIND_ERROR
                                  else COLLECTION_NOT_FOUND)), s)).
Proof.
  intros Hi Hd. eexists. split; [|split; [|split; [|split; [|split]]]].
  - run_engine. rewrite Hi, Hd. reflexivity.
  - done.
  - intros name cs. simpl. intros Hcs.
    apply lookup_delete_Some in Hcs as [_ Hcs]. rewrite lookup_fmap in Hcs.
    destruct (db !! name) as [coll|] eqn:Hc; simpl in Hcs; [|done].
    injection Hcs as <-. rewrite (count_stored s db name coll) by done.
    by rewrite filter_empty_query.
  - intros name coll Hc Hne. simpl. eexists.
    rewrite lookup_delete_ne by done. by rewrite lookup_fmap, Hc.
  - simpl. apply lookup_delete_eq.
  - intros name. simpl. intros Hnone Hne.
    rewrite lookup_delete_ne, lookup_fmap in Hnone by done.
    destruct (db !! name) as [coll|] eqn:Hc; simpl in Hnone; [done|].
    unfold count, bind. by rewrite (find_missing s db).
Qed.

Lemma getStats_agrees_with_count_witness :
  let s := Engine true (Stored {[ "users" := [∅; ∅] ]}) true in
  ∃ st, getStats s = (Ok st, s) ∧ totalCollections st = 1%nat.
Proof.
  intros s.
  destruct (getStats_agrees_with_count s {[ "users" := [∅; ∅] ]}
    eq_refl eq_refl) as (st & Hst & Htotal & _).
  exists st. split; [done|]. rewrite Htotal. reflexivity.
Defined.

(** ** What a mutation leaves alone *)

(** X14: on a file that holds what a parse produces, an operation on one
    collection, whether it returns or throws, leaves the documents of every
    other collection as they were. *)
Theorem other_collections_untouched (s : engine) (name other : string) :
  parsed s → other ≠ name →
  (stored (createCollection (VStr name) s).2 other = stored s other)
  ∧ (stored (dropCollection name s).2 other = stored s other)
  ∧ (∀ docs ts gen,
       stored (insert name docs ts gen s).2 other = stored s other)
  ∧ (∀ query patch options ts,
       stored (update name query patch options ts s).2 other = stored s other)
  ∧ (∀ query options,
       stored (delete name query options s).2 other = stored s other).
Proof.
  intros Hp Hne. unfold parsed in Hp.
  assert (Hw : ∀ coll db, disk s = Stored db →
    stored (write_locked (<[name := coll]> db) s).2 other = stored s other).
  { intros coll db Hd. unfold write_locked, stored.
    destruct (writable s); simpl; [|done]. rewrite Hd in Hp |- *.
    by rewrite json_db_lookup, lookup_insert_ne, <- json_db_lookup, Hp. }
  unfold write_locked in Hw.
  split; [|split; [|split; [|split]]].
  - run_engine. destruct (blank name); [done|].
    destruct (initialized s) eqn:Hi; simpl; [|done].
    destruct (disk s) as [| |db] eqn:Hd; simpl; try done.
    destruct (db !! name); [done|]. destruct (inherited name); [done|].
    rewrite Hi. simpl.
    specialize (Hw [] db eq_refl). by destruct (writable s).
  - run_engine. destruct (initialized s) eqn:Hi; simpl; [|done].
    destruct (disk s) as [| |db] eqn:Hd; simpl; try done.
    destruct (db !! name); [|destruct (inherited name); [|done]];
      rewrite Hi; simpl; unfold stored; (destruct (writable s); simpl; [|done]);
      rewrite Hd;
      by rewrite json_db_lookup, lookup_delete_ne, <- json_db_lookup, Hp.
  - intros docs ts gen. run_engine.
    destruct (length (as_array docs) =? 0)%nat; [done|].
    destruct (initialized s) eqn:Hi; simpl; [|done].
    destruct (disk s) as [| |db] eqn:Hd; simpl; try done.
    unfold insert_step.
    destruct (db !! name) as [coll|]; [|by destruct (inherited name)].
    rewrite Hi. simpl.
    match goal with |- context [<[name := ?c]> db] =>
      specialize (Hw c db eq_refl) end.
    by destruct (writable s).
  - intros query patch options ts. run_engine.
    destruct (initialized s) eqn:Hi; simpl; [|done].
    destruct (disk s) as [| |db] eqn:Hd; simpl; try done.
    destruct (db !! name) as [coll|]; [|by destruct (inherited name)].
    destruct (update_map query patch options ts coll 0) as [coll' n].
    destruct ((n =? 0)%nat && negb (upsert options)); [done|].
    rewrite Hi. simpl. specialize (Hw coll' db eq_refl).
    by destruct (writable s).
  - intros query options. run_engine.
    destruct (initialized s) eqn:Hi; simpl; [|done].
    destruct (disk s) as [| |db] eqn:Hd; simpl; try done.
    destruct (db !! name) as [coll|]; [|by destruct (inherited name)].
    match goal with |- context [if ?b then _ else _] => destruct b end;
      [done|].
    rewrite Hi. simpl.
    match goal with |- context [<[name := ?c]> db] =>
      specialize (Hw c db eq_refl) end.
    by destruct (writable s).
Qed.

Lemma other_collections_untouched_witness :
  let a : doc := {[ "n" := VNum 1 ]} in
  let s := Engine true (Stored {[ "users" := [a]; "posts" := [a; a] ]}) true in
  stored (dropCollection "users" s).2 "posts" = stored s "posts".
Proof.
  intros a s.
  refine (proj1 (proj2 (other_collections_untouched s "users" "posts" _ _))).
  - vm_compute. reflexivity.
  - discriminate.
Defined.

Lemma update_map_shape (query patch : doc) (options : update_options)
    (ts : string) (coll : list doc) (n : nat) :
  Forall2 (λ d d', d' = d
                   ∨ (_matchesQuery d query = true
                      ∧ d' = updatedDoc patch ts d))
    coll (update_map query patch options ts coll n).1.
Proof.
  revert n. induction coll as [|d coll IH]; intros n; simpl; [constructor|].
  destruct (_matchesQuery d query) eqn:Hm;
    [destruct (multi options || (n =? 0)%nat)|].
  - specialize (IH (S n)).
    destruct (update_map query patch options ts coll (S n)). simpl in *.
    constructor; auto.
  - specialize (IH n).
    destruct (update_map query patch options ts coll n). simpl in *.
    constructor; auto.
  - specialize (IH n).
    destruct (update_map query patch options ts coll n). simpl in *.
    constructor; auto.
Qed.

(** X15: an [update] that returns, on a file that holds what a parse
    produces, neither adds nor removes a document: the collection keeps its
    length, and every document that does not match the filter is still at
    its position, unchanged. *)
Theorem update_keeps_the_rest (s : engine) (db : database) (name : string)
    (coll : list doc) (query patch : doc) (options : update_options)
    (ts : string) (r : update_result) :
  initialized s = true → disk s = Stored db → json_db db = db →
  db !! name = Some coll →
  (update name query patch options ts s).1 = Ok r →
  ∃ now,
    stored (update name query patch options ts s).2 name = Some now
    ∧ length now = length coll
    ∧ ∀ i d, coll !! i = Some d → _matchesQuery d query = false →
        now !! i = Some d.
Proof.
  intros Hi Hd Hp Hc. run_engine. rewrite Hi, Hd. simpl. rewrite Hc.
  pose proof (update_map_shape query patch options ts coll 0) as Hshape.
  destruct (update_map query patch options ts coll 0) as [coll' n].
  simpl in Hshape.
  destruct ((n =? 0)%nat && negb (upsert options)); [done|].
  rewrite Hi. simpl. destruct (writable s) eqn:Hw; simpl; [|done].
  intros _. unfold stored. simpl. rewrite json_db_lookup, lookup_insert_eq.
  simpl. eexists. split; [done|]. split.
  - rewrite length_map. symmetry. by eapply Forall2_length.
  - intros i d Hi' Hm.
    destruct (Forall2_lookup_l _ _ _ _ _ Hshape Hi') as (d' & Hd' & Hrel).
    rewrite map_is_fmap, list_lookup_fmap, Hd'. simpl.
    destruct Hrel as [->|[Hm' _]]; [|congruence].
    f_equal. pose proof (parsed_collection db name coll Hp Hc) as Hfix.
    rewrite map_is_fmap in Hfix.
    assert (E : (json_doc <$> coll) !! i = coll !! i) by by rewrite Hfix.
    rewrite list_lookup_fmap, Hi' in E. simpl in E. congruence.
Qed.

Lemma update_keeps_the_rest_witness :
  let a : doc := {[ "team" := VStr "red" ]} in
  let b : doc := {[ "team" := VStr "blue" ]} in
  let s := Engine true (Stored {[ "users" := [a; b] ]}) true in
  ∃ now,
    stored (update "users" {[ "team" := VStr "red" ]} {[ "n" := VNum 1 ]}
              {| multi := true; upsert := false |} "T" s).2 "users" = Some now
    ∧ now !! 1%nat = Some b.
Proof.
  intros a b s.
  destruct (update_keeps_the_rest s {[ "users" := [a; b] ]} "users" [a; b]
    {[ "team" := VStr "red" ]} {[ "n" := VNum 1 ]}
    {| multi := true; upsert := false |} "T"
    {| matchedCount := 1; modifiedCount := 1 |}
    eq_refl eq_refl ltac:(vm_compute; reflexivity) eq_refl
    ltac:(vm_compute; reflexivity)) as (now & Hnow & _ & Hrest).
  exists now. split; [done|]. apply (Hrest 1%nat b); reflexivity.
Defined.

(** ** Ordering and paging *)

Section SortingMore.
Context `{Conforming}.

Lemma compare_docs_all_absent (sp : list (string * value)) (a b : doc) :
  Forall (λ kd, a !! kd.1 = None) sp → Forall (λ kd, b !! kd.1 = None) sp →
  compare_docs sp a b = Some 0.
Proof using Type.
  induction 1 as [|[key direction] rest Hk _ IH]; [done|].
  intros [Hk' Hrest]%Forall_cons.
  rewrite compare_docs_absent by done. by apply IH.
Qed.

Lemma all_tied_consistent (f : doc → doc → Z) (D : doc → Prop) :
  (∀ a b, D a → D b → f a b = 0) → consistent f D.
Proof using Type.
  intros Hz. repeat split.
  - intros a Da. by apply Hz.
  - intros a b Da Db _. by apply Hz.
  - intros a b c Da _ Dc _ _. by apply Hz.
  - intros a b c Da Db _ Hab. rewrite Hz in Hab by done. lia.
  - intros a b c Da Db _ Hab. rewrite Hz in Hab by done. lia.
Qed.

Lemma all_tied_sorted (f : doc → doc → Z) (l : list doc) :
  (∀ a b, a ∈ l → b ∈ l → f a b = 0) →
  StronglySorted (λ a b, f a b ≤ 0) l.
Proof using Type.
  induction l as [|x l IH]; intros Hz; constructor.
  - apply IH. intros a b Ha Hb. apply Hz; by right.
  - apply Forall_forall. intros y Hy. rewrite Hz; [done|by left|by right].
Qed.

(** X16: sorting on fields that no document holds (an empty sort
    specification included) returns the documents in the order they were
    in. *)
Theorem sort_without_keys_keeps_order (documents : list doc)
    (sp : list (string * value)) :
  Forall (λ d, Forall (λ kd, d !! kd.1 = None) sp) documents →
  _sortDocuments documents sp = Some documents.
Proof using Type*.
  intros Habs. unfold _sortDocuments.
  assert (Hret : returns_on (compare_docs sp) (λ _ _, 0) documents).
  { rewrite Forall_forall in Habs. intros a b Ha Hb.
    apply compare_docs_all_absent; by apply Habs. }
  apply (array_sort_already _ (λ _ _, 0)); [done|..].
  - by apply all_tied_consistent.
  - by apply all_tied_sorted.
Qed.

(** X17: where each sort field reads in all the documents as a value
    compared as a number, or in all of them as a value compared as a
    string, the sort returns, and sorting its result again returns it
    unchanged. *)
Theorem sort_is_idempotent (documents : list doc) (sp : list (string * value)) :
  comparable sp documents →
  ∃ sorted,
    _sortDocuments documents sp = Some sorted
    ∧ _sortDocuments sorted sp = Some sorted.
Proof using Type*.
  intros Hc. destruct (compare_docs_consistent documents sp Hc) as [Hret Hcons].
  destruct (sort_returns _ _ _ Hret) as [sorted Hs]. exists sorted.
  split; [done|].
  pose proof (sort_permutation _ _ _ Hs) as Hperm.
  apply (array_sort_already _ (compare_value sp)).
  - intros a b Ha Hb. apply Hret; by rewrite <- Hperm.
  - apply (consistent_weaken _ (λ d, d ∈ documents)); [|done].
    intros d Hd. by rewrite <- Hperm.
  - by apply (sort_ordered _ _ _ _ Hret Hcons Hs).
Qed.

End SortingMore.

Lemma sort_without_keys_keeps_order_witness :
  let a : doc := {[ "n" := VNum 2 ]} in
  let b : doc := {[ "n" := VNum 1 ]} in
  _sortDocuments [a; b] [("age", VNum 1)] = Some [a; b].
Proof.
  intros a b. apply sort_without_keys_keeps_order. repeat constructor.
Defined.

Lemma sort_is_idempotent_witness :
  let d (n : Z) : doc := {[ "n" := VNum n ]} in
  let sp := [("n", VNum 1)] in
  ∃ sorted,
    _sortDocuments [d 3; d 1; d 2] sp = Some sorted
    ∧ _sortDocuments sorted sp = Some sorted.
Proof.
  intros d sp. apply sort_is_idempotent.
  intros key direction Hin. apply list_elem_of_singleton in Hin.
  injection Hin as -> ->. left. intros x Hx.
  repeat (apply elem_of_cons in Hx as [->|Hx]; [by eexists|]).
  by apply elem_of_nil in Hx.
Defined.

Lemma window_pages {A} (skip n m : Z) (l : list A) :
  0 ≤ skip → 0 ≤ n → 0 ≤ m →
  window skip n l ++ window (skip + n) m l = window skip (n + m) l.
Proof.
  intros Hs Hn Hm. unfold window.
  rewrite (Z2Nat.inj_add skip n), (Z2Nat.inj_add n m) by lia.
  rewrite <- drop_drop. apply take_take_drop.
Qed.

(** X18: consecutive pages fit together: with the same filter and sort,
    the page of [n] documents from [skip] followed by the page of [m]
    documents from [skip + n] is the page of [n + m] documents from
    [skip]; and when the sort is ended by a throw of its comparator the
    three calls fail alike, with [FIND_ERROR]. *)
Theorem pages_concatenate `{Runtime} (s : engine) (db : database)
    (name : string) (coll : list doc) (query : doc)
    (sp : option (list (string * value))) (sk n m : Z) :
  initialized s = true → disk s = Stored db → db !! name = Some coll →
  0 ≤ sk → 0 < n → 0 < m →
  let matching := List.filter (λ d, _matchesQuery d query) coll in
  let sorted := match sp with
                | Some fields => _sortDocuments matching fields
                | None => Some matching
                end in
  let page1 := find name query {| sort := sp; skip := Some sk; limit := Some n |} s in
  let page2 :=
    find name query {| sort := sp; skip := Some (sk + n); limit := Some m |} s in
  let pages :=
    find name query {| sort := sp; skip := Some sk; limit := Some (n + m) |} s in
  (is_Some sorted →
   ∃ first second both,
     page1 = (Ok first, s) ∧ page2 = (Ok second, s) ∧ pages = (Ok both, s)
     ∧ data first ++ data second = data both)
  ∧ (sorted = None →
     let failed := (Throw (DatabaseError FIND_ERROR), s) in
     page1 = failed ∧ page2 = failed ∧ pages = failed).
Proof.
  intros Hi Hd Hc Hsk Hn Hm matching sorted page1 page2 pages.
  unfold page1, page2, pages.
  rewrite !(find_stored s db) by done. unfold find_step. rewrite Hc.
  cbn [sort]. fold matching. fold sorted. split.
  - intros [ordered ->]. unfold paginate. simpl.
    destruct (Z.eqb_spec n 0) as [|_]; [lia|].
    destruct (Z.eqb_spec m 0) as [|_]; [lia|].
    destruct (Z.eqb_spec (n + m) 0) as [|_]; [lia|].
    rewrite !slice_window by lia.
    eexists _, _, _. split; [done|]. split; [done|]. split; [done|]. simpl.
    apply window_pages; lia.
  - by intros ->.
Qed.

Lemma pages_concatenate_witness :
  let d (k : Z) : doc := {[ "n" := VNum k ]} in
  let s := Engine true (Stored {[ "items" := [d 0; d 1; d 2; d 3] ]}) true in
  ∃ first second both,
    find "items" ∅ {| sort := None; skip := Some 1; limit := Some 1 |} s
    = (Ok first, s)
    ∧ find "items" ∅ {| sort := None; skip := Some (1 + 1); limit := Some 2 |} s
      = (Ok second, s)
    ∧ find "items" ∅ {| sort := None; skip := Some 1; limit := Some (1 + 2) |} s
      = (Ok both, s)
    ∧ data first ++ data second = data both.
Proof.
  intros d s.
  apply (proj1 (pages_concatenate s {[ "items" := [d 0; d 1; d 2; d 3] ]}
    "items" [d 0; d 1; d 2; d 3] ∅ None 1 1 2
    eq_refl eq_refl eq_refl ltac:(lia) ltac:(lia) ltac:(lia))).
  by eexists.
Defined.

Lemma slice_sublist {A} (l : list A) (start end_ : Z) :
  slice l start end_ `sublist_of` l.
Proof.
  unfold slice. etransitivity; [apply sublist_take | apply sublist_drop].
Qed.

(** X19: whatever the options, [find] on an existing collection fails
    with [FIND_ERROR] when the sort is ended by a throw of its comparator,
    and returns otherwise, as it does whenever the comparator returns on
    the matching documents; it hands out only documents of the collection
    that match the filter, none of them more often than the collection
    holds it; the count it reports is the number of documents it hands
    out. *)
Theorem find_returns_matches_only `{Conforming} (s : engine) (db : database)
    (name : string) (coll : list doc) (query : doc) (options : find_options) :
  initialized s = true → disk s = Stored db → db !! name = Some coll →
  let matching := List.filter (λ d, _matchesQuery d query) coll in
  let sorted := match sort options with
                | Some sp => _sortDocuments matching sp
                | None => Some matching
                end in
  (sorted = None →
   find name query options s = (Throw (DatabaseError FIND_ERROR), s))
  ∧ (is_Some sorted →
     ∃ r,
       find name query options s = (Ok r, s)
       ∧ data r ⊆+ matching
       ∧ Forall (λ d, d ∈ coll ∧ _matchesQuery d query = true) (data r)
       ∧ count_ r = length (data r))
  ∧ ((∀ sp a b, sort options = Some sp → a ∈ matching → b ∈ matching →
        is_Some (compare_docs sp a b)) →
     is_Some sorted).
Proof.
  intros Hi Hd Hc matching sorted. rewrite (find_stored s db) by done.
  unfold find_step. rewrite Hc. fold matching. fold sorted.
  split; [by intros ->|]. split.
  - intros [ordered Hsorted]. rewrite Hsorted. eexists. split; [done|]. simpl.
    assert (Hord : ordered ⊆+ matching).
    { unfold sorted in Hsorted. destruct (sort options).
      - apply Permutation_submseteq. by eapply _sortDocuments_perm.
      - by injection Hsorted as <-. }
    assert (Hpage : paginate options ordered ⊆+ matching).
    { etransitivity; [|exact Hord]. unfold paginate.
      destruct (limit options) as [l|]; [|done].
      destruct (l =? 0); [done|]. apply sublist_submseteq, slice_sublist. }
    split; [done|]. split; [|done].
    apply Forall_forall. intros d Hin.
    apply (elem_of_submseteq _ _ _ Hin) in Hpage.
    apply list_elem_of_In, filter_In in Hpage as [Hcoll Hm].
    split; [by apply list_elem_of_In | done].
  - intros Hret. unfold sorted. destruct (sort options) as [sp|]; [|done].
    apply (sort_returns _ (compare_value sp)). intros a b Ha Hb.
    unfold compare_value. by destruct (Hret sp a b eq_refl Ha Hb) as [z ->].
Qed.

Lemma find_returns_matches_only_witness :
  let a : doc := {[ "team" := VStr "red" ]} in
  let b : doc := {[ "team" := VStr "blue" ]} in
  let s := Engine true (Stored {[ "users" := [a; b] ]}) true in
  ∃ r,
    find "users" {[ "team" := VStr "red" ]}
      {| sort := None; skip := Some (-1); limit := Some 5 |} s = (Ok r, s)
    ∧ count_ r = length (data r).
Proof.
  intros a b s.
  destruct (proj1 (proj2 (find_returns_matches_only s {[ "users" := [a; b] ]}
    "users" [a; b] {[ "team" := VStr "red" ]}
    {| sort := None; skip := Some (-1); limit := Some 5 |}
    eq_refl eq_refl eq_refl)) ltac:(by eexists))
    as (r & Hr & _ & _ & Hcount).
  by exists r.
Defined.

(** X20: a filter is the conjunction of its pairs: a document that
    matches a filter matches every filter made of some of its pairs, and it
    matches two filters without a common field taken together exactly when
    it matches each. *)
Theorem filter_is_a_conjunction (d query query' : doc) :
  (query' ⊆ query → _matchesQuery d query = true →
   _matchesQuery d query' = true)
  ∧ (query ##ₘ query' →
     _matchesQuery d (query ∪ query')
     = _matchesQuery d query && _matchesQuery d query').
Proof.
  split.
  - intros Hsub Hm. apply _matchesQuery_spec. apply _matchesQuery_spec in Hm.
    intros key v Hk. apply (Hm key v). by eapply lookup_weaken.
  - intros Hdisj.
    destruct (_matchesQuery d query) eqn:E1;
      destruct (_matchesQuery d query') eqn:E2; simpl.
    + apply _matchesQuery_spec, map_Forall_union; [done|].
      split; by apply _matchesQuery_spec.
    + destruct (_matchesQuery d (query ∪ query')) eqn:E; [|done].
      apply _matchesQuery_spec, map_Forall_union in E as [_ E]; [|done].
      apply _matchesQuery_spec in E. congruence.
    + destruct (_matchesQuery d (query ∪ query')) eqn:E; [|done].
      apply _matchesQuery_spec, map_Forall_union in E as [E _]; [|done].
      apply _matchesQuery_spec in E. congruence.
    + destruct (_matchesQuery d (query ∪ query')) eqn:E; [|done].
      apply _matchesQuery_spec, map_Forall_union in E as [E _]; [|done].
      apply _matchesQuery_spec in E. congruence.
Qed.

(** ** The mutex *)

Lemma queue_exact_stay (σ : system) (i : nat) (t : task) (p : phase)
    (e : engine) :
  queue_exact σ → tasks σ !! i = Some t →
  ¬ is_waiting (at_ t) → ¬ is_waiting p →
  queue_exact {| eng := e; queue := queue σ; tasks := move i p (tasks σ) |}.
Proof.
  intros [Hnd Hq] Ht Hold Hnew. split; [done|]. simpl. intros j.
  destruct (decide (i = j)) as [<-|Hne].
  - rewrite (phase_at_move_eq σ i p t) by done. rewrite Hq.
    unfold phase_at. rewrite Ht. simpl. split; intros (q & [= <-] & Hw); done.
  - rewrite phase_at_move_ne by done. apply Hq.
Qed.

Lemma queue_exact_enqueue (σ : system) (i : nat) (t : task) (p : phase)
    (e : engine) :
  queue_exact σ → tasks σ !! i = Some t →
  ¬ is_waiting (at_ t) → is_waiting p →
  queue_exact {| eng := e; queue := queue σ ++ [i];
                 tasks := move i p (tasks σ) |}.
Proof.
  intros [Hnd Hq] Ht Hold Hnew.
  assert (Hfresh : i ∉ queue σ).
  { rewrite Hq. unfold phase_at. rewrite Ht. simpl.
    by intros (q & [= <-] & Hw). }
  split; simpl.
  - apply NoDup_app. split; [done|]. split; [|apply NoDup_singleton].
    intros j Hj ->%list_elem_of_singleton. done.
  - intros j. rewrite elem_of_app, list_elem_of_singleton.
    destruct (decide (i = j)) as [<-|Hne].
    + rewrite (phase_at_move_eq σ i p t) by done. split; [eauto|auto].
    + rewrite phase_at_move_ne by done. rewrite Hq.
      split; [intros [Hj|Hj]; [done|congruence] | by left].
Qed.

Lemma queue_exact_dequeue (σ : system) (i : nat) (t : task) (p : phase)
    (e : engine) (rest : list nat) :
  queue_exact σ → tasks σ !! i = Some t → queue σ = i :: rest →
  ¬ is_waiting p →
  queue_exact {| eng := e; queue := rest; tasks := move i p (tasks σ) |}.
Proof.
  intros [Hnd Hq] Ht Hhead Hnew. rewrite Hhead in Hnd, Hq.
  apply NoDup_cons in Hnd as [Hfresh Hnd]. split; [done|]. simpl.
  intros j. destruct (decide (i = j)) as [<-|Hne].
  - rewrite (phase_at_move_eq σ i p t) by done.
    split; [done|]. by intros (q & [= <-] & Hw).
  - rewrite phase_at_move_ne by done. rewrite <- Hq, elem_of_cons.
    split; [by right | intros [Hj|Hj]; [congruence|done]].
Qed.

Lemma step_queue_exact (σ σ' : system) (i : nat) :
  queue_exact σ → step i σ = Some σ' → queue_exact σ'.
Proof.
  intros Hex. unfold step.
  destruct (tasks σ !! i) as [t|] eqn:Ht; simpl; [|done].
  destruct (at_ t) as [| |db|db' r|res] eqn:Hp.
  - destruct (length (as_array (documents (args t))) =? 0)%nat;
      [|destruct (negb (initialized (eng σ)))]; intros [= <-].
    + eapply queue_exact_stay; eauto; rewrite ?Hp; simpl; auto.
    + eapply queue_exact_stay; eauto; rewrite ?Hp; simpl; auto.
    + eapply queue_exact_enqueue; eauto; rewrite ?Hp; simpl; auto.
  - destruct (queue σ) as [|holder rest] eqn:Hq; [done|].
    destruct (Nat.eqb_spec holder i) as [->|]; [|done].
    destruct (read_locked (eng σ)); intros [= <-];
      eapply queue_exact_dequeue; eauto.
  - destruct (insert_step _ _ _ _ db) as [[db' r]|e];
      [destruct (negb (initialized (eng σ)))|]; intros [= <-].
    + eapply queue_exact_stay; eauto; rewrite ?Hp; simpl; auto.
    + eapply queue_exact_enqueue; eauto; rewrite ?Hp; simpl; auto.
    + eapply queue_exact_stay; eauto; rewrite ?Hp; simpl; auto.
  - destruct (queue σ) as [|holder rest] eqn:Hq; [done|].
    destruct (Nat.eqb_spec holder i) as [->|]; [|done].
    destruct (write_locked db' (eng σ)) as [[[]|e] s']; intros [= <-];
      eapply queue_exact_dequeue; eauto.
  - done.
Qed.

Lemma launch_queue_exact (s : engine) (calls : list call) :
  queue_exact (launch s calls).
Proof.
  split; [constructor|]. simpl. intros i. rewrite elem_of_nil.
  split; [done|]. unfold phase_at. simpl. rewrite list_lookup_fmap.
  destruct (calls !! i); simpl; by intros (p & [= <-] & Hw).
Qed.

Lemma run_queue_exact (schedule : list nat) (σ σ' : system) :
  queue_exact σ → run schedule σ = Some σ' → queue_exact σ'.
Proof.
  revert σ. induction schedule as [|i rest IH]; intros σ Hex; simpl.
  - by intros [= <-].
  - destruct (step i σ) as [σ1|] eqn:Hstep; simpl; [|done].
    apply IH. by eapply step_queue_exact.
Qed.

Lemma waiting_head_can_step (σ : system) (h : nat) (rest : list nat) :
  queue_exact σ → queue σ = h :: rest → is_Some (step h σ).
Proof.
  intros [_ Hq] Hhead.
  destruct (proj1 (Hq h)) as (p & Hp & Hw); [rewrite Hhead; by left|].
  unfold phase_at in Hp. unfold step.
  destruct (tasks σ !! h) as [t|]; simpl in *; [|done].
  injection Hp as Hp. rewrite Hp, Hhead.
  destruct p as [| |db|db' r|res]; try done; rewrite Nat.eqb_refl.
  - by destruct (read_locked (eng σ)).
  - by destruct (write_locked db' (eng σ)) as [[[]|e] s'].
Qed.

(** X22: whatever calls of [insert] are issued together, with whatever
    arguments and on whatever engine, and however they interleave: once all
    of them have returned or thrown the mutex is free with nobody waiting,
    and as long as one of them has not, some call can make its next step
    (the calls cannot block each other for good). *)
Theorem mutex_is_released_and_calls_progress (s : engine) (calls : list call)
    (schedule : list nat) (σ : system) :
  run schedule (launch s calls) = Some σ →
  (all_returned σ → queue σ = [])
  ∧ (all_returned σ ∨ ∃ i σ', step i σ = Some σ').
Proof.
  intros Hrun.
  pose proof (run_queue_exact _ _ _ (launch_queue_exact s calls) Hrun) as Hex.
  split.
  - intros Hall. destruct (queue σ) as [|h rest] eqn:Hq; [done|].
    destruct Hex as [_ Hex].
    destruct (proj1 (Hex h)) as (p & Hp & Hw); [rewrite Hq; by left|].
    unfold phase_at in Hp. destruct (tasks σ !! h) as [t|] eqn:Ht; [|done].
    injection Hp as Hp. unfold all_returned in Hall.
    pose proof (Forall_lookup_1 _ _ _ _ Hall Ht) as [res Hres].
    unfold returned in Hres. rewrite Hp in Hres. by destruct p.
  - destruct (decide (Forall (λ t, is_Some (returned t)) (tasks σ)))
      as [Hall|Hnot]; [by left|right].
    apply not_Forall_Exists in Hnot; [|apply _].
    apply Exists_exists in Hnot as (t & Hin & Hrun').
    apply list_elem_of_lookup in Hin as [i Ht].
    destruct (at_ t) as [| |db|db' r|res] eqn:Hp.
    + exists i. unfold step. rewrite Ht. simpl. rewrite Hp.
      destruct (length (as_array (documents (args t))) =? 0)%nat;
        [|destruct (negb (initialized (eng σ)))]; eauto.
    + destruct (queue σ) as [|h rest] eqn:Hq.
      * destruct Hex as [_ Hex].
        assert (Hin : i ∈ queue σ).
        { apply Hex. exists AwaitReadLock. unfold phase_at.
          rewrite Ht. simpl. by rewrite Hp. }
        rewrite Hq in Hin. by apply elem_of_nil in Hin.
      * destruct (waiting_head_can_step σ h rest Hex Hq) as [σ' Hstep].
        by exists h, σ'.
    + exists i. unfold step. rewrite Ht. simpl. rewrite Hp.
      destruct (insert_step _ _ _ _ db) as [[db' r]|e];
        [destruct (negb (initialized (eng σ)))|]; eauto.
    + destruct (queue σ) as [|h rest] eqn:Hq.
      * destruct Hex as [_ Hex].
        assert (Hin : i ∈ queue σ).
        { apply Hex. exists (AwaitWriteLock db' r). unfold phase_at.
          rewrite Ht. simpl. by rewrite Hp. }
        rewrite Hq in Hin. by apply elem_of_nil in Hin.
      * destruct (waiting_head_can_step σ h rest Hex Hq) as [σ' Hstep].
        by exists h, σ'.
    + destruct Hrun'. unfold returned. rewrite Hp. by eexists.
Qed.

Lemma mutex_is_released_and_calls_progress_witness :
  let s := Engine true (Stored {[ "users" := [] ]}) true in
  let one (who : string) :=
    {| collectionName := "users"; documents := One {[ "name" := VStr who ]};
       timestamp := "T"; _generateId := λ _, who |} in
  ∃ σ, run [0; 1; 0]%nat (launch s [one "a"; one "b"]) = Some σ
       ∧ (all_returned σ ∨ ∃ i σ', step i σ = Some σ').
Proof.
  intros s one.
  destruct (run [0; 1; 0]%nat (launch s [one "a"; one "b"])) as [σ|] eqn:Hrun;
    [|by vm_compute in Hrun].
  exists σ. split; [done|].
  exact (proj2 (mutex_is_released_and_calls_progress s [one "a"; one "b"]
                  [0; 1; 0]%nat σ Hrun)).
Defined.

(** ** The collection handle *)

(** X23: [collection] throws [NOT_INITIALIZED] on an engine that is not
    initialised and otherwise returns a handle without touching the engine;
    the handle's own [count] returns what the engine's [count] returns; and
    a handle obtained before [close] is of no use after it: its [find],
    [findOne], [count], [update], [delete] and [drop] are answered
    [NOT_INITIALIZED]. *)
Theorem collection_handle_follows_the_engine `{Runtime} (s : engine)
    (name : string) :
  (initialized s = false →
   collection name s = Throw (DatabaseError NOT_INITIALIZED))
  ∧ (initialized s = true →
     ∃ h, collection name s = Ok h
          ∧ (∀ query s0, handle_count h query s0 = count name query s0)
          ∧ let closed := (close s).2 in
            let refused {A} (r : outcome A * engine) :=
              r = (Throw (DatabaseError NOT_INITIALIZED), closed) in
            (∀ query options, refused (handle_find h query options closed))
            ∧ (∀ query, refused (handle_findOne h query closed))
            ∧ (∀ query, refused (handle_count h query closed))
            ∧ (∀ query patch options ts,
                 refused (handle_update h query patch options ts closed))
            ∧ (∀ query options, refused (handle_delete h query options closed))
            ∧ refused (handle_drop h closed)).
Proof.
  split; intros Hi; unfold collection; rewrite Hi; simpl; [done|].
  eexists. split; [done|]. split; [done|]. simpl.
  repeat split; intros; run_engine; done.
Qed.

(** ** The example script *)

Import Example.

Lemma filter_structured_query (query : doc) (key : string) (v : value)
    (coll : list doc) :
  query !! key = Some v → ¬ primitive v →
  List.filter (λ d, _matchesQuery d query) coll = [].
Proof.
  intros Hk Hv. apply filter_none, Forall_forall. intros d _.
  by eapply _matchesQuery_structured.
Qed.

(** X24: run on a path where no file exists, whatever the clock and the
    identifiers drawn, the example script gets through [init],
    [createCollection] and [insert], its [find] for [{age: {$gte: 25}}]
    returns no document, and its [update] for the name ['kofi'] throws
    [DOCUMENT_NOT_FOUND], so that [getStats] is never reached; the file is
    left holding the two inserted users.  Run a second time on that file,
    it throws [COLLECTION_EXISTS] at [createCollection] and leaves the
    file as it is. *)
Theorem example_script_stops_at_update `{Runtime} (inserted_at updated_at : string)
    (gen : nat → string) :
  let first := example inserted_at updated_at gen (constructor Absent true) in
  let users := [json_doc (with_metadata inserted_at (gen 0%nat) kofi);
                json_doc (with_metadata inserted_at (gen 1%nat) jane)] in
  first.1 = Throw (DatabaseError DOCUMENT_NOT_FOUND)
  ∧ first.2 = Engine true (Stored {[ "users" := users ]}) true
  ∧ find "users" {[ "age" := VObj {[ "$gte" := VNum 25 ]} ]} no_options first.2
    = (Ok {| data := []; count_ := 0 |}, first.2)
  ∧ ∀ inserted_at' updated_at' gen',
      example inserted_at' updated_at' gen' (constructor (disk first.2) true)
      = (Throw (DatabaseError COLLECTION_EXISTS),
         Engine true (disk first.2) true).
Proof.
  intros first users.
  set (s1 := Engine true (Stored {[ "users" := [] ]}) true).
  set (s2 := Engine true (Stored {[ "users" := users ]}) true).
  assert (Hcreate : createCollection (VStr "users") (Engine true (Stored ∅) true)
                    = (Ok (), s1)) by by vm_compute.
  assert (Hinsert : insert "users" (Many [kofi; jane]) inserted_at gen s1
                    = (Ok {| insertedCount := 2;
                             insertedIds := [VStr (gen 0%nat); VStr (gen 1%nat)] |},
                       s2)).
  { rewrite (insert_ok s1 {[ "users" := [] ]} "users" []) by done.
    simpl. reflexivity. }
  assert (Hfind : find "users" {[ "age" := VObj {[ "$gte" := VNum 25 ]} ]}
                    no_options s2
                  = (Ok {| data := []; count_ := 0 |}, s2)).
  { rewrite (find_stored s2 {[ "users" := users ]}) by done.
    unfold find_step. rewrite lookup_singleton_eq.
    rewrite (filter_structured_query _ "age" (VObj {[ "$gte" := VNum 25 ]}));
      [done | apply lookup_singleton_eq | simpl; tauto]. }
  assert (Hnames : Forall (λ d, _matchesQuery d {[ "name" := VStr "kofi" ]} = false)
                     users).
  { unfold users. repeat constructor. }
  assert (Hupdate : update "users" {[ "name" := VStr "kofi" ]} {[ "age" := VNum 31 ]}
                      {| multi := false; upsert := false |} updated_at s2
                    = (Throw (DatabaseError DOCUMENT_NOT_FOUND), s2)).
  { run_engine. simpl. rewrite lookup_singleton_eq.
    by rewrite update_map_no_match. }
  assert (Hfirst : first = (Throw (DatabaseError DOCUMENT_NOT_FOUND), s2)).
  { unfold first, example, bind. simpl.
    change (createCollection (VStr "users")
              {| initialized := true; disk := Stored ∅; writable := true |})
      with (createCollection (VStr "users") (Engine true (Stored ∅) true)).
    by rewrite Hcreate, Hinsert, Hfind, Hupdate. }
  rewrite Hfirst. simpl. split; [done|]. split; [done|]. split; [done|].
  intros t1 t2 gen'. unfold example, bind. simpl.
  run_engine. simpl. by rewrite lookup_singleton_eq.
Qed.

(** ** The persisted form, once more *)

Lemma operations_keep_parsed_witness :
  let s := Engine true (Stored {[ "users" := [] ]}) true in
  parsed (insert "users"
            (One {[ "tags" := VArr [VUndefined]; "gone" := VUndefined ]})
            "T" (λ _, "id0") s).2.
Proof.
  intros s.
  refine (proj1 (proj2 (proj2 (proj2 (proj2
    (operations_keep_parsed s _))))) "users" _ "T" (λ _, "id0")).
  vm_compute. reflexivity.
Defined.
